(** * Bee_Blogs: the in-memory store [MemStorage] of server/storage.ts

    A shallow embedding of the data-access layer and of the handlers of
    server/routes.ts that call it.  JavaScript numbers that serve as ids,
    counters and timestamps are integers ([Z]), but for the ids that a
    handler reads from the address with [parseInt] and hands to the store
    unchecked: those are integers or [NaN] ([JsNumber]).  The clock
    ([new Date()]), the salted hash ([bcrypt.hash]), the builtin
    [toLowerCase] and the outcome of parsing a request body against a
    schema of shared/schema.ts are inputs of the operations that use them.
    A JavaScript [Map] iterates in insertion order, and [find], [filter]
    and the stable [sort] observe that order, so a map is an association
    list kept in insertion order. *)

From Stdlib Require Import ZArith List String Ascii Bool Lia.
From Stdlib Require Import Permutation Sorted.
Import ListNotations.
Open Scope Z_scope.

(** ** JavaScript [Map<number, V>] *)

Module JsMap.
Section WithValue.
Context {V : Type}.

Definition t := list (Z * V).

Definition empty : t := [].

Fixpoint get (k : Z) (m : t) : option V :=
  match m with
  | [] => None
  | (k', v) :: r => if k =? k' then Some v else get k r
  end.

Definition has (k : Z) (m : t) : bool :=
  match get k m with Some _ => true | None => false end.

(** [set] on a present key replaces the value in place; a new key goes
    to the end of the iteration order. *)
Fixpoint set (k : Z) (v : V) (m : t) : t :=
  match m with
  | [] => [(k, v)]
  | (k', v') :: r => if k =? k' then (k, v) :: r else (k', v') :: set k v r
  end.

(** [delete] returns whether the key was present; [remove] is the map
    it leaves behind. *)
Fixpoint remove (k : Z) (m : t) : t :=
  match m with
  | [] => []
  | (k', v') :: r => if k =? k' then r else (k', v') :: remove k r
  end.

Definition delete (k : Z) (m : t) : t * bool := (remove k m, has k m).

Definition entries (m : t) : list (Z * V) := m.
Definition keys (m : t) : list Z := map fst m.
Definition values (m : t) : list V := map snd m.

(** The keys of a [Map] are pairwise distinct. *)
Definition ok (m : t) : Prop := NoDup (keys m).

End WithValue.
Arguments t : clear implicits.
End JsMap.

(** ** JavaScript arrays *)

Module JsArray.
Section WithElement.
Context {A : Type}.

(** [Array.prototype.sort(cmp)] is stable: an element stays ahead of the
    later elements it compares equal to. *)
Fixpoint insertSorted (cmp : A -> A -> Z) (x : A) (l : list A) : list A :=
  match l with
  | [] => [x]
  | y :: r => if cmp x y <=? 0 then x :: y :: r else y :: insertSorted cmp x r
  end.

Definition sort (cmp : A -> A -> Z) (l : list A) : list A :=
  fold_right (insertSorted cmp) [] l.

(** A negative index of [slice] counts from the end of the array. *)
Definition relIndex (len i : Z) : Z :=
  if i <? 0 then Z.max (len + i) 0 else Z.min i len.

Definition slice (start stop : Z) (l : list A) : list A :=
  let len := Z.of_nat (List.length l) in
  let k := relIndex len start in
  let final := relIndex len stop in
  firstn (Z.to_nat (final - k)) (skipn (Z.to_nat k) l).

End WithElement.
End JsArray.

(** ** JavaScript strings *)

(** A string is the sequence of its characters, which [includes] and
    [===] compare one by one.  The builtin
    [String.prototype.toLowerCase], which folds all of Unicode, is not
    modelled: the functions that call it take it as the argument
    [toLowerCase]. *)

Module JsString.

(** [hay.includes(needle)] *)
Fixpoint includes (hay needle : string) : bool :=
  if String.prefix needle hay then true
  else match hay with
       | EmptyString => false
       | String _ r => includes r needle
       end.

(** [x || null] on an optional string: the empty string is falsy. *)
Definition orNull (o : option string) : option string :=
  match o with
  | Some EmptyString => None
  | _ => o
  end.

End JsString.

(** ** JavaScript numbers used as ids *)

(** An id that a route read with [parseInt] and passed on unchecked is an
    integer or [NaN]. *)
Inductive JsNumber :=
| Int (z : Z)
| NaN.

(** [a === b] on numbers: [NaN] equals nothing, not even itself. *)
Definition strictEq (a b : JsNumber) : bool :=
  match a, b with
  | Int x, Int y => x =? y
  | _, _ => false
  end.

(** [map.get(n)]: the keys of the tables are integers, so [NaN] finds
    nothing. *)
Definition lookup {V : Type} (n : JsNumber) (m : JsMap.t V) : option V :=
  match n with
  | Int k => JsMap.get k m
  | NaN => None
  end.

(** ** Entities *)

(** Modelled from the spec: [User] of shared/schema.ts (not among the
    sources); the fields are those of the data model, named as storage.ts
    reads and writes them. *)
Record User := {
  u_id : Z;
  u_email : string;
  u_username : string;
  u_password : string;
  u_displayName : string;
  u_bio : option string;
  u_avatar : option string;
  u_createdAt : Z
}.

(** Modelled from the spec: [InsertUser] of shared/schema.ts (not among the sources),
    the fields [createUser] is called with; [bio] and [avatar] are optional. *)
Record InsertUser := {
  iu_email : string;
  iu_username : string;
  iu_password : string;
  iu_displayName : string;
  iu_bio : option string;
  iu_avatar : option string
}.

(** Modelled from the spec: [Post] of shared/schema.ts (not among the sources), with
    the fields [createPost] writes; [image] and [tags] may be [null]. *)
Record Post := {
  p_id : Z;
  p_title : string;
  p_content : string;
  p_excerpt : string;
  p_authorId : Z;
  p_image : option string;
  p_tags : option (list string);
  p_published : bool;
  p_createdAt : Z;
  p_updatedAt : Z
}.

(** Modelled from the spec: [InsertPost] of shared/schema.ts (not among the sources),
    the fields [createPost] reads; the last three are optional. *)
Record InsertPost := {
  ip_title : string;
  ip_content : string;
  ip_excerpt : string;
  ip_authorId : Z;
  ip_image : option string;
  ip_tags : option (list string);
  ip_published : option bool
}.

(** [Partial<InsertPost>]: a key is absent ([None]) or carries a value of
    the field's type. *)
Record PartialInsertPost := {
  pp_title : option string;
  pp_content : option string;
  pp_excerpt : option string;
  pp_authorId : option Z;
  pp_image : option (option string);
  pp_tags : option (option (list string));
  pp_published : option bool
}.

(** Modelled from the spec: [Like] of shared/schema.ts (not among the sources), with the
    fields [likePost] writes; [postId] is the id the route read from the
    address. *)
Record Like := {
  l_id : Z;
  l_userId : Z;
  l_postId : JsNumber;
  l_createdAt : Z
}.

(** Modelled from the spec: [Comment] of shared/schema.ts (not among the sources): an
    [InsertComment] with its id and creation time. *)
Record Comment := {
  c_id : Z;
  c_postId : Z;
  c_userId : Z;
  c_content : string;
  c_createdAt : Z
}.

(** Modelled from the spec: [InsertComment] of shared/schema.ts (not among the
    sources): post id, user id and content. *)
Record InsertComment := {
  ic_postId : Z;
  ic_userId : Z;
  ic_content : string
}.

(** Modelled from the spec: [Bookmark] of shared/schema.ts (not among the sources), with
    the fields [bookmarkPost] writes; [postId] is the id the route read
    from the address. *)
Record Bookmark := {
  b_id : Z;
  b_userId : Z;
  b_postId : JsNumber;
  b_createdAt : Z
}.

(** Modelled from the spec: [Follow] of shared/schema.ts (not among the sources), with the
    fields [followUser] writes; [followingId] is the id the route read
    from the address. *)
Record Follow := {
  f_id : Z;
  f_followerId : Z;
  f_followingId : JsNumber;
  f_createdAt : Z
}.

(** Modelled from the spec: [Message] of shared/schema.ts (not among the sources), with
    the fields [sendMessage] writes. *)
Record Message := {
  m_id : Z;
  m_senderId : Z;
  m_receiverId : Z;
  m_content : string;
  m_isRead : bool;
  m_createdAt : Z
}.

(** Modelled from the spec: [InsertMessage] of shared/schema.ts (not among the
    sources), the fields [sendMessage] reads; [isRead] is optional. *)
Record InsertMessage := {
  im_senderId : Z;
  im_receiverId : Z;
  im_content : string;
  im_isRead : option bool
}.

(** Modelled from the spec: the denormalized author (or participant)
    summary of the read models, with the fields storage.ts gives it. *)
Record Summary := {
  a_id : Z;
  a_displayName : string;
  a_username : string;
  a_avatar : option string
}.

(** Modelled from the spec: [PostWithAuthor] of shared/schema.ts (not among the
    sources): the post, with what [enrichPostWithAuthor] adds to it. *)
Record PostWithAuthor := {
  pw_post : Post;
  pw_author : Summary;
  pw_likeCount : nat;
  pw_commentCount : nat;
  pw_isLiked : bool;
  pw_isBookmarked : bool
}.

(** Modelled from the spec: [Conversation] of shared/schema.ts (not among the
    sources), with the fields [getConversations] pushes. *)
Record Conversation := {
  cv_participant : Summary;
  cv_lastMessage : Message;
  cv_unreadCount : nat
}.

(** ** The store *)

Record CurrentId := {
  cur_users : Z;
  cur_posts : Z;
  cur_likes : Z;
  cur_comments : Z;
  cur_bookmarks : Z;
  cur_follows : Z;
  cur_messages : Z
}.

Record MemStorage := {
  users : JsMap.t User;
  posts : JsMap.t Post;
  likes : JsMap.t Like;
  comments : JsMap.t Comment;
  bookmarks : JsMap.t Bookmark;
  follows : JsMap.t Follow;
  messages : JsMap.t Message;
  currentId : CurrentId
}.

(** The constructor. *)
Definition newMemStorage : MemStorage := {|
  users := JsMap.empty;
  posts := JsMap.empty;
  likes := JsMap.empty;
  comments := JsMap.empty;
  bookmarks := JsMap.empty;
  follows := JsMap.empty;
  messages := JsMap.empty;
  currentId := {| cur_users := 1; cur_posts := 1; cur_likes := 1;
                  cur_comments := 1; cur_bookmarks := 1; cur_follows := 1;
                  cur_messages := 1 |}
|}.

(** What a call hands back: a value, or a thrown [Error]. *)
Inductive Outcome (A : Type) : Type :=
| Returned (a : A)
| Threw (message : string).
Arguments Returned {A} a.
Arguments Threw {A} message.

(** An optional id used as a condition ([userId ? ... : false]):
    [undefined] and [0] are falsy. *)
Definition whenTruthy (userId : option Z) (f : Z -> bool) : bool :=
  match userId with
  | Some u => if u =? 0 then false else f u
  | None => false
  end.

(** The comparator of the sorts that put the newest first. *)
Definition newestFirst {A : Type} (createdAt : A -> Z) (a b : A) : Z :=
  createdAt b - createdAt a.

(** *** User methods *)

Definition getUser (s : MemStorage) (id : Z) : option User :=
  JsMap.get id (users s).

Definition getUserByEmail (s : MemStorage) (email : string) : option User :=
  find (fun user => String.eqb (u_email user) email) (JsMap.values (users s)).

Definition getUserByUsername (s : MemStorage) (username : string) : option User :=
  find (fun user => String.eqb (u_username user) username) (JsMap.values (users s)).

Definition createUser (s : MemStorage) (now : Z) (hashedPassword : string)
    (userData : InsertUser) : MemStorage * User :=
  let id := cur_users (currentId s) in
  let user := {|
    u_id := id;
    u_email := iu_email userData;
    u_username := iu_username userData;
    u_password := hashedPassword;
    u_displayName := iu_displayName userData;
    u_bio := JsString.orNull (iu_bio userData);
    u_avatar := JsString.orNull (iu_avatar userData);
    u_createdAt := now
  |} in
  let c := currentId s in
  ({| users := JsMap.set id user (users s);
      posts := posts s; likes := likes s; comments := comments s;
      bookmarks := bookmarks s; follows := follows s; messages := messages s;
      currentId := {| cur_users := id + 1; cur_posts := cur_posts c;
                      cur_likes := cur_likes c; cur_comments := cur_comments c;
                      cur_bookmarks := cur_bookmarks c;
                      cur_follows := cur_follows c;
                      cur_messages := cur_messages c |} |},
   user).

(** *** Like, comment and bookmark lookups *)

Definition isPostLiked (s : MemStorage) (userId postId : Z) : bool :=
  existsb (fun like => (l_userId like =? userId)
                       && strictEq (l_postId like) (Int postId))
          (JsMap.values (likes s)).

Definition getPostLikeCount (s : MemStorage) (postId : Z) : nat :=
  List.length (filter (fun like => strictEq (l_postId like) (Int postId))
                      (JsMap.values (likes s))).

Definition getCommentCount (s : MemStorage) (postId : Z) : nat :=
  List.length (filter (fun comment => c_postId comment =? postId)
                 (JsMap.values (comments s))).

Definition isPostBookmarked (s : MemStorage) (userId postId : Z) : bool :=
  existsb (fun bookmark =>
             (b_userId bookmark =? userId)
             && strictEq (b_postId bookmark) (Int postId))
          (JsMap.values (bookmarks s)).

(** *** Post methods *)

Definition summaryOf (o : option User) : Summary :=
  match o with
  | Some author => {| a_id := u_id author;
                      a_displayName := u_displayName author;
                      a_username := u_username author;
                      a_avatar := u_avatar author |}
  | None => {| a_id := 0;
               a_displayName := "Unknown User"%string;
               a_username := "unknown"%string;
               a_avatar := None |}
  end.

Definition enrichPostWithAuthor (s : MemStorage) (post : Post)
    (userId : option Z) : PostWithAuthor :=
  let author := getUser s (p_authorId post) in
  let likeCount := getPostLikeCount s (p_id post) in
  let commentCount := getCommentCount s (p_id post) in
  let isLiked := whenTruthy userId (fun u => isPostLiked s u (p_id post)) in
  let isBookmarked :=
    whenTruthy userId (fun u => isPostBookmarked s u (p_id post)) in
  {| pw_post := post;
     pw_author := summaryOf author;
     pw_likeCount := likeCount;
     pw_commentCount := commentCount;
     pw_isLiked := isLiked;
     pw_isBookmarked := isBookmarked |}.

Definition getPosts (s : MemStorage) (limit offset : Z) (userId : option Z)
    : list PostWithAuthor :=
  let allPosts :=
    JsArray.slice offset (offset + limit)
      (JsArray.sort (newestFirst p_createdAt)
         (filter (fun post => p_published post) (JsMap.values (posts s)))) in
  map (fun post => enrichPostWithAuthor s post userId) allPosts.

Definition getPost (s : MemStorage) (id : Z) (userId : option Z)
    : option PostWithAuthor :=
  match JsMap.get id (posts s) with
  | None => None
  | Some post =>
      if negb (p_published post) then None
      else Some (enrichPostWithAuthor s post userId)
  end.

Definition getPostsByAuthor (s : MemStorage) (authorId : Z) (userId : option Z)
    : list PostWithAuthor :=
  let authorPosts :=
    JsArray.sort (newestFirst p_createdAt)
      (filter (fun post => (p_authorId post =? authorId) && p_published post)
              (JsMap.values (posts s))) in
  map (fun post => enrichPostWithAuthor s post userId) authorPosts.

(** [post.tags?.includes(tag)]: a post without tags matches no tag. *)
Definition tagsInclude (tags : option (list string)) (tag : string) : bool :=
  match tags with
  | Some ts => existsb (fun t => String.eqb t tag) ts
  | None => false
  end.

Definition getPostsByTag (s : MemStorage) (tag : string) (userId : option Z)
    : list PostWithAuthor :=
  let taggedPosts :=
    JsArray.sort (newestFirst p_createdAt)
      (filter (fun post => p_published post && tagsInclude (p_tags post) tag)
              (JsMap.values (posts s))) in
  map (fun post => enrichPostWithAuthor s post userId) taggedPosts.

Definition createPost (s : MemStorage) (now : Z) (postData : InsertPost)
    : MemStorage * Post :=
  let id := cur_posts (currentId s) in
  let post := {|
    p_id := id;
    p_title := ip_title postData;
    p_content := ip_content postData;
    p_excerpt := ip_excerpt postData;
    p_authorId := ip_authorId postData;
    p_image := JsString.orNull (ip_image postData);
    p_tags := ip_tags postData;
    p_published := match ip_published postData with Some b => b | None => true end;
    p_createdAt := now;
    p_updatedAt := now
  |} in
  let c := currentId s in
  ({| users := users s;
      posts := JsMap.set id post (posts s);
      likes := likes s; comments := comments s;
      bookmarks := bookmarks s; follows := follows s; messages := messages s;
      currentId := {| cur_users := cur_users c; cur_posts := id + 1;
                      cur_likes := cur_likes c; cur_comments := cur_comments c;
                      cur_bookmarks := cur_bookmarks c;
                      cur_follows := cur_follows c;
                      cur_messages := cur_messages c |} |},
   post).

(** One key of the object spread [{...existingPost, ...postData}]. *)
Definition spread {A : Type} (existing : A) (supplied : option A) : A :=
  match supplied with Some x => x | None => existing end.

Definition withPosts (s : MemStorage) (ps : JsMap.t Post) : MemStorage :=
  {| users := users s; posts := ps; likes := likes s; comments := comments s;
     bookmarks := bookmarks s; follows := follows s; messages := messages s;
     currentId := currentId s |}.

Definition updatePost (s : MemStorage) (now : Z) (id : Z)
    (postData : PartialInsertPost) : MemStorage * option Post :=
  match JsMap.get id (posts s) with
  | None => (s, None)
  | Some existingPost =>
      let updatedPost := {|
        p_id := p_id existingPost;
        p_title := spread (p_title existingPost) (pp_title postData);
        p_content := spread (p_content existingPost) (pp_content postData);
        p_excerpt := spread (p_excerpt existingPost) (pp_excerpt postData);
        p_authorId := spread (p_authorId existingPost) (pp_authorId postData);
        p_image := spread (p_image existingPost) (pp_image postData);
        p_tags := spread (p_tags existingPost) (pp_tags postData);
        p_published := spread (p_published existingPost) (pp_published postData);
        p_createdAt := p_createdAt existingPost;
        p_updatedAt := now
      |} in
      (withPosts s (JsMap.set id updatedPost (posts s)), Some updatedPost)
  end.

Definition deletePost (s : MemStorage) (id authorId : Z) : MemStorage * bool :=
  match JsMap.get id (posts s) with
  | None => (s, false)
  | Some post =>
      if negb (p_authorId post =? authorId) then (s, false)
      else let (ps, deleted) := JsMap.delete id (posts s) in
           (withPosts s ps, deleted)
  end.

(** [post.tags?.some(tag => tag.toLowerCase().includes(lowerQuery))] *)
Definition someTagIncludes (toLowerCase : string -> string)
    (tags : option (list string)) (lowerQuery : string) : bool :=
  match tags with
  | Some ts =>
      existsb (fun tag => JsString.includes (toLowerCase tag) lowerQuery) ts
  | None => false
  end.

Definition searchMatches (toLowerCase : string -> string)
    (lowerQuery : string) (post : Post) : bool :=
  p_published post &&
  (JsString.includes (toLowerCase (p_title post)) lowerQuery
   || JsString.includes (toLowerCase (p_content post)) lowerQuery
   || someTagIncludes toLowerCase (p_tags post) lowerQuery).

Definition searchPosts (toLowerCase : string -> string) (s : MemStorage)
    (query : string) (userId : option Z) : list PostWithAuthor :=
  let lowerQuery := toLowerCase query in
  let matchingPosts :=
    JsArray.sort (newestFirst p_createdAt)
      (filter (searchMatches toLowerCase lowerQuery) (JsMap.values (posts s))) in
  map (fun post => enrichPostWithAuthor s post userId) matchingPosts.

(** *** Like methods *)

Definition likePost (s : MemStorage) (now : Z) (userId : Z) (postId : JsNumber)
    : MemStorage * Like :=
  match find (fun like => (l_userId like =? userId)
                          && strictEq (l_postId like) postId)
             (JsMap.values (likes s)) with
  | Some existing => (s, existing)
  | None =>
      let id := cur_likes (currentId s) in
      let like := {| l_id := id; l_userId := userId; l_postId := postId;
                     l_createdAt := now |} in
      let c := currentId s in
      ({| users := users s; posts := posts s;
          likes := JsMap.set id like (likes s);
          comments := comments s; bookmarks := bookmarks s;
          follows := follows s; messages := messages s;
          currentId := {| cur_users := cur_users c; cur_posts := cur_posts c;
                          cur_likes := id + 1; cur_comments := cur_comments c;
                          cur_bookmarks := cur_bookmarks c;
                          cur_follows := cur_follows c;
                          cur_messages := cur_messages c |} |},
       like)
  end.

Definition withLikes (s : MemStorage) (ls : JsMap.t Like) : MemStorage :=
  {| users := users s; posts := posts s; likes := ls; comments := comments s;
     bookmarks := bookmarks s; follows := follows s; messages := messages s;
     currentId := currentId s |}.

Definition unlikePost (s : MemStorage) (userId : Z) (postId : JsNumber)
    : MemStorage * bool :=
  match find (fun e => (l_userId (snd e) =? userId)
                       && strictEq (l_postId (snd e)) postId)
             (JsMap.entries (likes s)) with
  | None => (s, false)
  | Some like =>
      let (ls, deleted) := JsMap.delete (fst like) (likes s) in
      (withLikes s ls, deleted)
  end.

(** *** Comment methods *)

Definition createComment (s : MemStorage) (now : Z) (commentData : InsertComment)
    : MemStorage * Comment :=
  let id := cur_comments (currentId s) in
  let comment := {| c_id := id;
                    c_postId := ic_postId commentData;
                    c_userId := ic_userId commentData;
                    c_content := ic_content commentData;
                    c_createdAt := now |} in
  let c := currentId s in
  ({| users := users s; posts := posts s; likes := likes s;
      comments := JsMap.set id comment (comments s);
      bookmarks := bookmarks s; follows := follows s; messages := messages s;
      currentId := {| cur_users := cur_users c; cur_posts := cur_posts c;
                      cur_likes := cur_likes c; cur_comments := id + 1;
                      cur_bookmarks := cur_bookmarks c;
                      cur_follows := cur_follows c;
                      cur_messages := cur_messages c |} |},
   comment).

Definition withComments (s : MemStorage) (cs : JsMap.t Comment) : MemStorage :=
  {| users := users s; posts := posts s; likes := likes s; comments := cs;
     bookmarks := bookmarks s; follows := follows s; messages := messages s;
     currentId := currentId s |}.

Definition deleteComment (s : MemStorage) (id userId : Z) : MemStorage * bool :=
  match JsMap.get id (comments s) with
  | None => (s, false)
  | Some comment =>
      if negb (c_userId comment =? userId) then (s, false)
      else let (cs, deleted) := JsMap.delete id (comments s) in
           (withComments s cs, deleted)
  end.

(** *** Bookmark methods *)

Definition bookmarkPost (s : MemStorage) (now : Z) (userId : Z)
    (postId : JsNumber) : MemStorage * Bookmark :=
  match find (fun bookmark =>
                (b_userId bookmark =? userId)
                && strictEq (b_postId bookmark) postId)
             (JsMap.values (bookmarks s)) with
  | Some existing => (s, existing)
  | None =>
      let id := cur_bookmarks (currentId s) in
      let bookmark := {| b_id := id; b_userId := userId; b_postId := postId;
                         b_createdAt := now |} in
      let c := currentId s in
      ({| users := users s; posts := posts s; likes := likes s;
          comments := comments s;
          bookmarks := JsMap.set id bookmark (bookmarks s);
          follows := follows s; messages := messages s;
          currentId := {| cur_users := cur_users c; cur_posts := cur_posts c;
                          cur_likes := cur_likes c;
                          cur_comments := cur_comments c;
                          cur_bookmarks := id + 1;
                          cur_follows := cur_follows c;
                          cur_messages := cur_messages c |} |},
       bookmark)
  end.

Definition withBookmarks (s : MemStorage) (bs : JsMap.t Bookmark) : MemStorage :=
  {| users := users s; posts := posts s; likes := likes s;
     comments := comments s; bookmarks := bs; follows := follows s;
     messages := messages s; currentId := currentId s |}.

Definition unbookmarkPost (s : MemStorage) (userId : Z) (postId : JsNumber)
    : MemStorage * bool :=
  match find (fun e => (b_userId (snd e) =? userId)
                       && strictEq (b_postId (snd e)) postId)
             (JsMap.entries (bookmarks s)) with
  | None => (s, false)
  | Some bookmark =>
      let (bs, deleted) := JsMap.delete (fst bookmark) (bookmarks s) in
      (withBookmarks s bs, deleted)
  end.

(** *** Follow methods *)

Definition followUser (s : MemStorage) (now : Z) (followerId : Z)
    (followingId : JsNumber) : MemStorage * Outcome Follow :=
  if strictEq (Int followerId) followingId
  then (s, Threw "Cannot follow yourself")
  else
    match find (fun follow => (f_followerId follow =? followerId)
                              && strictEq (f_followingId follow) followingId)
               (JsMap.values (follows s)) with
    | Some existing => (s, Returned existing)
    | None =>
        let id := cur_follows (currentId s) in
        let follow := {| f_id := id; f_followerId := followerId;
                         f_followingId := followingId; f_createdAt := now |} in
        let c := currentId s in
        ({| users := users s; posts := posts s; likes := likes s;
            comments := comments s; bookmarks := bookmarks s;
            follows := JsMap.set id follow (follows s);
            messages := messages s;
            currentId := {| cur_users := cur_users c; cur_posts := cur_posts c;
                            cur_likes := cur_likes c;
                            cur_comments := cur_comments c;
                            cur_bookmarks := cur_bookmarks c;
                            cur_follows := id + 1;
                            cur_messages := cur_messages c |} |},
         Returned follow)
    end.

Definition withFollows (s : MemStorage) (fs : JsMap.t Follow) : MemStorage :=
  {| users := users s; posts := posts s; likes := likes s;
     comments := comments s; bookmarks := bookmarks s; follows := fs;
     messages := messages s; currentId := currentId s |}.

Definition unfollowUser (s : MemStorage) (followerId : Z)
    (followingId : JsNumber) : MemStorage * bool :=
  match find (fun e => (f_followerId (snd e) =? followerId)
                       && strictEq (f_followingId (snd e)) followingId)
             (JsMap.entries (follows s)) with
  | None => (s, false)
  | Some follow =>
      let (fs, deleted) := JsMap.delete (fst follow) (follows s) in
      (withFollows s fs, deleted)
  end.

Definition isUserFollowing (s : MemStorage) (followerId followingId : Z) : bool :=
  existsb (fun follow => (f_followerId follow =? followerId)
                         && strictEq (f_followingId follow) (Int followingId))
          (JsMap.values (follows s)).

(** *** Message methods *)

Definition sendMessage (s : MemStorage) (now : Z) (messageData : InsertMessage)
    : MemStorage * Message :=
  let id := cur_messages (currentId s) in
  let message := {|
    m_id := id;
    m_senderId := im_senderId messageData;
    m_receiverId := im_receiverId messageData;
    m_content := im_content messageData;
    m_isRead := match im_isRead messageData with Some b => b | None => false end;
    m_createdAt := now
  |} in
  let c := currentId s in
  ({| users := users s; posts := posts s; likes := likes s;
      comments := comments s; bookmarks := bookmarks s; follows := follows s;
      messages := JsMap.set id message (messages s);
      currentId := {| cur_users := cur_users c; cur_posts := cur_posts c;
                      cur_likes := cur_likes c; cur_comments := cur_comments c;
                      cur_bookmarks := cur_bookmarks c;
                      cur_follows := cur_follows c;
                      cur_messages := id + 1 |} |},
   message).

Definition involves (userId : Z) (msg : Message) : bool :=
  (m_senderId msg =? userId) || (m_receiverId msg =? userId).

Definition otherParty (userId : Z) (message : Message) : Z :=
  if m_senderId message =? userId then m_receiverId message
  else m_senderId message.

(** An unread message from [otherUserId] to [userId]. *)
Definition unreadFrom (otherUserId userId : Z) (msg : Message) : bool :=
  (m_senderId msg =? otherUserId) && (m_receiverId msg =? userId)
  && negb (m_isRead msg).

(** The body of the loop that fills [conversationMap]. *)
Definition addConversation (s : MemStorage) (userId : Z)
    (conversationMap : JsMap.t (Message * nat)) (message : Message)
    : JsMap.t (Message * nat) :=
  let otherUserId := otherParty userId message in
  if negb (JsMap.has otherUserId conversationMap) then
    let unreadCount :=
      List.length (filter (unreadFrom otherUserId userId)
                          (JsMap.values (messages s))) in
    JsMap.set otherUserId (message, unreadCount) conversationMap
  else conversationMap.

(** The body of the loop that pushes the conversations whose participant
    resolves. *)
Definition pushConversation (s : MemStorage) (conversations : list Conversation)
    (e : Z * (Message * nat)) : list Conversation :=
  let '(otherUserId, (lastMessage, unreadCount)) := e in
  match getUser s otherUserId with
  | Some participant =>
      conversations ++
      [{| cv_participant := summaryOf (Some participant);
          cv_lastMessage := lastMessage;
          cv_unreadCount := unreadCount |}]
  | None => conversations
  end.

Definition getConversations (s : MemStorage) (userId : Z) : list Conversation :=
  let userMessages :=
    JsArray.sort (newestFirst m_createdAt)
      (filter (involves userId) (JsMap.values (messages s))) in
  let conversationMap :=
    fold_left (addConversation s userId) userMessages JsMap.empty in
  let conversations :=
    fold_left (pushConversation s) (JsMap.entries conversationMap) [] in
  JsArray.sort (newestFirst (fun c => m_createdAt (cv_lastMessage c)))
    conversations.

Definition withMessages (s : MemStorage) (ms : JsMap.t Message) : MemStorage :=
  {| users := users s; posts := posts s; likes := likes s;
     comments := comments s; bookmarks := bookmarks s; follows := follows s;
     messages := ms; currentId := currentId s |}.

Definition markRead (msg : Message) : Message :=
  {| m_id := m_id msg; m_senderId := m_senderId msg;
     m_receiverId := m_receiverId msg; m_content := m_content msg;
     m_isRead := true; m_createdAt := m_createdAt msg |}.

Definition markMessagesAsRead (s : MemStorage) (userId otherUserId : Z)
    : MemStorage * bool :=
  let messagesToMark :=
    filter (fun e => unreadFrom otherUserId userId (snd e))
           (JsMap.entries (messages s)) in
  let ms :=
    fold_left (fun acc e => JsMap.set (fst e) (markRead (snd e)) acc)
              messagesToMark (messages s) in
  (withMessages s ms, (0 <? List.length messagesToMark)%nat).

Definition getUnreadMessageCount (s : MemStorage) (userId : Z) : nat :=
  List.length (filter (fun msg => (m_receiverId msg =? userId)
                                  && negb (m_isRead msg))
                      (JsMap.values (messages s))).

(** ** The listing endpoint of server/routes.ts *)

(** The query parameters as the handler reads them: [limit], [offset] and
    [authorId] are what [parseInt] makes of them, [NaN] when they are
    missing or hold no number; a missing [search] or [tag] is
    [undefined]. *)
Record PostsQuery := {
  q_limit : JsNumber;
  q_offset : JsNumber;
  q_tag : option string;
  q_authorId : JsNumber;
  q_search : option string
}.

(** [n || d] on a number: [NaN] and [0] are falsy. *)
Definition orDefault (n : JsNumber) (d : Z) : Z :=
  match n with
  | Int z => if z =? 0 then d else z
  | NaN => d
  end.

Definition truthyString (o : option string) : option string :=
  JsString.orNull o.

(** [GET /api/posts]:
    [if (search) .. else if (tag) .. else if (authorId) .. else ..] *)
Definition listPosts (toLowerCase : string -> string) (s : MemStorage)
    (q : PostsQuery) (sessionUserId : option Z) : list PostWithAuthor :=
  let limit := orDefault (q_limit q) 10 in
  let offset := orDefault (q_offset q) 0 in
  match truthyString (q_search q) with
  | Some search => searchPosts toLowerCase s search sessionUserId
  | None =>
      match truthyString (q_tag q) with
      | Some tag => getPostsByTag s tag sessionUserId
      | None =>
          match q_authorId q with
          | Int authorId =>
              if authorId =? 0
              then getPosts s limit offset sessionUserId
              else getPostsByAuthor s authorId sessionUserId
          | NaN => getPosts s limit offset sessionUserId
          end
      end
  end.

(** ** Histories of the store *)

(** The mutating calls of [IStorage], with the clock reading (and hash)
    each one observes.  The post id of the like and bookmark calls and the
    followed id of the follow calls come from [parseInt(req.params.id)]
    unchecked and are stored, so they can be [NaN].  The ids of
    [deletePost] and [markMessagesAsRead] come from [parseInt] too, but
    are only compared: with [NaN] these calls change nothing, as with an
    integer that no post has as id and no message as sender. *)
Inductive Op :=
| CreateUser (now : Z) (hashedPassword : string) (userData : InsertUser)
| CreatePost (now : Z) (postData : InsertPost)
| UpdatePost (now id : Z) (postData : PartialInsertPost)
| DeletePost (id authorId : Z)
| LikePost (now userId : Z) (postId : JsNumber)
| UnlikePost (userId : Z) (postId : JsNumber)
| CreateComment (now : Z) (commentData : InsertComment)
| DeleteComment (id userId : Z)
| BookmarkPost (now userId : Z) (postId : JsNumber)
| UnbookmarkPost (userId : Z) (postId : JsNumber)
| FollowUser (now followerId : Z) (followingId : JsNumber)
| UnfollowUser (followerId : Z) (followingId : JsNumber)
| SendMessage (now : Z) (messageData : InsertMessage)
| MarkMessagesAsRead (userId otherUserId : Z).

Definition returns {A : Type} (r : MemStorage * A) : MemStorage * Outcome unit :=
  (fst r, Returned tt).

Definition exec (s : MemStorage) (op : Op) : MemStorage * Outcome unit :=
  match op with
  | CreateUser now h d => returns (createUser s now h d)
  | CreatePost now d => returns (createPost s now d)
  | UpdatePost now id d => returns (updatePost s now id d)
  | DeletePost id a => returns (deletePost s id a)
  | LikePost now u p => returns (likePost s now u p)
  | UnlikePost u p => returns (unlikePost s u p)
  | CreateComment now d => returns (createComment s now d)
  | DeleteComment id u => returns (deleteComment s id u)
  | BookmarkPost now u p => returns (bookmarkPost s now u p)
  | UnbookmarkPost u p => returns (unbookmarkPost s u p)
  | FollowUser now a b =>
      match followUser s now a b with
      | (s', Returned _) => (s', Returned tt)
      | (s', Threw message) => (s', Threw message)
      end
  | UnfollowUser a b => returns (unfollowUser s a b)
  | SendMessage now d => returns (sendMessage s now d)
  | MarkMessagesAsRead u o => returns (markMessagesAsRead s u o)
  end.

Definition step (s : MemStorage) (op : Op) : MemStorage := fst (exec s op).

Definition run (s : MemStorage) (ops : list Op) : MemStorage :=
  fold_left step ops s.

(** The states the exported [storage] singleton can be in. *)
Definition reachable (s : MemStorage) : Prop :=
  exists ops, s = run newMemStorage ops.

(** The id of the session a route makes the call for,
    [req.session.userId]: the author of a new post or comment, the sender
    of a message, the second argument of [deletePost] and the first one of
    the other calls.  [createUser] is called before there is a session,
    [updatePost] is not handed the id of the session, and no route calls
    [deleteComment]. *)
Definition actor (op : Op) : option Z :=
  match op with
  | CreateUser _ _ _ => None
  | CreatePost _ d => Some (ip_authorId d)
  | UpdatePost _ _ _ => None
  | DeletePost _ a => Some a
  | LikePost _ u _ => Some u
  | UnlikePost u _ => Some u
  | CreateComment _ d => Some (ic_userId d)
  | DeleteComment _ _ => None
  | BookmarkPost _ u _ => Some u
  | UnbookmarkPost u _ => Some u
  | FollowUser _ a _ => Some a
  | UnfollowUser a _ => Some a
  | SendMessage _ d => Some (im_senderId d)
  | MarkMessagesAsRead u _ => Some u
  end.

(** [requireAuth] of server/routes.ts lets the call through: the id of the
    session is not falsy. *)
Definition authenticated (op : Op) : bool :=
  match actor op with
  | Some userId => negb (userId =? 0)
  | None => true
  end.

(** The states of the store behind the routes, each of which makes its
    call for a session that [requireAuth] has let through. *)
Inductive served : MemStorage -> Prop :=
| served_new : served newMemStorage
| served_step s op :
    served s -> authenticated op = true -> served (step s op).

(** ** Representation invariant *)

Section Tables.
Context {V : Type}.

(** Every record is stored under its own id. *)
Definition keyed (id : V -> Z) (m : JsMap.t V) : Prop :=
  forall k v, In (k, v) m -> id v = k.

(** Every key was handed out by the counter, which starts at 1. *)
Definition below (next : Z) (m : JsMap.t V) : Prop :=
  forall k, In k (JsMap.keys m) -> 1 <= k < next.

Definition table_ok (id : V -> Z) (next : Z) (m : JsMap.t V) : Prop :=
  JsMap.ok m /\ keyed id m /\ below next m /\ 1 <= next.

(** At most one record per pair of referenced ids, as far as the second
    one is an integer: records whose second id is [NaN] are not bound. *)
Definition pairUnique (a : V -> Z) (b : V -> JsNumber) (m : JsMap.t V) : Prop :=
  forall k1 v1 k2 v2 y,
    In (k1, v1) m -> In (k2, v2) m ->
    a v1 = a v2 -> b v1 = Int y -> b v2 = Int y -> k1 = k2.

(** The test of the scans for the record of a pair of ids. *)
Definition hasPair (a : V -> Z) (b : V -> JsNumber) (x : Z) (y : JsNumber)
    (r : V) : bool :=
  (a r =? x) && strictEq (b r) y.

(** The number of records of a table that satisfy [P]. *)
Fixpoint numberOf (P : V -> bool) (m : JsMap.t V) : nat :=
  match m with
  | [] => O
  | (_, v) :: r => if P v then S (numberOf P r) else numberOf P r
  end.

End Tables.

Record store_ok (s : MemStorage) : Prop := {
  ok_users : table_ok u_id (cur_users (currentId s)) (users s);
  ok_posts : table_ok p_id (cur_posts (currentId s)) (posts s);
  ok_likes : table_ok l_id (cur_likes (currentId s)) (likes s);
  ok_comments : table_ok c_id (cur_comments (currentId s)) (comments s);
  ok_bookmarks : table_ok b_id (cur_bookmarks (currentId s)) (bookmarks s);
  ok_follows : table_ok f_id (cur_follows (currentId s)) (follows s);
  ok_messages : table_ok m_id (cur_messages (currentId s)) (messages s);
  ok_like_pairs : pairUnique l_userId l_postId (likes s);
  ok_bookmark_pairs : pairUnique b_userId b_postId (bookmarks s);
  ok_follow_pairs : pairUnique f_followerId f_followingId (follows s)
}.

(** ** Loops over a selection of entries *)

(** [selection.forEach(([id, v]) => map.set(id, f(v)))] *)
Definition setEach {V : Type} (f : V -> V) (selection : list (Z * V))
    (m : JsMap.t V) : JsMap.t V :=
  fold_left (fun acc e => JsMap.set (fst e) (f (snd e)) acc) selection m.

(** What such a loop over the entries selected by [P] does to one entry. *)
Definition rewriteSelected {V : Type} (P : Z * V -> bool) (f : V -> V)
    (e : Z * V) : Z * V :=
  if P e then (fst e, f (snd e)) else e.

(** A list in descending order of [key]. *)
Definition descending {A : Type} (key : A -> Z) (l : list A) : Prop :=
  StronglySorted (fun a b => key b <= key a) l.

(** ** Vocabulary of the properties *)

(** [needle] occurs in [hay]. *)
Definition Substring (needle hay : string) : Prop :=
  exists pre suf, hay = (pre ++ needle ++ suf)%string.

(** The query matches [text] somewhere, letter case aside: in lower case,
    as the builtin [toLowerCase] gives it, the query occurs in the text. *)
Definition ciSubstring (toLowerCase : string -> string) (query text : string)
    : Prop :=
  Substring (toLowerCase query) (toLowerCase text).

(** The post is stored and published. *)
Definition listed (s : MemStorage) (post : Post) : Prop :=
  In post (JsMap.values (posts s)) /\ p_published post = true.

(** The query occurs, letter case aside, in the title, the content or a
    tag of the post. *)
Definition searchSelects (toLowerCase : string -> string) (query : string)
    (post : Post) : Prop :=
  ciSubstring toLowerCase query (p_title post)
  \/ ciSubstring toLowerCase query (p_content post)
  \/ exists tags tag,
       p_tags post = Some tags /\ In tag tags
       /\ ciSubstring toLowerCase query tag.

(** The tag is one of the tags of the post, letter for letter. *)
Definition tagSelects (tag : string) (post : Post) : Prop :=
  exists tags, p_tags post = Some tags /\ In tag tags.

(** A query parameter that selects nothing: it is missing or empty. *)
Definition notGiven (o : option string) : Prop :=
  o = None \/ o = Some EmptyString.

(** The number the handler takes for a query parameter: the parameter
    itself when it holds a number other than 0, and else the default. *)
Definition takenFor (parameter : JsNumber) (default taken : Z) : Prop :=
  (parameter = Int taken /\ taken <> 0)
  \/ ((parameter = NaN \/ parameter = Int 0) /\ taken = default).

(** The same query with another [limit] and [offset]. *)
Definition withWindow (q : PostsQuery) (limit offset : JsNumber) : PostsQuery :=
  {| q_limit := limit; q_offset := offset; q_tag := q_tag q;
     q_authorId := q_authorId q; q_search := q_search q |}.

(** The unread messages addressed to [u] that [o] did not send. *)
Definition unreadNotFrom (o u : Z) (msg : Message) : bool :=
  (m_receiverId msg =? u) && negb (m_isRead msg) && negb (m_senderId msg =? o).

(** An id that was handed out and is no longer a key. *)
Definition retired (id : Z) (s : MemStorage) : Prop :=
  ~ In id (JsMap.keys (posts s)) /\ id < cur_posts (currentId s).

(** The correspondent a conversation is with. *)
Definition party (c : Conversation) : Z := a_id (cv_participant c).

(** [msg] was exchanged between [u] and [o], in either direction. *)
Definition between (u o : Z) (msg : Message) : Prop :=
  (m_senderId msg = u /\ m_receiverId msg = o)
  \/ (m_senderId msg = o /\ m_receiverId msg = u).

(** What the second loop of [getConversations] pushes for one entry. *)
Definition conversationOf (s : MemStorage) (e : Z * (Message * nat))
    : list Conversation :=
  match getUser s (fst e) with
  | Some participant =>
      [{| cv_participant := summaryOf (Some participant);
          cv_lastMessage := fst (snd e);
          cv_unreadCount := snd (snd e) |}]
  | None => []
  end.

(** The messages of [u], newest first, as [getConversations] scans them. *)
Definition userMessages (s : MemStorage) (u : Z) : list Message :=
  JsArray.sort (newestFirst m_createdAt)
    (filter (involves u) (JsMap.values (messages s))).

Definition conversationMap (s : MemStorage) (u : Z) : JsMap.t (Message * nat) :=
  fold_left (addConversation s u) (userMessages s u) JsMap.empty.

(** ** Example histories *)

Definition demoPost : InsertPost :=
  {| ip_title := "Hello"; ip_content := "World"; ip_excerpt := "World";
     ip_authorId := 1; ip_image := None; ip_tags := Some ["intro"%string];
     ip_published := None |}.

Definition alice : InsertUser :=
  {| iu_email := "alice@example.com"; iu_username := "alice";
     iu_password := "secret"; iu_displayName := "Alice";
     iu_bio := None; iu_avatar := None |}.

Definition bob : InsertUser :=
  {| iu_email := "bob@example.com"; iu_username := "bob";
     iu_password := "hunter2"; iu_displayName := "Bob";
     iu_bio := None; iu_avatar := None |}.

Definition note (sender receiver : Z) (text : string) : InsertMessage :=
  {| im_senderId := sender; im_receiverId := receiver; im_content := text;
     im_isRead := None |}.

(** What the builtin [toLowerCase] gives on text of the ASCII range, which
    is all that the examples hold. *)
Definition lowerAscii (c : ascii) : ascii :=
  let n := nat_of_ascii c in
  if ((65 <=? n) && (n <=? 90))%nat then ascii_of_nat (n + 32) else c.

Fixpoint toLowerCaseAscii (text : string) : string :=
  match text with
  | EmptyString => EmptyString
  | String c rest => String (lowerAscii c) (toLowerCaseAscii rest)
  end.

(** Alice and Bob register, Alice posts, Bob likes the post. *)
Definition demoStore : MemStorage :=
  run newMemStorage
    [CreateUser 1000 "h1" alice; CreateUser 1001 "h2" bob;
     CreatePost 1002 demoPost; LikePost 1003 2 (Int 1)].

(** Alice follows Bob, twice. *)
Definition followStore : MemStorage :=
  run newMemStorage
    [CreateUser 1000 "h1" alice; CreateUser 1001 "h2" bob;
     FollowUser 1002 1 (Int 2); FollowUser 1003 1 (Int 2)].

(** Alice sends Bob three messages. *)
Definition mailStore : MemStorage :=
  run newMemStorage
    [CreateUser 1000 "h1" alice; CreateUser 1001 "h2" bob;
     SendMessage 1002 (note 1 2 "one"); SendMessage 1003 (note 1 2 "two");
     SendMessage 1004 (note 1 2 "three")].

(** Alice registers and asks twice to like the post of the address
    [/api/posts/abc/like]: [parseInt] makes [NaN] of [abc]. *)
Definition nanLikeStore : MemStorage :=
  run newMemStorage
    [CreateUser 1000 "h1" alice; LikePost 1001 1 NaN; LikePost 1002 1 NaN].

(** Alice registers and asks twice to follow the user of the address
    [/api/users/abc/follow]. *)
Definition nanFollowStore : MemStorage :=
  run newMemStorage
    [CreateUser 1000 "h1" alice; FollowUser 1001 1 NaN; FollowUser 1002 1 NaN].

(** Alice writes to a user id that no user has. *)
Definition ghostStore : MemStorage :=
  run newMemStorage
    [CreateUser 1000 "h1" alice; SendMessage 1001 (note 1 99 "anyone?")].

(** ** The remaining methods of the store *)

(** JavaScript [Map<string, V>], in insertion order. *)
Module JsStringMap.
Section WithValue.
Context {V : Type}.

Definition t := list (string * V).

Definition empty : t := [].

Fixpoint get (k : string) (m : t) : option V :=
  match m with
  | [] => None
  | (k', v) :: r => if String.eqb k k' then Some v else get k r
  end.

Fixpoint set (k : string) (v : V) (m : t) : t :=
  match m with
  | [] => [(k, v)]
  | (k', v') :: r =>
      if String.eqb k k' then (k, v) :: r else (k', v') :: set k v r
  end.

Definition entries (m : t) : list (string * V) := m.
Definition keys (m : t) : list string := map fst m.

End WithValue.
Arguments t : clear implicits.
End JsStringMap.

Module JsArrayMore.
Section WithElement.
Context {A : Type}.

(** [array.slice(start)]: up to the end of the array. *)
Definition sliceFrom (start : Z) (l : list A) : list A :=
  let len := Z.of_nat (List.length l) in
  let k := JsArray.relIndex len start in
  firstn (Z.to_nat (len - k)) (skipn (Z.to_nat k) l).

(** [array.filter(Boolean)] on an array of objects and [undefined]. *)
Fixpoint compact (l : list (option A)) : list A :=
  match l with
  | [] => []
  | Some x :: r => x :: compact r
  | None :: r => compact r
  end.

End WithElement.
End JsArrayMore.

(** The comparator of the sorts that put the oldest first. *)
Definition oldestFirst {A : Type} (createdAt : A -> Z) (a b : A) : Z :=
  createdAt a - createdAt b.

(** Modelled from the spec: [UserProfile] of shared/schema.ts (not among
    the sources): the user, with what [getUserProfile] adds to it. *)
Record UserProfile := {
  up_user : User;
  up_postCount : nat;
  up_followerCount : nat;
  up_followingCount : nat;
  up_isFollowing : bool
}.

(** Modelled from the spec: [CommentWithAuthor] of shared/schema.ts (not
    among the sources): the comment, with the author [getComments] adds. *)
Record CommentWithAuthor := {
  cw_comment : Comment;
  cw_author : Summary
}.

(** Modelled from the spec: [MessageWithSender] of shared/schema.ts (not
    among the sources): the message, with the sender [getMessages] adds. *)
Record MessageWithSender := {
  mw_message : Message;
  mw_sender : Summary
}.

Definition getFollowerCount (s : MemStorage) (userId : Z) : nat :=
  List.length (filter (fun follow => strictEq (f_followingId follow) (Int userId))
                      (JsMap.values (follows s))).

Definition getFollowingCount (s : MemStorage) (userId : Z) : nat :=
  List.length (filter (fun follow => f_followerId follow =? userId)
                      (JsMap.values (follows s))).

Definition getUserProfile (s : MemStorage) (userId : Z)
    (currentUserId : option Z) : option UserProfile :=
  match JsMap.get userId (users s) with
  | None => None
  | Some user =>
      let postCount :=
        List.length (filter (fun post => p_authorId post =? userId)
                            (JsMap.values (posts s))) in
      let followerCount := getFollowerCount s userId in
      let followingCount := getFollowingCount s userId in
      let isFollowing :=
        whenTruthy currentUserId (fun c => isUserFollowing s c userId) in
      Some {| up_user := user;
              up_postCount := postCount;
              up_followerCount := followerCount;
              up_followingCount := followingCount;
              up_isFollowing := isFollowing |}
  end.

Definition getComments (s : MemStorage) (postId : Z) : list CommentWithAuthor :=
  let postComments :=
    JsArray.sort (oldestFirst c_createdAt)
      (filter (fun comment => c_postId comment =? postId)
              (JsMap.values (comments s))) in
  map (fun comment =>
         {| cw_comment := comment;
            cw_author := summaryOf (getUser s (c_userId comment)) |})
      postComments.

Definition getUserBookmarks (s : MemStorage) (userId : Z)
    : list PostWithAuthor :=
  let userBookmarks :=
    JsArray.sort (newestFirst b_createdAt)
      (filter (fun bookmark => b_userId bookmark =? userId)
              (JsMap.values (bookmarks s))) in
  let bookmarkedPosts :=
    JsArrayMore.compact
      (map (fun bookmark => lookup (b_postId bookmark) (posts s))
           userBookmarks) in
  map (fun post => enrichPostWithAuthor s post (Some userId)) bookmarkedPosts.

Definition getFollowers (s : MemStorage) (userId : Z) : list User :=
  let followerIds :=
    map f_followerId
        (filter (fun follow => strictEq (f_followingId follow) (Int userId))
                (JsMap.values (follows s))) in
  JsArrayMore.compact (map (fun id => JsMap.get id (users s)) followerIds).

Definition getFollowing (s : MemStorage) (userId : Z) : list User :=
  let followingIds :=
    map f_followingId
        (filter (fun follow => f_followerId follow =? userId)
                (JsMap.values (follows s))) in
  JsArrayMore.compact (map (fun id => lookup id (users s)) followingIds).

(** [tagCounts.set(tag, (tagCounts.get(tag) || 0) + 1)] *)
Definition countTag (tagCounts : JsStringMap.t Z) (tag : string)
    : JsStringMap.t Z :=
  let seen := match JsStringMap.get tag tagCounts with
              | Some n => n
              | None => 0
              end in
  JsStringMap.set tag (seen + 1) tagCounts.

(** The body of the loop over the posts. *)
Definition countTagsOf (tagCounts : JsStringMap.t Z) (post : Post)
    : JsStringMap.t Z :=
  if p_published post then
    match p_tags post with
    | Some tags => fold_left countTag tags tagCounts
    | None => tagCounts
    end
  else tagCounts.

Definition getTrendingTags (s : MemStorage) : list (string * Z) :=
  let tagCounts :=
    fold_left countTagsOf (JsMap.values (posts s)) JsStringMap.empty in
  JsArray.slice 0 10
    (JsArray.sort (newestFirst snd) (JsStringMap.entries tagCounts)).

(** The profile of a user that does not resolve is [undefined]; the
    non-null assertion [profile!] does not check it. *)
Definition getSuggestedAuthors (s : MemStorage) (userId : Z) (limit : Z)
    : list (option UserProfile) :=
  let allUsers :=
    JsArray.slice 0 limit
      (filter (fun user => negb (u_id user =? userId))
              (JsMap.values (users s))) in
  map (fun user => getUserProfile s (u_id user) (Some userId)) allUsers.

Definition exchanged (userId otherUserId : Z) (msg : Message) : bool :=
  ((m_senderId msg =? userId) && (m_receiverId msg =? otherUserId))
  || ((m_senderId msg =? otherUserId) && (m_receiverId msg =? userId)).

Definition getMessages (s : MemStorage) (userId otherUserId : Z) (limit : Z)
    : list MessageWithSender :=
  let conversationMessages :=
    JsArrayMore.sliceFrom (- limit)
      (JsArray.sort (oldestFirst m_createdAt)
         (filter (exchanged userId otherUserId)
                 (JsMap.values (messages s)))) in
  map (fun message =>
         {| mw_message := message;
            mw_sender := summaryOf (getUser s (m_senderId message)) |})
      conversationMessages.

(** ** More handlers of server/routes.ts *)

(** What a handler answers: the status and the JSON body, or the status
    and the message of a refusal. *)
Inductive Reply (A : Type) : Type :=
| Body (status : Z) (body : A)
| Refusal (status : Z) (message : string).
Arguments Body {A} status body.
Arguments Refusal {A} status message.

(** [requireAuth]: a session without a truthy [userId] is refused. *)
Definition requireAuth {A : Type} (sessionUserId : option Z)
    (next : Z -> MemStorage * Reply A) (s : MemStorage) : MemStorage * Reply A :=
  match sessionUserId with
  | Some u => if u =? 0 then (s, Refusal 401 "Authentication required")
              else next u
  | None => (s, Refusal 401 "Authentication required")
  end.

(** [PUT /api/posts/:id].  [body] is what
    [insertPostSchema.partial().parse(req.body)] returns, [None] when it
    throws a [ZodError] (the schema is in shared/schema.ts, which is not
    among the sources).  Nothing else in the handler throws, so the answer
    500 of its [catch] is never given.  An [id] that [parseInt] could not
    read resolves to no post, like any id that is not stored. *)
Definition putPost (s : MemStorage) (now : Z) (sessionUserId : option Z)
    (id : Z) (body : option PartialInsertPost)
    : MemStorage * Reply (option Post) :=
  requireAuth sessionUserId
    (fun userId =>
       match body with
       | None => (s, Refusal 400 "Invalid input")
       | Some data =>
           match getPost s id None with
           | None => (s, Refusal 404 "Post not found or not authorized")
           | Some existingPost =>
               if negb (a_id (pw_author existingPost) =? userId)
               then (s, Refusal 404 "Post not found or not authorized")
               else let (s', updatedPost) := updatePost s now id data in
                    (s', Body 200 updatedPost)
           end
       end) s.

(** [DELETE /api/posts/:id] *)
Definition deletePostRoute (s : MemStorage) (sessionUserId : option Z) (id : Z)
    : MemStorage * Reply string :=
  requireAuth sessionUserId
    (fun userId =>
       let (s', deleted) := deletePost s id userId in
       if negb deleted
       then (s', Refusal 404 "Post not found or not authorized")
       else (s', Body 200 "Post deleted successfully"%string)) s.

(** [const { password, ...userWithoutPassword } = user] *)
Record UserWithoutPassword := {
  wp_id : Z;
  wp_email : string;
  wp_username : string;
  wp_displayName : string;
  wp_bio : option string;
  wp_avatar : option string;
  wp_createdAt : Z
}.

Definition withoutPassword (user : User) : UserWithoutPassword :=
  {| wp_id := u_id user;
     wp_email := u_email user;
     wp_username := u_username user;
     wp_displayName := u_displayName user;
     wp_bio := u_bio user;
     wp_avatar := u_avatar user;
     wp_createdAt := u_createdAt user |}.

(** How far [POST /api/auth/register] gets before [createUser] awaits the
    hash. *)
Inductive Registration :=
| Answered (reply : Reply UserWithoutPassword)
| Hashing (data : InsertUser).

(** [POST /api/auth/register] up to the [await bcrypt.hash(..)] that
    [createUser] begins with; the store is only read.  [body] is what
    [registerSchema.parse(req.body)] returns, [None] when it throws a
    [ZodError]. *)
Definition registerBegin (s : MemStorage) (body : option InsertUser)
    : Registration :=
  match body with
  | None => Answered (Refusal 400 "Invalid input")
  | Some data =>
      match getUserByEmail s (iu_email data) with
      | Some _ => Answered (Refusal 400 "User already exists with this email")
      | None =>
          match getUserByUsername s (iu_username data) with
          | Some _ => Answered (Refusal 400 "Username already taken")
          | None => Hashing data
          end
      end
  end.

(** The rest of the handler, run on the store as it is when
    [bcrypt.hash] settles; [hashed] is the hash, or what it threw, and
    [now] the clock by then.  On success the session takes the id of the
    new user. *)
Definition registerEnd (s : MemStorage) (now : Z) (hashed : Outcome string)
    (data : InsertUser) : MemStorage * Reply UserWithoutPassword :=
  match hashed with
  | Threw _ => (s, Refusal 500 "Internal server error")
  | Returned hashedPassword =>
      let (s', user) := createUser s now hashedPassword data in
      (s', Body 201 (withoutPassword user))
  end.

(** The whole handler; [meanwhile] is what the handlers of other requests
    do to the store while the hash is computed. *)
Definition registerRoute (s : MemStorage) (now : Z) (body : option InsertUser)
    (hashed : Outcome string) (meanwhile : MemStorage -> MemStorage)
    : MemStorage * Reply UserWithoutPassword :=
  match registerBegin s body with
  | Answered reply => (s, reply)
  | Hashing data => registerEnd (meanwhile s) now hashed data
  end.

(** ** Vocabulary of the further properties *)

(** The tags of the published posts, in the order the loops visit them. *)
Definition publishedTags (s : MemStorage) : list string :=
  flat_map (fun post =>
              if p_published post then
                match p_tags post with Some tags => tags | None => [] end
              else [])
           (JsMap.values (posts s)).

(** How often [tag] occurs in [tags]. *)
Fixpoint occurrences (tag : string) (tags : list string) : Z :=
  match tags with
  | [] => 0
  | t :: r => (if String.eqb tag t then 1 else 0) + occurrences tag r
  end.

(** A list in ascending order of [key]. *)
Definition ascending {A : Type} (key : A -> Z) (l : list A) : Prop :=
  StronglySorted (fun a b => key a <= key b) l.

(** No two users share an email or a username. *)
Definition distinctCredentials (s : MemStorage) : Prop :=
  forall k1 u1 k2 u2,
    In (k1, u1) (users s) -> In (k2, u2) (users s) ->
    u_email u1 = u_email u2 \/ u_username u1 = u_username u2 -> k1 = k2.

(** No stored Follow is of a user by that same user. *)
Definition noSelfFollow (s : MemStorage) : Prop :=
  forall k f, In (k, f) (follows s) -> Int (f_followerId f) <> f_followingId f.

(** The count a tag has in [tagCounts], 0 when it has none. *)
Definition seen (tagCounts : JsStringMap.t Z) (tag : string) : Z :=
  match JsStringMap.get tag tagCounts with
  | Some n => n
  | None => 0
  end.

(** [later] is [earlier] but for the read flag, which is not taken back. *)
Definition readLater (earlier later : Message) : Prop :=
  m_id later = m_id earlier
  /\ m_senderId later = m_senderId earlier
  /\ m_receiverId later = m_receiverId earlier
  /\ m_content later = m_content earlier
  /\ m_createdAt later = m_createdAt earlier
  /\ (m_isRead earlier = true -> m_isRead later = true).

(** [summary] is what a read model shows of the user with the id [id]:
    the id, display name, username and avatar of the stored user, or the
    placeholder of an unknown user when the id does not resolve. *)
Definition summarises (s : MemStorage) (summary : Summary) (id : Z) : Prop :=
  match getUser s id with
  | Some user =>
      a_id summary = id
      /\ a_displayName summary = u_displayName user
      /\ a_username summary = u_username user
      /\ a_avatar summary = u_avatar user
  | None =>
      a_id summary = 0
      /\ a_displayName summary = "Unknown User"%string
      /\ a_username summary = "unknown"%string
      /\ a_avatar summary = None
  end.

(** ** Further example data *)

Definition demoComment : InsertComment :=
  {| ic_postId := 1; ic_userId := 2; ic_content := "Nice" |}.

Definition retitle : PartialInsertPost :=
  {| pp_title := Some "Hello again"%string; pp_content := None;
     pp_excerpt := None; pp_authorId := None; pp_image := None;
     pp_tags := None; pp_published := None |}.

(** Bob comments on Alice's post. *)
Definition commentStore : MemStorage :=
  run newMemStorage
    [CreateUser 1000 "h1" alice; CreateUser 1001 "h2" bob;
     CreatePost 1002 demoPost; CreateComment 1003 demoComment].

(** Bob likes Alice's post, comments on it and bookmarks it. *)
Definition shelfStore : MemStorage :=
  run demoStore [CreateComment 1004 demoComment; BookmarkPost 1005 2 (Int 1)].

(** * Properties *)

(** ** Facts about [JsMap] *)

Module JsMapFacts.
Import JsMap.
Section WithValue.
Context {V : Type}.
Implicit Type m : JsMap.t V.

Lemma ok_empty : ok (@empty V).
Proof. constructor. Qed.

Lemma get_In k v m : get k m = Some v -> In (k, v) m.
Proof.
  induction m as [|[k' v'] r IH]; simpl; [discriminate|].
  destruct (Z.eqb_spec k k') as [->|Hne]; intros H.
  - left. congruence.
  - right. auto.
Qed.

Lemma get_None k m : get k m = None <-> ~ In k (keys m).
Proof.
  induction m as [|[k' v'] r IH]; simpl.
  - tauto.
  - destruct (Z.eqb_spec k k') as [->|Hne].
    + split; [discriminate | tauto].
    + rewrite IH. split; intros H; [intros [E|E]; congruence | tauto].
Qed.

Lemma In_keys k v m : In (k, v) m -> In k (keys m).
Proof. intros H. apply (in_map fst) in H. exact H. Qed.

Lemma In_get k v m : ok m -> In (k, v) m -> get k m = Some v.
Proof.
  unfold ok. induction m as [|[k' v'] r IH]; simpl; [tauto|].
  intros Hnd [E|Hin].
  - inversion E; subst. now rewrite Z.eqb_refl.
  - inversion Hnd as [|? ? Hni Hnd']; subst.
    destruct (Z.eqb_spec k k') as [->|Hne].
    + exfalso. apply Hni. eapply In_keys; eauto.
    + auto.
Qed.

Lemma In_values v m : In v (values m) <-> exists k, In (k, v) m.
Proof.
  unfold values. rewrite in_map_iff. split.
  - intros [[k v'] [E H]]. simpl in E. subst. eauto.
  - intros [k H]. exists (k, v). auto.
Qed.

Lemma has_true k m : has k m = true <-> In k (keys m).
Proof.
  unfold has. destruct (get k m) eqn:E.
  - split; [intros _ | reflexivity].
    apply get_In in E. eapply In_keys; eauto.
  - apply get_None in E. split; [discriminate | tauto].
Qed.

(** *** [set] *)

Lemma get_set_eq k v m : get k (set k v m) = Some v.
Proof.
  induction m as [|[k' v'] r IH]; simpl.
  - now rewrite Z.eqb_refl.
  - destruct (Z.eqb_spec k k') as [->|Hne]; simpl.
    + now rewrite Z.eqb_refl.
    + destruct (Z.eqb_spec k k'); [contradiction | exact IH].
Qed.

Lemma get_set_ne k k' v m : k' <> k -> get k' (set k v m) = get k' m.
Proof.
  intros Hne. induction m as [|[k0 v0] r IH]; simpl.
  - destruct (Z.eqb_spec k' k); [contradiction | reflexivity].
  - destruct (Z.eqb_spec k k0) as [->|Hk]; simpl.
    + destruct (Z.eqb_spec k' k0); [contradiction | reflexivity].
    + destruct (Z.eqb_spec k' k0); [reflexivity | exact IH].
Qed.

Lemma set_fresh k v m : ~ In k (keys m) -> set k v m = m ++ [(k, v)].
Proof.
  induction m as [|[k' v'] r IH]; simpl; intros Hni; [reflexivity|].
  destruct (Z.eqb_spec k k') as [->|Hne]; [tauto|].
  f_equal. apply IH. tauto.
Qed.

Lemma In_set e k v m : In e (set k v m) -> e = (k, v) \/ In e m.
Proof.
  induction m as [|[k0 v0] r IH]; simpl.
  - intros [E|[]]. now left.
  - destruct (k =? k0); simpl.
    + intros [E|Hin]; [now left | right; now right].
    + intros [E|Hin]; [right; now left|].
      destruct (IH Hin) as [E|H]; [now left | right; now right].
Qed.

Lemma keys_set_present k v m : In k (keys m) -> keys (set k v m) = keys m.
Proof.
  induction m as [|[k' v'] r IH]; simpl; [tauto|].
  destruct (Z.eqb_spec k k') as [->|Hne]; simpl; [reflexivity|].
  intros [E|Hin]; [congruence|]. f_equal. auto.
Qed.

Lemma keys_set_fresh k v m : ~ In k (keys m) -> keys (set k v m) = keys m ++ [k].
Proof.
  intros H. rewrite (set_fresh _ _ _ H). unfold keys. now rewrite map_app.
Qed.

Lemma In_keys_set k k' v m : In k' (keys (set k v m)) <-> k' = k \/ In k' (keys m).
Proof.
  destruct (in_dec Z.eq_dec k (keys m)) as [Hin|Hni].
  - rewrite keys_set_present by assumption.
    split; [tauto | intros [->|H]; assumption].
  - rewrite keys_set_fresh by assumption. rewrite in_app_iff. simpl.
    split; [intros [H|[H|[]]]; auto | intros [->|H]; auto].
Qed.

Lemma ok_set k v m : ok m -> ok (set k v m).
Proof.
  unfold ok. intros Hnd.
  destruct (in_dec Z.eq_dec k (keys m)) as [Hin|Hni].
  - now rewrite keys_set_present.
  - rewrite keys_set_fresh by assumption.
    apply NoDup_app; [assumption | repeat constructor; simpl; tauto |].
    intros x Hx [E|[]]. subst. contradiction.
Qed.

(** *** [remove] *)

Lemma remove_absent k m : ~ In k (keys m) -> remove k m = m.
Proof.
  induction m as [|[k' v'] r IH]; simpl; intros Hni; [reflexivity|].
  destruct (Z.eqb_spec k k') as [->|Hne]; [tauto|].
  f_equal. apply IH. tauto.
Qed.

Lemma In_remove e k m : In e (remove k m) -> In e m.
Proof.
  induction m as [|[k' v'] r IH]; simpl; [tauto|].
  destruct (Z.eqb_spec k k'); simpl; [tauto|].
  intros [E|H]; auto.
Qed.

Lemma In_remove_ne k' v k m : k' <> k -> In (k', v) m -> In (k', v) (remove k m).
Proof.
  intros Hne. induction m as [|[k0 v0] r IH]; simpl; [tauto|].
  intros [E|H].
  - inversion E; subst. destruct (Z.eqb_spec k k'); [congruence | now left].
  - destruct (Z.eqb_spec k k0); [assumption | right; auto].
Qed.

Lemma In_keys_remove k' k m : In k' (keys (remove k m)) -> In k' (keys m).
Proof.
  unfold keys. rewrite !in_map_iff. intros [e [E H]].
  exists e. split; [assumption | eapply In_remove; eauto].
Qed.

Lemma ok_remove k m : ok m -> ok (remove k m).
Proof.
  unfold ok. induction m as [|[k' v'] r IH]; simpl; [auto|].
  intros Hnd. inversion Hnd as [|? ? Hni Hnd']; subst.
  destruct (Z.eqb_spec k k'); [assumption|].
  simpl. constructor; [|auto].
  intros H. apply Hni. eapply In_keys_remove; eauto.
Qed.

Lemma not_In_keys_remove k m : ok m -> ~ In k (keys (remove k m)).
Proof.
  unfold ok. induction m as [|[k' v'] r IH]; simpl; [tauto|].
  intros Hnd. inversion Hnd as [|? ? Hni Hnd']; subst.
  destruct (Z.eqb_spec k k') as [->|Hne]; [assumption|].
  simpl. intros [E|H]; [congruence | now apply IH].
Qed.

Lemma get_remove_eq k m : ok m -> get k (remove k m) = None.
Proof. intros H. apply get_None. now apply not_In_keys_remove. Qed.

Lemma get_remove_ne k k' m : k' <> k -> get k' (remove k m) = get k' m.
Proof.
  intros Hne. induction m as [|[k0 v0] r IH]; simpl; [reflexivity|].
  destruct (Z.eqb_spec k k0) as [->|Hk]; simpl.
  - destruct (Z.eqb_spec k' k0); [contradiction | reflexivity].
  - destruct (Z.eqb_spec k' k0); [reflexivity | exact IH].
Qed.

(** Two maps with the same iteration order of keys and the same
    lookups are the same map. *)
Lemma ext (a b : JsMap.t V) :
  ok a -> keys a = keys b -> (forall k, get k a = get k b) -> a = b.
Proof.
  unfold ok. revert b.
  induction a as [|[k v] a IH]; intros [|[k' v'] b]; simpl;
    try discriminate; [reflexivity|].
  intros Hnd Hk Hg. injection Hk as -> Hk.
  inversion Hnd as [|? ? Hni Hnd']; subst.
  pose proof (Hg k') as H0. rewrite Z.eqb_refl in H0. injection H0 as ->.
  f_equal. apply IH; [assumption | assumption |].
  intros j. specialize (Hg j).
  destruct (Z.eqb_spec j k') as [E|Hne]; [subst j|assumption].
  transitivity (@None V); [|symmetry].
  - now apply get_None.
  - apply get_None. now rewrite <- Hk.
Qed.

End WithValue.
End JsMapFacts.
Import JsMapFacts.

(** ** Facts about [JsArray] *)

Module JsArrayFacts.
Import JsArray.
Section WithElement.
Context {A : Type}.
Implicit Type l : list A.

Lemma insertSorted_perm cmp x l : Permutation (insertSorted cmp x l) (x :: l).
Proof.
  induction l as [|y r IH]; simpl; [reflexivity|].
  destruct (cmp x y <=? 0); [reflexivity|].
  rewrite IH. apply perm_swap.
Qed.

Lemma sort_perm cmp l : Permutation (sort cmp l) l.
Proof.
  induction l as [|x r IH]; simpl; [reflexivity|].
  rewrite insertSorted_perm. now constructor.
Qed.

Lemma In_sort cmp x l : In x (sort cmp l) <-> In x l.
Proof.
  split; apply Permutation_in; [|symmetry]; apply sort_perm.
Qed.

Lemma length_sort cmp l : List.length (sort cmp l) = List.length l.
Proof. apply Permutation_length, sort_perm. Qed.

Lemma insertSorted_descending key x l :
  descending key l -> descending key (insertSorted (newestFirst key) x l).
Proof.
  unfold descending, newestFirst.
  induction l as [|y r IH]; simpl; intros Hs.
  - repeat constructor.
  - inversion Hs as [|? ? Hr Hy]; subst.
    destruct (Z.leb_spec (key y - key x) 0) as [Hle|Hgt].
    + constructor; [assumption|].
      constructor; [lia|].
      rewrite Forall_forall in *. intros z Hz. specialize (Hy z Hz). lia.
    + constructor; [auto|].
      rewrite Forall_forall in *. intros z Hz.
      apply (Permutation_in _ (insertSorted_perm _ x r)) in Hz.
      destruct Hz as [<-|Hz]; [lia | auto].
Qed.

Lemma sort_descending key l : descending key (sort (newestFirst key) l).
Proof.
  induction l as [|x r IH]; simpl.
  - constructor.
  - now apply insertSorted_descending.
Qed.

(** Sorting a list that is already in order changes nothing. *)
Lemma sort_sorted key l :
  descending key l -> sort (newestFirst key) l = l.
Proof.
  unfold descending.
  induction l as [|x r IH]; simpl; intros Hs; [reflexivity|].
  inversion Hs as [|? ? Hr Hx]; subst.
  rewrite IH by assumption.
  destruct r as [|y r']; simpl; [reflexivity|].
  inversion Hx; subst. unfold newestFirst.
  destruct (Z.leb_spec (key y - key x) 0); [reflexivity | lia].
Qed.

Lemma descending_skipn key n l : descending key l -> descending key (skipn n l).
Proof.
  unfold descending. revert l.
  induction n as [|n IH]; intros [|x r] Hs; simpl; try assumption.
  inversion Hs; subst. auto.
Qed.

Lemma descending_firstn key n l : descending key l -> descending key (firstn n l).
Proof.
  unfold descending. revert l.
  induction n as [|n IH]; intros [|x r] Hs; simpl; try constructor.
  - inversion Hs; subst. auto.
  - inversion Hs as [|? ? _ Hx]; subst.
    rewrite Forall_forall in *. intros z Hz. apply Hx.
    eapply (In_nth_error _ _) in Hz. destruct Hz as [i Hi].
    eapply nth_error_In. rewrite nth_error_firstn in Hi.
    destruct (Nat.ltb i n); [eassumption | discriminate].
Qed.

Lemma descending_slice key a b l :
  descending key l -> descending key (slice a b l).
Proof.
  intros H. unfold slice. now apply descending_firstn, descending_skipn.
Qed.

Lemma In_firstn_skipn n k x l : In x (firstn n (skipn k l)) -> In x l.
Proof.
  intros H. rewrite <- (firstn_skipn k l). apply in_or_app. right.
  rewrite <- (firstn_skipn n (skipn k l)). apply in_or_app. now left.
Qed.

Lemma In_slice a b x l : In x (slice a b l) -> In x l.
Proof. unfold slice. apply In_firstn_skipn. Qed.

(** With both bounds inside the array, [slice] keeps the elements at the
    positions [a], ..., [b - 1]. *)
Lemma nth_error_slice a b l i :
  0 <= a -> a <= b ->
  nth_error (slice a b l) i =
  if (Z.of_nat i <? Z.min b (Z.of_nat (List.length l)) - Z.min a (Z.of_nat (List.length l)))
  then nth_error l (Z.to_nat a + i) else None.
Proof.
  intros Ha Hab. unfold slice, relIndex.
  destruct (Z.ltb_spec a 0); [lia|].
  destruct (Z.ltb_spec b 0); [lia|].
  rewrite nth_error_firstn.
  set (len := Z.of_nat (List.length l)).
  destruct (Z.ltb_spec (Z.of_nat i) (Z.min b len - Z.min a len)) as [Hlt|Hge].
  - destruct (Nat.ltb_spec i (Z.to_nat (Z.min b len - Z.min a len))); [|lia].
    rewrite nth_error_skipn. f_equal. lia.
  - destruct (Nat.ltb_spec i (Z.to_nat (Z.min b len - Z.min a len))); [lia|].
    reflexivity.
Qed.

End WithElement.
End JsArrayFacts.
Import JsArrayFacts.

(** ** Facts about [===] on ids *)

Lemma strictEq_Int a z : strictEq a (Int z) = true <-> a = Int z.
Proof.
  destruct a as [x|]; simpl.
  - rewrite Z.eqb_eq. split; congruence.
  - split; discriminate.
Qed.

Lemma strictEq_Int_l z b : strictEq (Int z) b = true <-> b = Int z.
Proof.
  destruct b as [y|]; simpl.
  - rewrite Z.eqb_eq. split; congruence.
  - split; discriminate.
Qed.

Lemma strictEq_NaN a : strictEq a NaN = false.
Proof. now destruct a. Qed.

Lemma strictEq_refl z : strictEq (Int z) (Int z) = true.
Proof. apply Z.eqb_refl. Qed.

(** ** The representation invariant holds in every reachable state *)

Section TableFacts.
Context {V : Type}.
Implicit Type m : JsMap.t V.

Lemma table_ok_empty (id : V -> Z) : table_ok id 1 JsMap.empty.
Proof.
  split; [apply ok_empty | split; [|split; [|lia]]]; intros k; simpl; tauto.
Qed.

Lemma below_fresh next m : below next m -> ~ In next (JsMap.keys m).
Proof. intros Hb Hin. specialize (Hb _ Hin). lia. Qed.

Lemma In_set_fresh k v m e :
  ~ In k (JsMap.keys m) -> In e (JsMap.set k v m) <-> In e m \/ e = (k, v).
Proof.
  intros Hni. rewrite set_fresh by assumption. rewrite in_app_iff. simpl.
  intuition congruence.
Qed.

(** A record stored under the counter's next value. *)
Lemma table_ok_insert id next v m :
  table_ok id next m -> id v = next ->
  table_ok id (next + 1) (JsMap.set next v m).
Proof.
  intros (Hok & Hkey & Hb & Hpos) Hid.
  pose proof (below_fresh _ _ Hb) as Hni.
  split; [now apply ok_set | split; [|split; [|lia]]].
  - intros k x Hin. apply In_set_fresh in Hin; [|assumption].
    destruct Hin as [Hin|E]; [eauto | congruence].
  - intros k Hin. apply In_keys_set in Hin.
    destruct Hin as [->|Hin]; [lia | specialize (Hb _ Hin); lia].
Qed.

Lemma In_set_present k v m e :
  JsMap.ok m -> In e (JsMap.set k v m) ->
  e = (k, v) \/ (In e m /\ fst e <> k).
Proof.
  intros Hok. induction m as [|[k0 v0] r IH]; simpl.
  - intros [E|[]]. now left.
  - inversion Hok as [|? ? Hni Hok']; subst.
    destruct (Z.eqb_spec k k0) as [->|Hne]; simpl.
    + intros [E|Hin]; [now left | right].
      split; [now right|]. intros E. apply Hni. rewrite <- E.
      now apply (in_map fst).
    + intros [E|Hin].
      * right. subst e. simpl. split; [now left | congruence].
      * destruct (IH Hok' Hin) as [E|[H1 H2]]; [now left | right; tauto].
Qed.

(** A record replaced in place under its own key. *)
Lemma table_ok_update id next k v m :
  table_ok id next m -> In k (JsMap.keys m) -> id v = k ->
  table_ok id next (JsMap.set k v m).
Proof.
  intros (Hok & Hkey & Hb & Hpos) Hin Hid.
  split; [now apply ok_set | split; [|split; [|assumption]]].
  - intros k' x Hx. apply In_set_present in Hx; [|assumption].
    destruct Hx as [E|[Hx _]]; [congruence | eauto].
  - intros k' Hk'. apply In_keys_set in Hk'.
    destruct Hk' as [->|Hk']; auto.
Qed.

Lemma table_ok_remove id next k m :
  table_ok id next m -> table_ok id next (JsMap.remove k m).
Proof.
  intros (Hok & Hkey & Hb & Hpos).
  split; [now apply ok_remove | split; [|split; [|assumption]]].
  - intros k' x Hx. apply In_remove in Hx. eauto.
  - intros k' Hk'. apply In_keys_remove in Hk'. auto.
Qed.

Lemma pairUnique_empty (a : V -> Z) (b : V -> JsNumber) :
  pairUnique a b JsMap.empty.
Proof. intros k1 v1 k2 v2 y []. Qed.

Lemma pairUnique_remove (a : V -> Z) (b : V -> JsNumber) k m :
  pairUnique a b m -> pairUnique a b (JsMap.remove k m).
Proof.
  intros H k1 v1 k2 v2 y H1 H2. apply In_remove in H1, H2. eauto.
Qed.

(** The lookup before the insert: no stored record has the new pair. *)
Lemma pairUnique_insert (a : V -> Z) (b : V -> JsNumber) x y k v m :
  pairUnique a b m -> ~ In k (JsMap.keys m) ->
  find (fun r => (a r =? x) && strictEq (b r) y) (JsMap.values m) = None ->
  a v = x -> b v = y ->
  pairUnique a b (JsMap.set k v m).
Proof.
  intros Hu Hni Hfind Ha Hb k1 v1 k2 v2 z H1 H2 Ea Eb1 Eb2.
  apply In_set_fresh in H1, H2; try assumption.
  assert (Hno : forall k' r,
             In (k', r) m -> a r = x -> b r = Int z -> y = Int z -> False).
  { intros k' r Hin E1 E2 E3.
    assert (Hv : In r (JsMap.values m)) by (apply In_values; eauto).
    pose proof (find_none _ _ Hfind _ Hv) as Hf. simpl in Hf.
    rewrite E1, E2, E3, Z.eqb_refl, strictEq_refl in Hf. discriminate. }
  destruct H1 as [H1|E1], H2 as [H2|E2].
  - eauto.
  - injection E2 as -> ->. exfalso. eapply Hno; eauto; congruence.
  - injection E1 as -> ->. exfalso. eapply Hno; eauto; congruence.
  - congruence.
Qed.

Lemma numberOf_filter (P : V -> bool) m :
  numberOf P m = List.length (filter P (JsMap.values m)).
Proof.
  induction m as [|[k v] r IH]; simpl; [reflexivity|].
  destruct (P v); simpl; now rewrite IH.
Qed.

End TableFacts.

Lemma store_ok_new : store_ok newMemStorage.
Proof.
  constructor; simpl; try apply table_ok_empty; apply pairUnique_empty.
Qed.

(** Tactic for the goals of [store_ok] that an operation leaves alone. *)
Ltac untouched H := destruct H; constructor; simpl; try assumption.

Lemma createUser_ok s now h d : store_ok s -> store_ok (fst (createUser s now h d)).
Proof.
  intros H. untouched H. now apply table_ok_insert.
Qed.

Lemma createPost_ok s now d : store_ok s -> store_ok (fst (createPost s now d)).
Proof.
  intros H. untouched H. now apply table_ok_insert.
Qed.

Lemma updatePost_ok s now id d : store_ok s -> store_ok (fst (updatePost s now id d)).
Proof.
  intros H. unfold updatePost.
  destruct (JsMap.get id (posts s)) as [existing|] eqn:E; [|exact H].
  untouched H. apply get_In in E.
  apply table_ok_update; [assumption | eapply In_keys; eauto |].
  simpl. destruct ok_posts0 as (_ & Hk & _). eauto.
Qed.

Lemma deletePost_ok s id a : store_ok s -> store_ok (fst (deletePost s id a)).
Proof.
  intros H. unfold deletePost.
  destruct (JsMap.get id (posts s)) as [post|]; [|exact H].
  destruct (negb (p_authorId post =? a)); [exact H|].
  untouched H. now apply table_ok_remove.
Qed.

Lemma likePost_ok s now u p : store_ok s -> store_ok (fst (likePost s now u p)).
Proof.
  intros H. unfold likePost.
  destruct (find _ (JsMap.values (likes s))) as [existing|] eqn:E; [exact H|].
  untouched H.
  - now apply table_ok_insert.
  - eapply pairUnique_insert; eauto.
    apply below_fresh. apply ok_likes0.
Qed.

Lemma unlikePost_ok s u p : store_ok s -> store_ok (fst (unlikePost s u p)).
Proof.
  intros H. unfold unlikePost.
  destruct (find _ (JsMap.entries (likes s))) as [like|]; [|exact H].
  untouched H; [now apply table_ok_remove | now apply pairUnique_remove].
Qed.

Lemma createComment_ok s now d : store_ok s -> store_ok (fst (createComment s now d)).
Proof.
  intros H. untouched H. now apply table_ok_insert.
Qed.

Lemma deleteComment_ok s id u : store_ok s -> store_ok (fst (deleteComment s id u)).
Proof.
  intros H. unfold deleteComment.
  destruct (JsMap.get id (comments s)) as [comment|]; [|exact H].
  destruct (negb (c_userId comment =? u)); [exact H|].
  untouched H. now apply table_ok_remove.
Qed.

Lemma bookmarkPost_ok s now u p : store_ok s -> store_ok (fst (bookmarkPost s now u p)).
Proof.
  intros H. unfold bookmarkPost.
  destruct (find _ (JsMap.values (bookmarks s))) as [existing|] eqn:E; [exact H|].
  untouched H.
  - now apply table_ok_insert.
  - eapply pairUnique_insert; eauto.
    apply below_fresh. apply ok_bookmarks0.
Qed.

Lemma unbookmarkPost_ok s u p : store_ok s -> store_ok (fst (unbookmarkPost s u p)).
Proof.
  intros H. unfold unbookmarkPost.
  destruct (find _ (JsMap.entries (bookmarks s))) as [bookmark|]; [|exact H].
  untouched H; [now apply table_ok_remove | now apply pairUnique_remove].
Qed.

Lemma followUser_ok s now a b : store_ok s -> store_ok (fst (followUser s now a b)).
Proof.
  intros H. unfold followUser.
  destruct (strictEq (Int a) b); [exact H|].
  destruct (find _ (JsMap.values (follows s))) as [existing|] eqn:E; [exact H|].
  untouched H.
  - now apply table_ok_insert.
  - eapply pairUnique_insert; eauto.
    apply below_fresh. apply ok_follows0.
Qed.

Lemma unfollowUser_ok s a b : store_ok s -> store_ok (fst (unfollowUser s a b)).
Proof.
  intros H. unfold unfollowUser.
  destruct (find _ (JsMap.entries (follows s))) as [follow|]; [|exact H].
  untouched H; [now apply table_ok_remove | now apply pairUnique_remove].
Qed.

Lemma sendMessage_ok s now d : store_ok s -> store_ok (fst (sendMessage s now d)).
Proof.
  intros H. untouched H. now apply table_ok_insert.
Qed.

(** ** Rewriting a selection of entries in place *)

Section SetEach.
Context {V : Type}.
Variable P : Z * V -> bool.
Variable f : V -> V.
Implicit Type m : JsMap.t V.
Local Abbreviation setEach := (setEach f).
Local Abbreviation rewriteSelected := (rewriteSelected P f).

Lemma get_setEach k l m :
  JsMap.ok l ->
  JsMap.get k (setEach l m) =
  match JsMap.get k l with Some x => Some (f x) | None => JsMap.get k m end.
Proof.
  unfold setEach, JsMap.ok. revert m.
  induction l as [|[k0 x0] l IH]; intros m Hnd; simpl; [reflexivity|].
  inversion Hnd as [|? ? Hni Hnd']; subst.
  rewrite IH by assumption.
  destruct (Z.eqb_spec k k0) as [->|Hne].
  - apply get_None in Hni. rewrite Hni. apply get_set_eq.
  - destruct (JsMap.get k l); [reflexivity | now apply get_set_ne].
Qed.

Lemma keys_setEach l m :
  (forall e, In e l -> In (fst e) (JsMap.keys m)) ->
  JsMap.keys (setEach l m) = JsMap.keys m.
Proof.
  unfold setEach. revert m.
  induction l as [|e l IH]; intros m Hin; simpl; [reflexivity|].
  rewrite IH.
  - apply keys_set_present. apply Hin. now left.
  - intros e' He'. apply In_keys_set. right. apply Hin. now right.
Qed.

Lemma keys_filter_incl k m : In k (JsMap.keys (filter P m)) -> In k (JsMap.keys m).
Proof.
  unfold JsMap.keys. rewrite !in_map_iff.
  intros [e [E H]]. apply filter_In in H. exists e. tauto.
Qed.

Lemma ok_filter m : JsMap.ok m -> JsMap.ok (filter P m).
Proof.
  unfold JsMap.ok. induction m as [|e r IH]; simpl; intros Hnd; [constructor|].
  inversion Hnd as [|? ? Hni Hnd']; subst.
  destruct (P e); simpl; [|auto].
  constructor; [|auto]. intros H. apply Hni. now apply keys_filter_incl.
Qed.

Lemma get_filter k m :
  JsMap.ok m ->
  JsMap.get k (filter P m) =
  match JsMap.get k m with
  | Some v => if P (k, v) then Some v else None
  | None => None
  end.
Proof.
  unfold JsMap.ok. induction m as [|[k0 v0] r IH]; simpl; intros Hnd; [reflexivity|].
  inversion Hnd as [|? ? Hni Hnd']; subst.
  destruct (Z.eqb_spec k k0) as [->|Hne].
  - destruct (P (k0, v0)) eqn:EP; simpl.
    + now rewrite Z.eqb_refl.
    + apply get_None. intros H. apply Hni. now apply keys_filter_incl.
  - destruct (P (k0, v0)); simpl; [|auto].
    destruct (Z.eqb_spec k k0); [contradiction | auto].
Qed.

Lemma keys_rewriteSelected m : JsMap.keys (map rewriteSelected m) = JsMap.keys m.
Proof.
  unfold JsMap.keys. rewrite map_map. apply map_ext.
  intros e. unfold rewriteSelected. now destruct (P e).
Qed.

Lemma get_rewriteSelected k m :
  JsMap.get k (map rewriteSelected m) =
  match JsMap.get k m with
  | Some v => Some (if P (k, v) then f v else v)
  | None => None
  end.
Proof.
  induction m as [|[k0 v0] r IH]; simpl; [reflexivity|].
  unfold rewriteSelected at 1.
  destruct (P (k0, v0)) eqn:EP; simpl;
    destruct (Z.eqb_spec k k0) as [->|Hne]; try rewrite EP; auto.
Qed.

(** The loop rewrites exactly the selected entries, each in its place. *)
Lemma setEach_filter m :
  JsMap.ok m -> setEach (filter P m) m = map rewriteSelected m.
Proof.
  intros Hok.
  assert (Hkeys : JsMap.keys (setEach (filter P m) m) = JsMap.keys m).
  { apply keys_setEach. intros e He. apply filter_In in He.
    destruct e as [k v]. eapply In_keys. apply He. }
  apply ext.
  - unfold JsMap.ok. now rewrite Hkeys.
  - now rewrite keys_rewriteSelected.
  - intros k. rewrite get_setEach by now apply ok_filter.
    rewrite get_filter by assumption. rewrite get_rewriteSelected.
    destruct (JsMap.get k m) as [v|]; [|reflexivity].
    now destruct (P (k, v)).
Qed.

End SetEach.

Lemma markMessagesAsRead_messages s u o :
  store_ok s ->
  messages (fst (markMessagesAsRead s u o)) =
  map (rewriteSelected (fun e => unreadFrom o u (snd e)) markRead) (messages s).
Proof.
  intros H. simpl. apply (setEach_filter (fun e => unreadFrom o u (snd e)) markRead).
  apply (ok_messages s H).
Qed.

Lemma markMessagesAsRead_ok s u o :
  store_ok s -> store_ok (fst (markMessagesAsRead s u o)).
Proof.
  intros H. pose proof (markMessagesAsRead_messages s u o H) as Hm.
  destruct H. constructor; try assumption.
  rewrite Hm. simpl.
  destruct ok_messages0 as (Hok & Hkey & Hb & Hpos).
  split; [|split; [|split; [|assumption]]].
  - unfold JsMap.ok. now rewrite keys_rewriteSelected.
  - intros k v Hin. apply in_map_iff in Hin. destruct Hin as [[k0 v0] [E Hin]].
    unfold rewriteSelected in E. simpl in E.
    destruct (unreadFrom o u v0); injection E as <- <-; simpl; eauto.
  - intros k. rewrite keys_rewriteSelected. apply Hb.
Qed.

Lemma step_ok s op : store_ok s -> store_ok (step s op).
Proof.
  intros H. unfold step.
  destruct op; unfold exec, returns; cbn [fst];
    auto using createUser_ok, createPost_ok, updatePost_ok, deletePost_ok,
      likePost_ok, unlikePost_ok, createComment_ok, deleteComment_ok,
      bookmarkPost_ok, unbookmarkPost_ok, unfollowUser_ok, sendMessage_ok,
      markMessagesAsRead_ok.
  match goal with
  | |- context [followUser ?s ?n ?a ?b] =>
      pose proof (followUser_ok s n a b H) as Hf;
      destruct (followUser s n a b) as [s' [r|msg]]; exact Hf
  end.
Qed.

Lemma run_ok ops : forall s, store_ok s -> store_ok (run s ops).
Proof.
  unfold run. induction ops as [|op ops IH]; intros s H; simpl; [exact H|].
  apply IH. now apply step_ok.
Qed.

Lemma reachable_ok s : reachable s -> store_ok s.
Proof.
  intros [ops ->]. apply run_ok, store_ok_new.
Qed.

(** ** Reading a single post *)

(** C9: [getPost] returns a value exactly when the id resolves to a stored
    post whose [published] flag is set; a stored but unpublished post gets
    the same absent result as an id that does not resolve, whoever the
    viewer is (its author included). *)
Theorem getPost_published_only s id viewer :
  ((exists e, getPost s id viewer = Some e) <->
   (exists post, JsMap.get id (posts s) = Some post /\ p_published post = true))
  /\ (forall post,
        JsMap.get id (posts s) = Some post -> p_published post = false ->
        getPost s id viewer = None
        /\ getPost s id (Some (p_authorId post)) = None)
  /\ (JsMap.get id (posts s) = None -> getPost s id viewer = None).
Proof.
  unfold getPost. split; [|split].
  - destruct (JsMap.get id (posts s)) as [post|].
    + destruct (p_published post) eqn:E; simpl; split.
      * intros _. eauto.
      * intros _. eauto.
      * intros [e He]. discriminate.
      * intros [post' [Hp Hpub]]. injection Hp as <-. congruence.
    + split; [intros [e He]; discriminate | intros [post [Hp _]]; discriminate].
  - intros post -> ->. simpl. auto.
  - intros ->. reflexivity.
Qed.

(** ** Updating a post *)

(** C10: [updatePost] takes no acting user and checks no ownership.  For an
    id that resolves it stores and returns the post in which exactly the
    supplied fields are overwritten and [updatedAt] is the current time,
    [id] and [createdAt] being kept; nothing else in the store changes.
    For an id that does not resolve it returns absent and changes
    nothing. *)
Theorem updatePost_overwrites_supplied_fields s now id data :
  match JsMap.get id (posts s) with
  | None => updatePost s now id data = (s, None)
  | Some old =>
      exists new,
        updatePost s now id data
        = (withPosts s (JsMap.set id new (posts s)), Some new)
        /\ p_id new = p_id old
        /\ p_createdAt new = p_createdAt old
        /\ p_updatedAt new = now
        /\ p_title new
           = match pp_title data with Some title => title | None => p_title old end
        /\ p_content new
           = match pp_content data with
             | Some content => content
             | None => p_content old
             end
        /\ p_excerpt new
           = match pp_excerpt data with
             | Some excerpt => excerpt
             | None => p_excerpt old
             end
        /\ p_authorId new
           = match pp_authorId data with
             | Some authorId => authorId
             | None => p_authorId old
             end
        /\ p_image new
           = match pp_image data with Some image => image | None => p_image old end
        /\ p_tags new
           = match pp_tags data with Some tags => tags | None => p_tags old end
        /\ p_published new
           = match pp_published data with
             | Some published => published
             | None => p_published old
             end
        /\ JsMap.get id (posts (fst (updatePost s now id data))) = Some new
        /\ (forall k, k <> id ->
              JsMap.get k (posts (fst (updatePost s now id data)))
              = JsMap.get k (posts s))
        /\ JsMap.keys (posts (fst (updatePost s now id data)))
           = JsMap.keys (posts s)
        /\ users (fst (updatePost s now id data)) = users s
        /\ likes (fst (updatePost s now id data)) = likes s
        /\ comments (fst (updatePost s now id data)) = comments s
        /\ bookmarks (fst (updatePost s now id data)) = bookmarks s
        /\ follows (fst (updatePost s now id data)) = follows s
        /\ messages (fst (updatePost s now id data)) = messages s
        /\ currentId (fst (updatePost s now id data)) = currentId s
  end.
Proof.
  unfold updatePost.
  destruct (JsMap.get id (posts s)) as [old|] eqn:E; [|reflexivity].
  eexists. split; [reflexivity|]. simpl.
  repeat (split; [reflexivity|]).
  split; [apply get_set_eq | split; [|split]].
  - intros k Hk. now apply get_set_ne.
  - apply keys_set_present. apply get_In in E. eapply In_keys; eauto.
  - repeat split.
Qed.

(** ** Lookup before insert *)

(** Two tests that hold of the same records count and find the same. *)
Lemma same_test {V : Type} (P Q : V -> bool) (R : V -> Prop) :
  (forall v, P v = true <-> R v) -> (forall v, Q v = true <-> R v) ->
  forall v, P v = Q v.
Proof.
  intros HP HQ v. specialize (HP v). specialize (HQ v).
  destruct (P v), (Q v); intuition congruence.
Qed.

Lemma numberOf_ext {V : Type} (P Q : V -> bool) (m : JsMap.t V) :
  (forall v, P v = Q v) -> numberOf P m = numberOf Q m.
Proof.
  intros H. induction m as [|[k v] r IH]; simpl; [reflexivity|].
  now rewrite H, IH.
Qed.

Section PairLookup.
Context {V : Type}.
Variable a : V -> Z.
Variable b : V -> JsNumber.
Implicit Type m : JsMap.t V.
Local Abbreviation hasPair := (hasPair a b).

Lemma hasPair_true x y r :
  hasPair x (Int y) r = true <-> a r = x /\ b r = Int y.
Proof. unfold hasPair. now rewrite andb_true_iff, Z.eqb_eq, strictEq_Int. Qed.

Lemma hasPair_NaN x r : hasPair x NaN r = false.
Proof. unfold hasPair. rewrite strictEq_NaN. apply andb_false_r. Qed.

Lemma find_absent (P : V -> bool) (l : list V) :
  (forall v, In v l -> P v = false) -> find P l = None.
Proof.
  intros H. destruct (find P l) as [v|] eqn:E; [|reflexivity].
  apply find_some in E. destruct E as [Hin HP].
  rewrite (H _ Hin) in HP. discriminate.
Qed.

(** [NaN] is strictly equal to nothing, so no scan for it finds a
    record. *)
Lemma find_NaN x (l : list V) : find (hasPair x NaN) l = None.
Proof. apply find_absent. intros v _. apply hasPair_NaN. Qed.

Lemma find_entry_NaN x (l : list (Z * V)) :
  find (fun e => hasPair x NaN (snd e)) l = None.
Proof.
  destruct (find _ l) as [e|] eqn:E; [|reflexivity].
  apply find_some in E. destruct E as [_ HP].
  rewrite hasPair_NaN in HP. discriminate.
Qed.

(** With at most one record per pair, the scan finds the record of the
    pair wherever it sits. *)
Lemma find_pair x y k v m :
  JsMap.ok m -> pairUnique a b m -> In (k, v) m -> a v = x -> b v = Int y ->
  find (hasPair x (Int y)) (JsMap.values m) = Some v.
Proof.
  intros Hok Hu Hin Ha Hb.
  destruct (find (hasPair x (Int y)) (JsMap.values m)) as [v'|] eqn:E.
  - apply find_some in E. destruct E as [Hv' HP].
    apply hasPair_true in HP. destruct HP as [Ha' Hb'].
    apply In_values in Hv'. destruct Hv' as [k' Hin'].
    assert (k' = k) by (eapply Hu; eauto; congruence). subst k'.
    f_equal. apply (In_get _ _ _ Hok) in Hin, Hin'. congruence.
  - assert (Hv : In v (JsMap.values m)) by (apply In_values; eauto).
    pose proof (find_none _ _ E _ Hv) as HP.
    assert (hasPair x (Int y) v = true) by now apply hasPair_true.
    congruence.
Qed.

Lemma find_pair_entry x y k v m :
  JsMap.ok m -> pairUnique a b m -> In (k, v) m -> a v = x -> b v = Int y ->
  find (fun e => hasPair x (Int y) (snd e)) (JsMap.entries m) = Some (k, v).
Proof.
  intros Hok Hu Hin Ha Hb. unfold JsMap.entries.
  destruct (find (fun e => hasPair x (Int y) (snd e)) m) as [[k' v']|] eqn:E.
  - apply find_some in E. destruct E as [Hin' HP]. simpl in HP.
    apply hasPair_true in HP. destruct HP as [Ha' Hb'].
    assert (k' = k) by (eapply Hu; eauto; congruence). subst k'.
    f_equal. f_equal. apply (In_get _ _ _ Hok) in Hin, Hin'. congruence.
  - pose proof (find_none _ _ E _ Hin) as HP. simpl in HP.
    assert (hasPair x (Int y) v = true) by now apply hasPair_true.
    congruence.
Qed.

Lemma numberOf_none (P : V -> bool) m :
  (forall k v, In (k, v) m -> P v = false) -> numberOf P m = O.
Proof.
  induction m as [|[k v] r IH]; simpl; intros H; [reflexivity|].
  rewrite (H k v) by now left. apply IH. intros k' v' Hin. apply (H k'). now right.
Qed.

Lemma numberOf_pair x y k v m :
  JsMap.ok m -> pairUnique a b m -> In (k, v) m -> a v = x -> b v = Int y ->
  numberOf (hasPair x (Int y)) m = 1%nat.
Proof.
  unfold JsMap.ok.
  induction m as [|[k0 v0] r IH]; simpl; intros Hok Hu Hin; [tauto|].
  inversion Hok as [|? ? Hni Hok']; subst. intros Ha Hb.
  assert (Hu' : pairUnique a b r).
  { intros k1 v1 k2 v2 z H1 H2. apply Hu; now right. }
  destruct (hasPair x (Int y) v0) eqn:E.
  - f_equal. apply numberOf_none. intros k' v' Hin'.
    destruct (hasPair x (Int y) v') eqn:E'; [exfalso | reflexivity].
    apply hasPair_true in E, E'. destruct E, E'.
    assert (k0 = k').
    { apply (Hu k0 v0 k' v' y); [now left | now right | congruence | | ];
        assumption. }
    subst k'. apply Hni. eapply In_keys; eauto.
  - destruct Hin as [Heq|Hin]; [|now apply IH].
    injection Heq as -> ->.
    assert (hasPair x (Int y) v = true) by now apply hasPair_true.
    congruence.
Qed.

(** The same count, for any test that holds of the records of the pair. *)
Lemma numberOf_pair_test (P : V -> bool) x y k v m :
  JsMap.ok m -> pairUnique a b m -> In (k, v) m -> a v = x -> b v = Int y ->
  (forall r, P r = true <-> a r = x /\ b r = Int y) ->
  numberOf P m = 1%nat.
Proof.
  intros Hok Hu Hin Ha Hb HP.
  rewrite (numberOf_ext P (hasPair x (Int y))).
  - eapply numberOf_pair; eauto.
  - apply (same_test _ _ (fun r => a r = x /\ b r = Int y)); [exact HP|].
    intros r. apply hasPair_true.
Qed.

End PairLookup.

(** ** Likes *)

Lemma likePost_existing s now u p k existing :
  store_ok s -> In (k, existing) (likes s) ->
  l_userId existing = u -> l_postId existing = Int p ->
  likePost s now u (Int p) = (s, existing).
Proof.
  intros H Hin Hu Hp. unfold likePost.
  change (fun like => (l_userId like =? u) && strictEq (l_postId like) (Int p))
    with (hasPair l_userId l_postId u (Int p)).
  rewrite (find_pair l_userId l_postId u p k existing); auto.
  - apply (ok_likes s H).
  - apply (ok_like_pairs s H).
Qed.

Lemma likePost_stored s now u p :
  exists k, In (k, snd (likePost s now u (Int p)))
               (likes (fst (likePost s now u (Int p))))
            /\ l_userId (snd (likePost s now u (Int p))) = u
            /\ l_postId (snd (likePost s now u (Int p))) = Int p.
Proof.
  unfold likePost.
  destruct (find _ (JsMap.values (likes s))) as [existing|] eqn:E; simpl.
  - apply find_some in E. destruct E as [Hin HP].
    apply In_values in Hin. destruct Hin as [k Hin].
    apply (hasPair_true l_userId l_postId) in HP.
    exists k. tauto.
  - exists (cur_likes (currentId s)). split; [|auto].
    apply get_In, get_set_eq.
Qed.

(** A call for [NaN] finds no record and stores a new one. *)
Lemma likePost_NaN s now u :
  likePost s now u NaN
  = let id := cur_likes (currentId s) in
    let like := {| l_id := id; l_userId := u; l_postId := NaN;
                   l_createdAt := now |} in
    let c := currentId s in
    ({| users := users s; posts := posts s;
        likes := JsMap.set id like (likes s);
        comments := comments s; bookmarks := bookmarks s;
        follows := follows s; messages := messages s;
        currentId := {| cur_users := cur_users c; cur_posts := cur_posts c;
                        cur_likes := id + 1; cur_comments := cur_comments c;
                        cur_bookmarks := cur_bookmarks c;
                        cur_follows := cur_follows c;
                        cur_messages := cur_messages c |} |},
     like).
Proof.
  unfold likePost.
  change (fun like => (l_userId like =? u) && strictEq (l_postId like) NaN)
    with (hasPair l_userId l_postId u NaN).
  now rewrite find_NaN.
Qed.

Lemma unlikePost_absent s u p :
  (forall k l, In (k, l) (likes s) -> ~ (l_userId l = u /\ l_postId l = p)) ->
  unlikePost s u p = (s, false).
Proof.
  intros Hno. unfold unlikePost.
  destruct (find _ (JsMap.entries (likes s))) as [[k l]|] eqn:E; [|reflexivity].
  exfalso. apply find_some in E. destruct E as [Hin HP]. simpl in HP.
  destruct p as [p|].
  - apply (hasPair_true l_userId l_postId) in HP. eapply Hno; eauto.
  - change (hasPair l_userId l_postId u NaN l = true) in HP.
    rewrite hasPair_NaN in HP. discriminate.
Qed.

(** C6, as far as it holds, and where it fails.  For a post id that is an
    integer: when a Like for (u, p) is already stored, [likePost] returns
    that record and leaves the store as it is, so liking the same post
    twice leaves exactly one Like for the pair; [unlikePost] for a pair
    without a Like returns [false], raises nothing and leaves the store as
    it is.  For the id [NaN], which the route hands on when the address
    holds no number, [likePost] does not find the Like it stored before:
    the second call stores a second record for the same user and [NaN]. *)
Theorem likePost_idempotent_for_integer_ids_only s now now' u :
  reachable s ->
  (forall p,
      (forall k existing,
          In (k, existing) (likes s) ->
          l_userId existing = u -> l_postId existing = Int p ->
          likePost s now u (Int p) = (s, existing))
      /\ (let first := likePost s now u (Int p) in
          let second := likePost (fst first) now' u (Int p) in
          second = (fst first, snd first)
          /\ forall P : Like -> bool,
               (forall l, P l = true <-> l_userId l = u /\ l_postId l = Int p) ->
               numberOf P (likes (fst second)) = 1%nat))
  /\ (forall p,
        (forall k l, In (k, l) (likes s) -> ~ (l_userId l = u /\ l_postId l = p)) ->
        unlikePost s u p = (s, false))
  /\ (let first := likePost s now u NaN in
      let second := likePost (fst first) now' u NaN in
      let id := cur_likes (currentId s) in
      snd first = {| l_id := id; l_userId := u; l_postId := NaN;
                     l_createdAt := now |}
      /\ snd second = {| l_id := id + 1; l_userId := u; l_postId := NaN;
                         l_createdAt := now' |}
      /\ likes (fst second) = likes s ++ [(id, snd first); (id + 1, snd second)]).
Proof.
  intros Hr. apply reachable_ok in Hr. split; [|split].
  - intros p. split.
    + intros k existing. now apply likePost_existing.
    + cbv zeta.
      pose proof (likePost_ok s now u (Int p) Hr) as Hok1.
      destruct (likePost_stored s now u p) as [k (Hin & Hu & Hp)].
      pose proof (likePost_existing _ now' u p k _ Hok1 Hin Hu Hp) as E.
      rewrite E. split; [reflexivity|]. simpl. intros P HP.
      apply (numberOf_pair_test l_userId l_postId P u p k
               (snd (likePost s now u (Int p))));
        auto; [apply (ok_likes _ Hok1) | apply (ok_like_pairs _ Hok1)].
  - intros p. apply unlikePost_absent.
  - cbv zeta. rewrite !likePost_NaN. cbv zeta. simpl.
    split; [reflexivity | split; [reflexivity|]].
    pose proof (below_fresh _ _ (proj1 (proj2 (proj2 (ok_likes s Hr))))) as Hni.
    rewrite (set_fresh (cur_likes (currentId s) + 1)).
    + rewrite set_fresh by assumption. now rewrite <- app_assoc.
    + rewrite keys_set_fresh by assumption. rewrite in_app_iff.
      intros [Hin|[E|[]]]; [|lia].
      destruct (ok_likes s Hr) as (_ & _ & Hb & _). specialize (Hb _ Hin). lia.
Qed.

Lemma demoStore_reachable : reachable demoStore.
Proof. now exists [CreateUser 1000 "h1" alice; CreateUser 1001 "h2" bob;
                   CreatePost 1002 demoPost; LikePost 1003 2 (Int 1)]. Qed.

Lemma likePost_idempotent_for_integer_ids_only_witness :
  likePost (fst (likePost demoStore 1004 1 (Int 1))) 1005 1 (Int 1)
  = (fst (likePost demoStore 1004 1 (Int 1)),
     snd (likePost demoStore 1004 1 (Int 1)))
  /\ likes (fst (likePost (fst (likePost demoStore 1004 1 NaN)) 1005 1 NaN))
     = likes demoStore
       ++ [(2, {| l_id := 2; l_userId := 1; l_postId := NaN;
                  l_createdAt := 1004 |});
           (3, {| l_id := 3; l_userId := 1; l_postId := NaN;
                  l_createdAt := 1005 |})].
Proof.
  pose proof (likePost_idempotent_for_integer_ids_only
                demoStore 1004 1005 1 demoStore_reachable) as (Hint & _ & Hnan).
  split.
  - exact (proj1 (proj2 (Hint 1))).
  - destruct Hnan as (_ & _ & Hlikes). exact Hlikes.
Defined.

(** The address [/api/posts/abc/like], asked for twice by Alice, leaves two
    Like records of Alice for the same post id. *)
Example likePost_NaN_twice :
  JsMap.values (likes nanLikeStore)
  = [{| l_id := 1; l_userId := 1; l_postId := NaN; l_createdAt := 1001 |};
     {| l_id := 2; l_userId := 1; l_postId := NaN; l_createdAt := 1002 |}].
Proof. reflexivity. Qed.

(** ** Deleting a post *)

(** Every listing is drawn from the published posts of the store. *)
Lemma In_enriched s viewer (P : Post -> bool) e l :
  In e (map (fun post => enrichPostWithAuthor s post viewer) l) ->
  (forall post, In post l -> In post (JsMap.values (posts s)) /\ P post = true) ->
  In (pw_post e) (JsMap.values (posts s)) /\ P (pw_post e) = true.
Proof.
  intros Hin Hl. apply in_map_iff in Hin. destruct Hin as [post [<- Hpost]].
  simpl. auto.
Qed.

Lemma In_sort_filter {A : Type} cmp (P : A -> bool) x l :
  In x (JsArray.sort cmp (filter P l)) <-> In x l /\ P x = true.
Proof. rewrite In_sort. apply filter_In. Qed.

Lemma getPosts_from_store s limit offset viewer e :
  In e (getPosts s limit offset viewer) ->
  In (pw_post e) (JsMap.values (posts s)) /\ p_published (pw_post e) = true.
Proof.
  intros Hin. unfold getPosts in Hin.
  apply (In_enriched s viewer p_published e _ Hin).
  intros post Hp. apply In_slice in Hp. now apply In_sort_filter in Hp.
Qed.

(** Tactic that opens the conditionals of an operation. *)
Ltac open_op :=
  repeat match goal with
         | |- context [match ?x with _ => _ end] => destruct x eqn:?
         | |- context [if ?x then _ else _] => destruct x eqn:?
         end.

Lemma step_followUser s now a b :
  step s (FollowUser now a b) = fst (followUser s now a b).
Proof.
  unfold step, exec. now destruct (followUser s now a b) as [s' [r|m]].
Qed.

(** Ids are never handed out twice: a retired id stays retired. *)
Lemma retired_step id s op : retired id s -> retired id (step s op).
Proof.
  intros [Hni Hlt]. unfold retired.
  destruct op; try rewrite step_followUser;
    unfold step, exec, returns; cbn [fst];
    try (unfold likePost, unlikePost, deleteComment, bookmarkPost,
         unbookmarkPost, unfollowUser, followUser;
         open_op; simpl; auto; fail).
  - (* createPost *)
    simpl. split; [|lia]. rewrite In_keys_set. intros [E|H]; [lia | auto].
  - (* updatePost *)
    unfold updatePost. destruct (JsMap.get id0 (posts s)) eqn:E; simpl; [|auto].
    split; [|assumption]. rewrite In_keys_set. intros [->|H]; [|auto].
    apply Hni. apply get_In in E. eapply In_keys; eauto.
  - (* deletePost *)
    unfold deletePost. destruct (JsMap.get id0 (posts s)); [|simpl; auto].
    destruct (negb _); simpl; [auto|].
    split; [|assumption]. intros H. apply Hni. eapply In_keys_remove; eauto.
Qed.

Lemma retired_run id ops : forall s, retired id s -> retired id (run s ops).
Proof.
  unfold run. induction ops as [|op ops IH]; intros s H; simpl; [exact H|].
  apply IH. now apply retired_step.
Qed.

Lemma reachable_run s ops : reachable s -> reachable (run s ops).
Proof.
  intros [ops0 ->]. exists (ops0 ++ ops). unfold run. now rewrite fold_left_app.
Qed.

(** C7: [deletePost] returns [false] and leaves the store as it is when the
    id does not resolve or the acting user is not the post's author; called
    by the author it removes the post, and only that post, and no later
    [getPosts] result, after any further calls, contains a post with
    that id. *)
Theorem deletePost_author_only s id acting :
  reachable s ->
  match JsMap.get id (posts s) with
  | None => deletePost s id acting = (s, false)
  | Some post =>
      if p_authorId post =? acting then
        snd (deletePost s id acting) = true
        /\ JsMap.get id (posts (fst (deletePost s id acting))) = None
        /\ (forall k, k <> id ->
              JsMap.get k (posts (fst (deletePost s id acting)))
              = JsMap.get k (posts s))
        /\ (forall ops limit offset viewer e,
              In e (getPosts (run (fst (deletePost s id acting)) ops)
                             limit offset viewer) ->
              p_id (pw_post e) <> id)
      else
        deletePost s id acting = (s, false)
        /\ JsMap.get id (posts (fst (deletePost s id acting))) = Some post
  end.
Proof.
  intros Hr. pose proof (reachable_ok _ Hr) as Hok.
  unfold deletePost.
  destruct (JsMap.get id (posts s)) as [post|] eqn:E; [|reflexivity].
  destruct (p_authorId post =? acting) eqn:Ea; simpl; [|auto].
  destruct (ok_posts s Hok) as (Hmap & Hkey & Hb & Hpos).
  assert (Hk : In id (JsMap.keys (posts s))).
  { apply get_In in E. eapply In_keys; eauto. }
  split; [|split; [|split]].
  - unfold JsMap.has. now rewrite E.
  - now apply get_remove_eq.
  - intros k Hne. now apply get_remove_ne.
  - intros ops limit offset viewer e Hin.
    set (s' := withPosts s (JsMap.remove id (posts s))) in *.
    assert (Hret : retired id s').
    { split; simpl; [now apply not_In_keys_remove | apply Hb, Hk]. }
    apply (retired_run id ops) in Hret. destruct Hret as [Hni _].
    assert (Hr' : reachable (run s' ops)).
    { apply reachable_run.
      replace s' with (step s (DeletePost id acting)).
      - now apply (reachable_run s [DeletePost id acting]).
      - unfold step, exec, returns, deletePost. now rewrite E, Ea. }
    apply reachable_ok in Hr'.
    apply getPosts_from_store in Hin. destruct Hin as [Hin _].
    apply In_values in Hin. destruct Hin as [k Hin].
    destruct (ok_posts _ Hr') as (_ & Hkey' & _).
    rewrite (Hkey' _ _ Hin). intros ->. apply Hni. eapply In_keys; eauto.
Qed.

Lemma deletePost_author_only_witness :
  (snd (deletePost demoStore 1 1) = true
   /\ JsMap.get 1 (posts (fst (deletePost demoStore 1 1))) = None
   /\ (forall k, k <> 1 ->
         JsMap.get k (posts (fst (deletePost demoStore 1 1)))
         = JsMap.get k (posts demoStore))
   /\ (forall ops limit offset viewer e,
         In e (getPosts (run (fst (deletePost demoStore 1 1)) ops)
                        limit offset viewer) ->
         p_id (pw_post e) <> 1))
  /\ (deletePost demoStore 1 2 = (demoStore, false)
      /\ JsMap.get 1 (posts (fst (deletePost demoStore 1 2)))
         = Some (snd (createPost (run newMemStorage
                                    [CreateUser 1000 "h1" alice;
                                     CreateUser 1001 "h2" bob])
                                 1002 demoPost))).
Proof.
  split.
  - exact (deletePost_author_only demoStore 1 1 demoStore_reachable).
  - exact (deletePost_author_only demoStore 1 2 demoStore_reachable).
Defined.

(** ** Follows *)

Lemma followUser_existing s now a b k existing :
  store_ok s -> a <> b -> In (k, existing) (follows s) ->
  f_followerId existing = a -> f_followingId existing = Int b ->
  followUser s now a (Int b) = (s, Returned existing).
Proof.
  intros H Hne Hin Ha Hb. unfold followUser. simpl.
  destruct (Z.eqb_spec a b); [contradiction|].
  change (fun follow => (f_followerId follow =? a)
                        && strictEq (f_followingId follow) (Int b))
    with (hasPair f_followerId f_followingId a (Int b)).
  rewrite (find_pair f_followerId f_followingId a b k existing); auto.
  - apply (ok_follows s H).
  - apply (ok_follow_pairs s H).
Qed.

(** A call for [NaN] is no self-follow, finds no record and stores a new
    one. *)
Lemma followUser_NaN s now a :
  followUser s now a NaN
  = let id := cur_follows (currentId s) in
    let follow := {| f_id := id; f_followerId := a;
                     f_followingId := NaN; f_createdAt := now |} in
    let c := currentId s in
    ({| users := users s; posts := posts s; likes := likes s;
        comments := comments s; bookmarks := bookmarks s;
        follows := JsMap.set id follow (follows s);
        messages := messages s;
        currentId := {| cur_users := cur_users c; cur_posts := cur_posts c;
                        cur_likes := cur_likes c;
                        cur_comments := cur_comments c;
                        cur_bookmarks := cur_bookmarks c;
                        cur_follows := id + 1;
                        cur_messages := cur_messages c |} |},
     Returned follow).
Proof.
  unfold followUser. simpl.
  change (fun follow => (f_followerId follow =? a)
                        && strictEq (f_followingId follow) NaN)
    with (hasPair f_followerId f_followingId a NaN).
  now rewrite find_NaN.
Qed.

(** Two records appended under the next two ids. *)
Lemma set_twice_fresh {V : Type} (id : V -> Z) next (v w : V) (m : JsMap.t V) :
  table_ok id next m ->
  JsMap.set (next + 1) w (JsMap.set next v m) = m ++ [(next, v); (next + 1, w)].
Proof.
  intros (_ & _ & Hb & _).
  pose proof (below_fresh _ _ Hb) as Hni.
  rewrite (set_fresh (next + 1)).
  - rewrite set_fresh by assumption. now rewrite <- app_assoc.
  - rewrite keys_set_fresh by assumption. rewrite in_app_iff.
    intros [Hin|[E|[]]]; [|lia]. specialize (Hb _ Hin). lia.
Qed.

(** C5, as far as it holds, and where it fails.  [followUser(A, A)]
    throws.  For A <> B, both integers, with a Follow for (A, B) already
    stored, [followUser(A, B)] returns that record and leaves the store as
    it is, and no reachable store holds two Follow records for one such
    pair.  For the followed id [NaN], which the route hands on when the
    address holds no number, [followUser] does not find the Follow it
    stored before: the second call stores a second record for the same
    follower and [NaN]. *)
Theorem followUser_never_duplicates_for_integer_ids_only s now now' a :
  reachable s ->
  followUser s now a (Int a) = (s, Threw "Cannot follow yourself")
  /\ (forall b k existing,
        a <> b -> In (k, existing) (follows s) ->
        f_followerId existing = a -> f_followingId existing = Int b ->
        followUser s now a (Int b) = (s, Returned existing))
  /\ (forall b k1 f1 k2 f2,
        In (k1, f1) (follows s) -> In (k2, f2) (follows s) ->
        f_followerId f1 = a -> f_followingId f1 = Int b ->
        f_followerId f2 = a -> f_followingId f2 = Int b ->
        k1 = k2 /\ f1 = f2)
  /\ (let first := followUser s now a NaN in
      let second := followUser (fst first) now' a NaN in
      let id := cur_follows (currentId s) in
      let follow1 := {| f_id := id; f_followerId := a;
                        f_followingId := NaN; f_createdAt := now |} in
      let follow2 := {| f_id := id + 1; f_followerId := a;
                        f_followingId := NaN; f_createdAt := now' |} in
      snd first = Returned follow1
      /\ snd second = Returned follow2
      /\ follows (fst second) = follows s ++ [(id, follow1); (id + 1, follow2)]).
Proof.
  intros Hr. apply reachable_ok in Hr.
  split; [|split; [|split]].
  - unfold followUser. simpl. now rewrite Z.eqb_refl.
  - intros b k existing. now apply followUser_existing.
  - intros b k1 f1 k2 f2 H1 H2 Ha1 Hb1 Ha2 Hb2.
    assert (k1 = k2).
    { apply (ok_follow_pairs s Hr k1 f1 k2 f2 b); auto. congruence. }
    subst k2. split; [reflexivity|].
    destruct (ok_follows s Hr) as (Hok & _).
    apply (In_get _ _ _ Hok) in H1, H2. congruence.
  - cbv zeta. rewrite !followUser_NaN. cbv zeta. simpl.
    split; [reflexivity | split; [reflexivity|]].
    apply (set_twice_fresh f_id), (ok_follows s Hr).
Qed.

Lemma followStore_reachable : reachable followStore.
Proof. now exists [CreateUser 1000 "h1" alice; CreateUser 1001 "h2" bob;
                   FollowUser 1002 1 (Int 2); FollowUser 1003 1 (Int 2)]. Qed.

Lemma followUser_never_duplicates_for_integer_ids_only_witness :
  followUser followStore 1004 1 (Int 1)
  = (followStore, Threw "Cannot follow yourself")
  /\ follows (fst (followUser (fst (followUser followStore 1004 1 NaN))
                              1005 1 NaN))
     = follows followStore
       ++ [(2, {| f_id := 2; f_followerId := 1; f_followingId := NaN;
                  f_createdAt := 1004 |});
           (3, {| f_id := 3; f_followerId := 1; f_followingId := NaN;
                  f_createdAt := 1005 |})].
Proof.
  pose proof (followUser_never_duplicates_for_integer_ids_only
                followStore 1004 1005 1 followStore_reachable)
    as (H1 & _ & _ & _ & _ & H4).
  split; [exact H1 | exact H4].
Defined.

(** The address [/api/users/abc/follow], asked for twice by Alice, leaves
    two Follow records of Alice for the same followed id. *)
Example followUser_NaN_twice :
  JsMap.values (follows nanFollowStore)
  = [{| f_id := 1; f_followerId := 1; f_followingId := NaN;
        f_createdAt := 1001 |};
     {| f_id := 2; f_followerId := 1; f_followingId := NaN;
        f_createdAt := 1002 |}].
Proof. reflexivity. Qed.

(** ** Users *)

Lemma User_eq_dec (x y : User) : {x = y} + {x <> y}.
Proof.
  decide equality;
    try apply Z.eq_dec; try apply string_dec;
    decide equality; apply string_dec.
Qed.

(** Users are never removed or rewritten. *)
Lemma users_step s op e : store_ok s -> In e (users s) -> In e (users (step s op)).
Proof.
  intros H Hin.
  destruct op; try rewrite step_followUser;
    unfold step, exec, returns; cbn [fst];
    try (unfold updatePost, deletePost, likePost, unlikePost, deleteComment,
         bookmarkPost, unbookmarkPost, unfollowUser, followUser;
         open_op; simpl; auto; fail).
  simpl. apply In_set_fresh; [|now left].
  apply below_fresh. apply (ok_users s H).
Qed.

Lemma users_run ops : forall s e,
  store_ok s -> In e (users s) -> In e (users (run s ops)).
Proof.
  unfold run. induction ops as [|op ops IH]; intros s e H Hin; simpl; [exact Hin|].
  apply IH; [now apply step_ok | now apply users_step].
Qed.

Lemma find_only (P : User -> bool) U l :
  In U l -> P U = true ->
  (forall V, In V l -> V <> U -> P V = false) ->
  find P l = Some U.
Proof.
  intros Hin HP Hothers.
  destruct (find P l) as [V|] eqn:E.
  - apply find_some in E. destruct E as [HV HPV].
    destruct (User_eq_dec V U) as [->|Hne]; [reflexivity|].
    rewrite (Hothers V HV Hne) in HPV. discriminate.
  - rewrite (find_none _ _ E U Hin) in HP. discriminate.
Qed.

(** C8: once [createUser] has returned U, and through any later calls,
    [getUserByEmail(U.email)] and [getUserByUsername(U.username)] return U,
    provided no other stored user shares U's email or username. *)
Theorem createUser_then_found_by_email_and_username s now h d ops :
  reachable s ->
  let U := snd (createUser s now h d) in
  let s' := run (fst (createUser s now h d)) ops in
  (forall V, In V (JsMap.values (users s')) -> V <> U ->
             u_email V <> u_email U /\ u_username V <> u_username U) ->
  getUserByEmail s' (u_email U) = Some U
  /\ getUserByUsername s' (u_username U) = Some U.
Proof.
  intros Hr U s' Hothers. apply reachable_ok in Hr.
  assert (HU : In U (JsMap.values (users s'))).
  { apply In_values. exists (u_id U). apply users_run.
    - now apply createUser_ok.
    - apply get_In. apply get_set_eq. }
  unfold getUserByEmail, getUserByUsername. split; apply find_only; auto.
  - apply String.eqb_refl.
  - intros V HV Hne. apply String.eqb_neq. now apply Hothers.
  - apply String.eqb_refl.
  - intros V HV Hne. apply String.eqb_neq. now apply Hothers.
Qed.

Lemma createUser_then_found_by_email_and_username_witness :
  let U := snd (createUser newMemStorage 1000 "h1" alice) in
  let s' := run (fst (createUser newMemStorage 1000 "h1" alice))
                [CreateUser 1001 "h2" bob; CreatePost 1002 demoPost] in
  getUserByEmail s' "alice@example.com" = Some U
  /\ getUserByUsername s' "alice" = Some U.
Proof.
  apply (createUser_then_found_by_email_and_username
           newMemStorage 1000 "h1" alice
           [CreateUser 1001 "h2" bob; CreatePost 1002 demoPost]).
  - now exists [].
  - simpl. intros V [<-|[<-|[]]] Hne.
    + contradiction.
    + split; discriminate.
Defined.

(** ** Marking messages as read *)

Lemma count_map {A B C : Type} (Q : B -> bool) (R : C -> bool)
    (h : A -> B) (g : A -> C) l :
  (forall v, Q (h v) = R (g v)) ->
  List.length (filter Q (map h l)) = List.length (filter R (map g l)).
Proof.
  intros H. induction l as [|x r IH]; simpl; [reflexivity|].
  rewrite H. destruct (R (g x)); simpl; now rewrite IH.
Qed.

Lemma unreadFrom_true o u msg :
  unreadFrom o u msg = true <->
  m_senderId msg = o /\ m_receiverId msg = u /\ m_isRead msg = false.
Proof.
  unfold unreadFrom. rewrite !andb_true_iff, negb_true_iff, !Z.eqb_eq. tauto.
Qed.

Lemma unread_after_markRead o u msg :
  (m_receiverId (if unreadFrom o u msg then markRead msg else msg) =? u)
  && negb (m_isRead (if unreadFrom o u msg then markRead msg else msg))
  = unreadNotFrom o u msg.
Proof.
  unfold unreadFrom, unreadNotFrom.
  destruct (m_senderId msg =? o), (m_receiverId msg =? u) eqn:Er,
    (m_isRead msg) eqn:Ei; simpl; rewrite ?Er, ?Ei; reflexivity.
Qed.

(** C4: [markMessagesAsRead(u, other)] sets the read flag of every unread
    message from [other] to [u], in place, and changes no other message
    and no other table; it returns [true] exactly when there was such a
    message; afterwards [getUnreadMessageCount(u)] counts only the unread
    messages of other senders, and is 0 when there were none. *)
Theorem markMessagesAsRead_marks_exactly s u other :
  reachable s ->
  let s' := fst (markMessagesAsRead s u other) in
  let changed := snd (markMessagesAsRead s u other) in
  JsMap.keys (messages s') = JsMap.keys (messages s)
  /\ (forall k msg,
        JsMap.get k (messages s) = Some msg ->
        (m_senderId msg = other /\ m_receiverId msg = u /\ m_isRead msg = false ->
         JsMap.get k (messages s') = Some (markRead msg))
        /\ (~ (m_senderId msg = other /\ m_receiverId msg = u
               /\ m_isRead msg = false) ->
            JsMap.get k (messages s') = Some msg))
  /\ s' = withMessages s (messages s')
  /\ (changed = true <->
      exists k msg, In (k, msg) (messages s)
                    /\ m_senderId msg = other /\ m_receiverId msg = u
                    /\ m_isRead msg = false)
  /\ getUnreadMessageCount s' u = numberOf (unreadNotFrom other u) (messages s)
  /\ ((forall k msg, In (k, msg) (messages s) ->
                     m_receiverId msg = u -> m_isRead msg = false ->
                     m_senderId msg = other) ->
      getUnreadMessageCount s' u = O).
Proof.
  intros Hr s' changed. apply reachable_ok in Hr.
  pose proof (markMessagesAsRead_messages s u other Hr) as Hm.
  fold s' in Hm.
  assert (Hcount : getUnreadMessageCount s' u
                   = numberOf (unreadNotFrom other u) (messages s)).
  { unfold getUnreadMessageCount. rewrite Hm, numberOf_filter.
    unfold JsMap.values. rewrite map_map. apply count_map.
    intros [k msg]. unfold rewriteSelected. simpl.
    rewrite <- unread_after_markRead.
    now destruct (unreadFrom other u msg). }
  split; [|split; [|split; [|split; [|split]]]].
  - rewrite Hm. apply keys_rewriteSelected.
  - intros k msg Hget. rewrite Hm, get_rewriteSelected, Hget. simpl.
    split; intros H.
    + apply unreadFrom_true in H. now rewrite H.
    + destruct (unreadFrom other u msg) eqn:E; [|reflexivity].
      apply unreadFrom_true in E. contradiction.
  - reflexivity.
  - unfold changed, markMessagesAsRead. cbn [snd].
    rewrite Nat.ltb_lt. split.
    + intros Hlen.
      destruct (filter _ (JsMap.entries (messages s))) as [|[k msg] r] eqn:E;
        [simpl in Hlen; lia|].
      assert (Hin : In (k, msg) (filter (fun e => unreadFrom other u (snd e))
                                        (JsMap.entries (messages s)))).
      { rewrite E. now left. }
      apply filter_In in Hin. destruct Hin as [Hin HP].
      apply unreadFrom_true in HP. exists k, msg. tauto.
    + intros (k & msg & Hin & Hs & Hrc & Hrd).
      assert (Hin' : In (k, msg) (filter (fun e => unreadFrom other u (snd e))
                                         (JsMap.entries (messages s)))).
      { apply filter_In. split; [exact Hin|]. simpl.
        apply unreadFrom_true. tauto. }
      destruct (filter _ (JsMap.entries (messages s))); [contradiction|].
      simpl. lia.
  - exact Hcount.
  - intros Hall. rewrite Hcount. apply numberOf_none.
    intros k msg Hin. unfold unreadNotFrom.
    destruct (m_receiverId msg =? u) eqn:Er; [|reflexivity].
    destruct (m_isRead msg) eqn:Ei; [reflexivity|]. simpl.
    apply Z.eqb_eq in Er. rewrite (Hall k msg Hin Er Ei).
    now rewrite Z.eqb_refl.
Qed.

Lemma mailStore_reachable : reachable mailStore.
Proof. now exists [CreateUser 1000 "h1" alice; CreateUser 1001 "h2" bob;
                   SendMessage 1002 (note 1 2 "one");
                   SendMessage 1003 (note 1 2 "two");
                   SendMessage 1004 (note 1 2 "three")]. Qed.

Lemma markMessagesAsRead_marks_exactly_witness :
  getUnreadMessageCount mailStore 2 = 3%nat
  /\ snd (markMessagesAsRead mailStore 2 1) = true
  /\ getUnreadMessageCount (fst (markMessagesAsRead mailStore 2 1)) 2 = O.
Proof.
  pose proof (markMessagesAsRead_marks_exactly mailStore 2 1 mailStore_reachable)
    as (_ & _ & _ & Hchanged & _ & Hzero).
  split; [reflexivity | split].
  - apply Hchanged. exists 1, (snd (sendMessage (run newMemStorage
                                     [CreateUser 1000 "h1" alice;
                                      CreateUser 1001 "h2" bob])
                                   1002 (note 1 2 "one"))).
    simpl. auto.
  - apply Hzero. simpl.
    intros k msg [E|[E|[E|[]]]] _ _; injection E as _ <-; reflexivity.
Defined.

(** ** Enriched posts *)

Lemma whenTruthy_true viewer f :
  whenTruthy viewer f = true <-> exists v, viewer = Some v /\ v <> 0 /\ f v = true.
Proof.
  unfold whenTruthy. destruct viewer as [v|].
  - destruct (Z.eqb_spec v 0) as [->|Hne]; split.
    + discriminate.
    + intros (v & E & Hne & _). injection E as <-. contradiction.
    + eauto.
    + intros (v' & E & _ & Hf). injection E as <-. exact Hf.
  - split; [discriminate | intros (v & E & _); discriminate].
Qed.

Lemma isPostBookmarked_true s u p :
  isPostBookmarked s u p = true <->
  exists k b, In (k, b) (bookmarks s) /\ b_userId b = u /\ b_postId b = Int p.
Proof.
  unfold isPostBookmarked. rewrite existsb_exists. split.
  - intros (b & Hin & HP). apply In_values in Hin. destruct Hin as [k Hin].
    apply (hasPair_true b_userId b_postId) in HP. eauto.
  - intros (k & b & Hin & Hu & Hp). exists b. split.
    + apply In_values. eauto.
    + now apply (hasPair_true b_userId b_postId).
Qed.

Lemma isPostLiked_true s u p :
  isPostLiked s u p = true <->
  exists k l, In (k, l) (likes s) /\ l_userId l = u /\ l_postId l = Int p.
Proof.
  unfold isPostLiked. rewrite existsb_exists. split.
  - intros (l & Hin & HP). apply In_values in Hin. destruct Hin as [k Hin].
    apply (hasPair_true l_userId l_postId) in HP. eauto.
  - intros (k & l & Hin & Hu & Hp). exists l. split.
    + apply In_values. eauto.
    + now apply (hasPair_true l_userId l_postId).
Qed.

(** What [getPost] and [getPosts] return is the enrichment of a post that
    is stored under its own id. *)
Lemma returned_is_enriched s viewer e :
  store_ok s ->
  (exists id, getPost s id viewer = Some e)
  \/ (exists limit offset, In e (getPosts s limit offset viewer)) ->
  e = enrichPostWithAuthor s (pw_post e) viewer
  /\ JsMap.get (p_id (pw_post e)) (posts s) = Some (pw_post e)
  /\ p_published (pw_post e) = true.
Proof.
  intros Hok [[id Hget]|(limit & offset & Hin)].
  - unfold getPost in Hget.
    destruct (JsMap.get id (posts s)) as [post|] eqn:E; [|discriminate].
    destruct (p_published post) eqn:Ep; [|discriminate].
    injection Hget as <-. simpl. split; [reflexivity | split; [|assumption]].
    destruct (ok_posts s Hok) as (_ & Hkey & _).
    now rewrite (Hkey id post (get_In _ _ _ E)).
  - pose proof (getPosts_from_store _ _ _ _ _ Hin) as [Hv Hp].
    split; [|split; [|assumption]].
    + unfold getPosts in Hin. apply in_map_iff in Hin.
      destruct Hin as [post [<- _]]. reflexivity.
    + apply In_values in Hv. destruct Hv as [k Hv].
      destruct (ok_posts s Hok) as (Hmap & Hkey & _).
      rewrite (Hkey k _ Hv). now apply In_get.
Qed.

(** *** The store behind the routes *)

Lemma served_reachable s : served s -> reachable s.
Proof.
  induction 1 as [|s op _ IH _]; [now exists [] |].
  now apply (reachable_run s [op]).
Qed.

Lemma served_run ops : forall s,
  served s -> forallb authenticated ops = true -> served (run s ops).
Proof.
  unfold run. induction ops as [|op ops IH]; intros s Hs Hops; [exact Hs|].
  simpl in Hops. apply andb_true_iff in Hops. destruct Hops as [Hop Hops].
  simpl. apply IH; [|exact Hops]. now constructor.
Qed.

(** A Like is stored by a call made for its user. *)
Lemma likes_step s op e :
  In e (likes (step s op)) -> In e (likes s) \/ actor op = Some (l_userId (snd e)).
Proof.
  destruct op; try rewrite step_followUser;
    unfold step, exec, returns; cbn [fst];
    try (unfold createUser, createPost, updatePost, deletePost, createComment,
         deleteComment, bookmarkPost, unbookmarkPost, unfollowUser, followUser,
         sendMessage, markMessagesAsRead;
         open_op; simpl; auto; fail).
  - (* likePost *)
    unfold likePost. destruct (find _ _); simpl; [auto|].
    intros Hin. apply In_set in Hin. destruct Hin as [->|Hin]; auto.
  - (* unlikePost *)
    unfold unlikePost. destruct (find _ _); simpl; [|auto].
    intros Hin. left. eapply In_remove; eauto.
Qed.

(** A Bookmark is stored by a call made for its user. *)
Lemma bookmarks_step s op e :
  In e (bookmarks (step s op)) ->
  In e (bookmarks s) \/ actor op = Some (b_userId (snd e)).
Proof.
  destruct op; try rewrite step_followUser;
    unfold step, exec, returns; cbn [fst];
    try (unfold createUser, createPost, updatePost, deletePost, createComment,
         deleteComment, likePost, unlikePost, unfollowUser, followUser,
         sendMessage, markMessagesAsRead;
         open_op; simpl; auto; fail).
  - (* bookmarkPost *)
    unfold bookmarkPost. destruct (find _ _); simpl; [auto|].
    intros Hin. apply In_set in Hin. destruct Hin as [->|Hin]; auto.
  - (* unbookmarkPost *)
    unfold unbookmarkPost. destruct (find _ _); simpl; [|auto].
    intros Hin. left. eapply In_remove; eauto.
Qed.

(** Behind the routes no Like and no Bookmark is stored for the user
    id 0, which [requireAuth] refuses. *)
Lemma served_users s :
  served s ->
  (forall k l, In (k, l) (likes s) -> l_userId l <> 0)
  /\ (forall k b, In (k, b) (bookmarks s) -> b_userId b <> 0).
Proof.
  induction 1 as [|s op _ [IHl IHb] Hop]; [split; intros k x []|].
  unfold authenticated in Hop. split.
  - intros k l Hin. apply likes_step in Hin. destruct Hin as [Hin|E]; [eauto|].
    rewrite E in Hop. simpl in Hop. intros E0. rewrite E0 in Hop. discriminate.
  - intros k b Hin. apply bookmarks_step in Hin.
    destruct Hin as [Hin|E]; [eauto|].
    rewrite E in Hop. simpl in Hop. intros E0. rewrite E0 in Hop. discriminate.
Qed.

(** C1: behind the routes, for the enriched post that [getPost] or
    [getPosts] returns for the post stored under id p, [likeCount] is the
    number of Like records whose [postId] is p, [commentCount] the number
    of Comment records whose [postId] is p, and [isBookmarked] holds
    exactly when a Bookmark record for (viewer, p) is stored; likewise
    [isLiked] and the Like records. *)
Theorem enriched_counts_match_records s viewer e :
  served s ->
  (exists id, getPost s id viewer = Some e)
  \/ (exists limit offset, In e (getPosts s limit offset viewer)) ->
  let p := p_id (pw_post e) in
  JsMap.get p (posts s) = Some (pw_post e)
  /\ (forall id, getPost s id viewer = Some e -> id = p)
  /\ (forall P : Like -> bool,
        (forall like, P like = true <-> l_postId like = Int p) ->
        pw_likeCount e = numberOf P (likes s))
  /\ (forall P : Comment -> bool,
        (forall comment, P comment = true <-> c_postId comment = p) ->
        pw_commentCount e = numberOf P (comments s))
  /\ (pw_isBookmarked e = true <->
      exists v, viewer = Some v
                /\ exists k b, In (k, b) (bookmarks s)
                               /\ b_userId b = v /\ b_postId b = Int p)
  /\ (pw_isLiked e = true <->
      exists v, viewer = Some v
                /\ exists k l, In (k, l) (likes s)
                               /\ l_userId l = v /\ l_postId l = Int p).
Proof.
  intros Hs Hret p. destruct (served_users s Hs) as [Hlikes Hbookmarks].
  pose proof (reachable_ok s (served_reachable s Hs)) as Hr.
  destruct (returned_is_enriched s viewer e Hr Hret) as (He & Hget & _).
  split; [exact Hget | split; [|split; [|split; [|split]]]].
  - intros id Hid. unfold getPost in Hid.
    destruct (JsMap.get id (posts s)) as [post|] eqn:E; [|discriminate].
    destruct (negb (p_published post)); [discriminate|].
    injection Hid as <-. simpl in *.
    destruct (ok_posts s Hr) as (_ & Hkey & _).
    symmetry. apply (Hkey id post). now apply get_In.
  - intros P HP. rewrite He. simpl. unfold getPostLikeCount.
    rewrite <- numberOf_filter. apply numberOf_ext.
    apply (same_test _ _ (fun like => l_postId like = Int p)); [|exact HP].
    intros like. apply strictEq_Int.
  - intros P HP. rewrite He. simpl. unfold getCommentCount.
    rewrite <- numberOf_filter. apply numberOf_ext.
    apply (same_test _ _ (fun comment => c_postId comment = p)); [|exact HP].
    intros comment. apply Z.eqb_eq.
  - rewrite He. simpl. rewrite whenTruthy_true. split.
    + intros (v & Hv & _ & H). exists v. split; [exact Hv|].
      now apply isPostBookmarked_true.
    + intros (v & Hv & k & b & Hin & Hu & Hp). exists v.
      split; [exact Hv | split].
      * rewrite <- Hu. eauto.
      * apply isPostBookmarked_true. eauto.
  - rewrite He. simpl. rewrite whenTruthy_true. split.
    + intros (v & Hv & _ & H). exists v. split; [exact Hv|].
      now apply isPostLiked_true.
    + intros (v & Hv & k & l & Hin & Hu & Hp). exists v.
      split; [exact Hv | split].
      * rewrite <- Hu. eauto.
      * apply isPostLiked_true. eauto.
Qed.

Lemma demoStore_served : served demoStore.
Proof. now apply served_run; [constructor|]. Qed.

Lemma shelfStore_served : served shelfStore.
Proof. now apply served_run; [apply demoStore_served|]. Qed.

Lemma enriched_counts_match_records_witness :
  exists e,
    getPost shelfStore 1 (Some 2) = Some e
    /\ pw_likeCount e = 1%nat /\ pw_commentCount e = 1%nat
    /\ pw_isLiked e = true /\ pw_isBookmarked e = true
    /\ exists v, Some 2 = Some v
                 /\ exists k b, In (k, b) (bookmarks shelfStore)
                                /\ b_userId b = v /\ b_postId b = Int 1.
Proof.
  eexists. split; [reflexivity|].
  split; [reflexivity | split; [reflexivity|]].
  split; [reflexivity | split; [reflexivity|]].
  pose proof (enriched_counts_match_records shelfStore (Some 2) _
                shelfStore_served (or_introl (ex_intro _ 1 eq_refl)))
    as (_ & _ & _ & _ & Hb & _).
  now apply Hb.
Defined.

(** ** Substrings *)

Module JsStringFacts.
Import JsString.
Local Open Scope string_scope.

Lemma prefix_spec needle : forall hay,
  String.prefix needle hay = true <-> exists suf, hay = needle ++ suf.
Proof.
  induction needle as [|c n IH]; intros hay.
  - split; [intros _; now exists hay | now destruct hay].
  - destruct hay as [|d h]; simpl.
    + split; [discriminate | intros [suf E]; discriminate].
    + destruct (ascii_dec c d) as [->|Hne].
      * rewrite IH. split; intros [suf E]; exists suf; congruence.
      * split; [discriminate | intros [suf E]; congruence].
Qed.

Lemma includes_unfold hay needle :
  includes hay needle =
  if String.prefix needle hay then true
  else match hay with
       | EmptyString => false
       | String _ r => includes r needle
       end.
Proof. now destruct hay. Qed.

Lemma includes_spec needle : forall hay,
  includes hay needle = true <-> Substring needle hay.
Proof.
  unfold Substring.
  induction hay as [|c r IH]; rewrite includes_unfold.
  - destruct (String.prefix needle "") eqn:E.
    + split; [intros _ | reflexivity].
      apply prefix_spec in E. destruct E as [suf E]. now exists "", suf.
    + split; [discriminate|]. intros (pre & suf & H).
      destruct pre; [|discriminate]. simpl in H.
      assert (String.prefix needle "" = true) by (apply prefix_spec; eauto).
      congruence.
  - destruct (String.prefix needle (String c r)) eqn:E.
    + split; [intros _ | reflexivity].
      apply prefix_spec in E. destruct E as [suf E]. now exists "", suf.
    + rewrite IH. split.
      * intros (pre & suf & ->). now exists (String c pre), suf.
      * intros (pre & suf & H). destruct pre as [|c' pre]; simpl in H.
        -- assert (String.prefix needle (String c r) = true)
             by (apply prefix_spec; eauto).
           congruence.
        -- injection H as _ ->. eauto.
Qed.

End JsStringFacts.
Import JsStringFacts.

(** ** Listings *)

Lemma slice_window {A : Type} a n (l : list A) :
  0 <= a -> 0 <= n ->
  JsArray.slice a (a + n) l = firstn (Z.to_nat n) (skipn (Z.to_nat a) l).
Proof.
  intros Ha Hn. unfold JsArray.slice, JsArray.relIndex.
  destruct (Z.ltb_spec a 0); [lia|].
  destruct (Z.ltb_spec (a + n) 0); [lia|].
  set (len := Z.of_nat (List.length l)).
  destruct (Z.le_gt_cases a len) as [Hle|Hgt].
  - rewrite (Z.min_l a len) by assumption.
    destruct (Z.le_gt_cases (a + n) len) as [Hle'|Hgt'].
    + rewrite Z.min_l by assumption. f_equal. lia.
    + rewrite Z.min_r by lia.
      assert (Hlen : List.length (skipn (Z.to_nat a) l) = Z.to_nat (len - a)).
      { rewrite length_skipn. unfold len. lia. }
      rewrite firstn_all2 by lia. rewrite firstn_all2 by lia. reflexivity.
  - rewrite (Z.min_r a len) by lia.
    rewrite (skipn_all2 (n := Z.to_nat len)) by (unfold len; lia).
    rewrite (skipn_all2 (n := Z.to_nat a)) by (unfold len in Hgt; lia).
    now rewrite !firstn_nil.
Qed.

Lemma slice_map {A B : Type} (f : A -> B) a b (l : list A) :
  JsArray.slice a b (map f l) = map f (JsArray.slice a b l).
Proof.
  unfold JsArray.slice. now rewrite length_map, skipn_map, firstn_map.
Qed.

Lemma slice_all {A : Type} n (l : list A) :
  Z.of_nat (List.length l) <= n -> JsArray.slice 0 (0 + n) l = l.
Proof.
  intros H. rewrite slice_window by lia. simpl.
  apply firstn_all2. lia.
Qed.

Lemma pw_post_enriched s viewer l :
  map pw_post (map (fun post => enrichPostWithAuthor s post viewer) l) = l.
Proof. rewrite map_map. simpl. apply map_id. Qed.

Lemma descending_enriched s viewer l :
  descending p_createdAt l ->
  descending (fun e => p_createdAt (pw_post e))
             (map (fun post => enrichPostWithAuthor s post viewer) l).
Proof.
  unfold descending. induction 1 as [|x r Hr IH Hx]; simpl; constructor.
  - exact IH.
  - rewrite Forall_forall in *. intros e He.
    apply in_map_iff in He. destruct He as [post [<- Hp]]. simpl. auto.
Qed.

Lemma length_filter_le {A : Type} (P : A -> bool) l :
  (List.length (filter P l) <= List.length l)%nat.
Proof.
  induction l as [|x r IH]; simpl; [lia|]. destruct (P x); simpl; lia.
Qed.

Lemma tagsInclude_spec tags tag :
  tagsInclude tags tag = true <-> exists ts, tags = Some ts /\ In tag ts.
Proof.
  unfold tagsInclude. destruct tags as [ts|].
  - rewrite existsb_exists. split.
    + intros (t & Hin & E). apply String.eqb_eq in E. subst. eauto.
    + intros (ts' & E & Hin). injection E as <-. exists tag.
      split; [assumption | apply String.eqb_refl].
  - split; [discriminate | intros (ts & E & _); discriminate].
Qed.

Lemma notGiven_spec o : truthyString o = None <-> notGiven o.
Proof.
  unfold truthyString, JsString.orNull, notGiven.
  destruct o as [[|c r]|]; split; try discriminate; auto.
  - intros [E|E]; discriminate.
Qed.

Lemma given_spec o text :
  truthyString o = Some text <-> o = Some text /\ text <> EmptyString.
Proof.
  unfold truthyString, JsString.orNull.
  destruct o as [[|c r]|]; split; try discriminate.
  - intros [E H]. injection E as <-. contradiction.
  - intros E. injection E as <-. split; [reflexivity | discriminate].
  - now intros [-> _].
  - intros [E _]. discriminate.
Qed.

Lemma takenFor_spec parameter default taken :
  takenFor parameter default taken -> orDefault parameter default = taken.
Proof.
  unfold takenFor, orDefault.
  intros [[-> Hne] | [[-> | ->] ->]]; [|reflexivity | reflexivity].
  now destruct (Z.eqb_spec taken 0).
Qed.

Section Search.
Variable toLowerCase : string -> string.

Lemma someTagIncludes_spec tags query :
  someTagIncludes toLowerCase tags (toLowerCase query) = true <->
  exists ts tag, tags = Some ts /\ In tag ts /\ ciSubstring toLowerCase query tag.
Proof.
  unfold someTagIncludes, ciSubstring. destruct tags as [ts|].
  - rewrite existsb_exists. split.
    + intros (t & Hin & E). apply includes_spec in E. eauto.
    + intros (ts' & t & E & Hin & H). injection E as <-. exists t.
      split; [assumption | now apply includes_spec].
  - split; [discriminate | intros (ts & t & E & _); discriminate].
Qed.

Lemma searchMatches_spec query post :
  searchMatches toLowerCase (toLowerCase query) post = true <->
  p_published post = true /\ searchSelects toLowerCase query post.
Proof.
  unfold searchMatches, searchSelects.
  rewrite andb_true_iff, !orb_true_iff, !includes_spec, someTagIncludes_spec.
  unfold ciSubstring. tauto.
Qed.

End Search.

(** The result of a mode that sorts all the posts passing a test: the
    posts passing it, each as often as it is stored, newest first, each
    enriched for the viewer. *)
Lemma listing_of_filter s viewer (Q : Post -> bool) (selected : Post -> Prop) :
  (forall post, Q post = true <-> selected post) ->
  let result :=
    map (fun post => enrichPostWithAuthor s post viewer)
        (JsArray.sort (newestFirst p_createdAt)
                      (filter Q (JsMap.values (posts s)))) in
  (forall post, In post (map pw_post result) <->
                In post (JsMap.values (posts s)) /\ selected post)
  /\ descending (fun e => p_createdAt (pw_post e)) result
  /\ (forall P : Post -> bool,
        (forall post, P post = true <-> selected post) ->
        Permutation (map pw_post result) (filter P (JsMap.values (posts s)))).
Proof.
  intros HQ. cbv zeta. split; [|split].
  - intros post. rewrite pw_post_enriched, In_sort_filter, HQ. tauto.
  - apply descending_enriched, sort_descending.
  - intros P HP. rewrite pw_post_enriched.
    rewrite (filter_ext P Q) by (apply (same_test P Q selected); assumption).
    apply sort_perm.
Qed.

Lemma searchPosts_selects toLowerCase s query viewer :
  (forall post,
      In post (map pw_post (searchPosts toLowerCase s query viewer)) <->
      listed s post /\ searchSelects toLowerCase query post)
  /\ descending (fun e => p_createdAt (pw_post e))
                (searchPosts toLowerCase s query viewer)
  /\ (forall P : Post -> bool,
        (forall post, P post = true <->
                      p_published post = true
                      /\ searchSelects toLowerCase query post) ->
        Permutation (map pw_post (searchPosts toLowerCase s query viewer))
                    (filter P (JsMap.values (posts s)))).
Proof.
  destruct (listing_of_filter s viewer
              (searchMatches toLowerCase (toLowerCase query))
              (fun post => p_published post = true
                           /\ searchSelects toLowerCase query post)
              (searchMatches_spec toLowerCase query))
    as (Hin & Hdesc & Hperm).
  split; [|split; [exact Hdesc | exact Hperm]].
  intros post. unfold searchPosts, listed. rewrite Hin. tauto.
Qed.

Lemma getPostsByTag_selects s tag viewer :
  (forall post,
      In post (map pw_post (getPostsByTag s tag viewer)) <->
      listed s post /\ tagSelects tag post)
  /\ descending (fun e => p_createdAt (pw_post e)) (getPostsByTag s tag viewer)
  /\ (forall P : Post -> bool,
        (forall post, P post = true <->
                      p_published post = true /\ tagSelects tag post) ->
        Permutation (map pw_post (getPostsByTag s tag viewer))
                    (filter P (JsMap.values (posts s)))).
Proof.
  destruct (listing_of_filter s viewer
              (fun post => p_published post && tagsInclude (p_tags post) tag)
              (fun post => p_published post = true /\ tagSelects tag post))
    as (Hin & Hdesc & Hperm).
  { intros post. unfold tagSelects.
    now rewrite andb_true_iff, tagsInclude_spec. }
  split; [|split; [exact Hdesc | exact Hperm]].
  intros post. unfold getPostsByTag, listed. rewrite Hin. tauto.
Qed.

Lemma getPostsByAuthor_selects s authorId viewer :
  (forall post,
      In post (map pw_post (getPostsByAuthor s authorId viewer)) <->
      listed s post /\ p_authorId post = authorId)
  /\ descending (fun e => p_createdAt (pw_post e))
                (getPostsByAuthor s authorId viewer)
  /\ (forall P : Post -> bool,
        (forall post, P post = true <->
                      p_published post = true /\ p_authorId post = authorId) ->
        Permutation (map pw_post (getPostsByAuthor s authorId viewer))
                    (filter P (JsMap.values (posts s)))).
Proof.
  destruct (listing_of_filter s viewer
              (fun post => (p_authorId post =? authorId) && p_published post)
              (fun post => p_published post = true /\ p_authorId post = authorId))
    as (Hin & Hdesc & Hperm).
  { intros post. rewrite andb_true_iff, Z.eqb_eq. tauto. }
  split; [|split; [exact Hdesc | exact Hperm]].
  intros post. unfold getPostsByAuthor, listed. rewrite Hin. tauto.
Qed.

(** The full feed, and the default feed as a slice of it. *)
Lemma getPosts_feed s limit offset viewer :
  let feed := getPosts s (Z.of_nat (List.length (posts s))) 0 viewer in
  (forall post, In post (map pw_post feed) <-> listed s post)
  /\ descending (fun e => p_createdAt (pw_post e)) feed
  /\ (forall P : Post -> bool,
        (forall post, P post = true <-> p_published post = true) ->
        Permutation (map pw_post feed) (filter P (JsMap.values (posts s))))
  /\ getPosts s limit offset viewer = JsArray.slice offset (offset + limit) feed
  /\ (0 <= offset -> 0 <= limit ->
      getPosts s limit offset viewer
      = firstn (Z.to_nat limit) (skipn (Z.to_nat offset) feed)).
Proof.
  cbv zeta.
  destruct (listing_of_filter s viewer (fun post => p_published post)
              (fun post => p_published post = true))
    as (Hin & Hdesc & Hperm); [tauto|].
  assert (Hfeed : getPosts s (Z.of_nat (List.length (posts s))) 0 viewer
                  = map (fun post => enrichPostWithAuthor s post viewer)
                        (JsArray.sort (newestFirst p_createdAt)
                           (filter (fun post => p_published post)
                                   (JsMap.values (posts s))))).
  { unfold getPosts. rewrite slice_all; [reflexivity|].
    rewrite length_sort. unfold JsMap.values.
    pose proof (length_filter_le (fun post => p_published post)
                  (map snd (posts s))) as Hle.
    rewrite length_map in Hle. lia. }
  assert (Hslice : getPosts s limit offset viewer
                   = JsArray.slice offset (offset + limit)
                       (getPosts s (Z.of_nat (List.length (posts s))) 0 viewer)).
  { rewrite Hfeed. unfold getPosts. symmetry. apply slice_map. }
  split; [|split; [|split; [|split]]].
  - intros post. rewrite Hfeed. unfold listed. apply Hin.
  - rewrite Hfeed. exact Hdesc.
  - rewrite Hfeed. exact Hperm.
  - exact Hslice.
  - intros Ho Hl. rewrite Hslice. now apply slice_window.
Qed.

Lemma getPosts_descending s limit offset viewer :
  descending (fun e => p_createdAt (pw_post e)) (getPosts s limit offset viewer).
Proof.
  unfold getPosts. apply descending_enriched, descending_slice.
  apply sort_descending.
Qed.

(** Every entry of a listing is the enrichment of its post for the
    viewer. *)
Lemma listPosts_enriched toLowerCase s q viewer e :
  In e (listPosts toLowerCase s q viewer) ->
  e = enrichPostWithAuthor s (pw_post e) viewer.
Proof.
  assert (H : forall l, In e (map (fun post => enrichPostWithAuthor s post viewer) l) ->
                        e = enrichPostWithAuthor s (pw_post e) viewer).
  { intros l He. apply in_map_iff in He. now destruct He as (post & <- & _). }
  unfold listPosts, searchPosts, getPostsByTag, getPostsByAuthor, getPosts.
  destruct (truthyString (q_search q)); [apply H|].
  destruct (truthyString (q_tag q)); [apply H|].
  destruct (q_authorId q) as [authorId|]; [|apply H].
  destruct (authorId =? 0); apply H.
Qed.

(** C2: whichever mode the query selects, the listing holds only published
    posts of the store, each enriched for the viewer, newest first.  A
    [search] that is given selects the posts in whose title, content or
    tags the query occurs, letter case aside (a query that differs from it
    in letter case only returns the same posts); otherwise a [tag] that is
    given selects the posts that have the tag among their tags, compared
    exactly; otherwise an [authorId] that is a number other than 0 selects
    the posts of that author; these three modes return every selected
    published post, once per stored record, whatever [limit] and [offset]
    are.  Otherwise the listing is the default feed: the [slice] from
    [offset] to [offset + limit] of the feed of all published posts, which
    for bounds that are not negative is the window of [limit] posts after
    the first [offset]; a [limit] that is missing, not a number or 0
    counts as 10, and such an [offset] as 0. *)
Theorem listing_modes_published_newest_first toLowerCase s q viewer :
  let result := listPosts toLowerCase s q viewer in
  (forall e, In e result ->
             listed s (pw_post e)
             /\ e = enrichPostWithAuthor s (pw_post e) viewer)
  /\ descending (fun e => p_createdAt (pw_post e)) result
  /\ (forall search,
        q_search q = Some search -> search <> EmptyString ->
        result = searchPosts toLowerCase s search viewer
        /\ (forall post, In post (map pw_post result) <->
                         listed s post /\ searchSelects toLowerCase search post)
        /\ (forall P : Post -> bool,
              (forall post, P post = true <->
                            p_published post = true
                            /\ searchSelects toLowerCase search post) ->
              Permutation (map pw_post result)
                          (filter P (JsMap.values (posts s))))
        /\ (forall other,
              toLowerCase other = toLowerCase search ->
              searchPosts toLowerCase s other viewer = result)
        /\ (forall limit offset,
              listPosts toLowerCase s (withWindow q limit offset) viewer
              = result))
  /\ (forall tag,
        notGiven (q_search q) -> q_tag q = Some tag -> tag <> EmptyString ->
        result = getPostsByTag s tag viewer
        /\ (forall post, In post (map pw_post result) <->
                         listed s post /\ tagSelects tag post)
        /\ (forall P : Post -> bool,
              (forall post, P post = true <->
                            p_published post = true /\ tagSelects tag post) ->
              Permutation (map pw_post result)
                          (filter P (JsMap.values (posts s))))
        /\ (forall limit offset,
              listPosts toLowerCase s (withWindow q limit offset) viewer
              = result))
  /\ (forall authorId,
        notGiven (q_search q) -> notGiven (q_tag q) ->
        q_authorId q = Int authorId -> authorId <> 0 ->
        result = getPostsByAuthor s authorId viewer
        /\ (forall post, In post (map pw_post result) <->
                         listed s post /\ p_authorId post = authorId)
        /\ (forall P : Post -> bool,
              (forall post, P post = true <->
                            p_published post = true
                            /\ p_authorId post = authorId) ->
              Permutation (map pw_post result)
                          (filter P (JsMap.values (posts s))))
        /\ (forall limit offset,
              listPosts toLowerCase s (withWindow q limit offset) viewer
              = result))
  /\ (forall limit offset,
        notGiven (q_search q) -> notGiven (q_tag q) ->
        q_authorId q = NaN \/ q_authorId q = Int 0 ->
        takenFor (q_limit q) 10 limit -> takenFor (q_offset q) 0 offset ->
        let feed := getPosts s (Z.of_nat (List.length (posts s))) 0 viewer in
        result = getPosts s limit offset viewer
        /\ (forall post, In post (map pw_post feed) <-> listed s post)
        /\ descending (fun e => p_createdAt (pw_post e)) feed
        /\ (forall P : Post -> bool,
              (forall post, P post = true <-> p_published post = true) ->
              Permutation (map pw_post feed)
                          (filter P (JsMap.values (posts s))))
        /\ result = JsArray.slice offset (offset + limit) feed
        /\ (0 <= offset -> 0 <= limit ->
            result = firstn (Z.to_nat limit) (skipn (Z.to_nat offset) feed))).
Proof.
  cbv zeta.
  assert (Hfeed : forall e,
             In e (getPosts s (orDefault (q_limit q) 10)
                            (orDefault (q_offset q) 0) viewer) ->
             listed s (pw_post e))
    by (intros e He; now apply getPosts_from_store in He).
  split; [|split; [|split; [|split; [|split]]]].
  - intros e He. split; [|now apply (listPosts_enriched toLowerCase s q)].
    revert He. unfold listPosts.
    destruct (truthyString (q_search q)) as [search|].
    { intros He. apply (in_map pw_post) in He.
      now apply searchPosts_selects in He. }
    destruct (truthyString (q_tag q)) as [tag|].
    { intros He. apply (in_map pw_post) in He.
      now apply getPostsByTag_selects in He. }
    destruct (q_authorId q) as [authorId|]; [|apply Hfeed].
    destruct (authorId =? 0); [apply Hfeed|].
    intros He. apply (in_map pw_post) in He.
    now apply getPostsByAuthor_selects in He.
  - unfold listPosts.
    destruct (truthyString (q_search q)) as [search|];
      [apply searchPosts_selects|].
    destruct (truthyString (q_tag q)) as [tag|];
      [apply getPostsByTag_selects|].
    destruct (q_authorId q) as [authorId|]; [|apply getPosts_descending].
    destruct (authorId =? 0);
      [apply getPosts_descending | apply getPostsByAuthor_selects].
  - intros search Hq Hne.
    assert (E : truthyString (q_search q) = Some search)
      by now apply given_spec.
    unfold listPosts. simpl. rewrite E.
    split; [reflexivity | split; [apply searchPosts_selects |
      split; [apply searchPosts_selects | split; [|reflexivity]]]].
    intros other Hother. unfold searchPosts. now rewrite Hother.
  - intros tag Hs Hq Hne. apply notGiven_spec in Hs.
    assert (E : truthyString (q_tag q) = Some tag) by now apply given_spec.
    unfold listPosts. simpl. rewrite Hs, E.
    split; [reflexivity | split; [apply getPostsByTag_selects |
      split; [apply getPostsByTag_selects | reflexivity]]].
  - intros authorId Hs Ht Hq Hne.
    apply notGiven_spec in Hs. apply notGiven_spec in Ht.
    unfold listPosts. simpl. rewrite Hs, Ht, Hq.
    destruct (Z.eqb_spec authorId 0); [contradiction|].
    split; [reflexivity | split; [apply getPostsByAuthor_selects |
      split; [apply getPostsByAuthor_selects | reflexivity]]].
  - intros limit offset Hs Ht Hq Hlimit Hoffset.
    apply notGiven_spec in Hs. apply notGiven_spec in Ht.
    apply takenFor_spec in Hlimit. apply takenFor_spec in Hoffset.
    assert (E : listPosts toLowerCase s q viewer
                = getPosts s limit offset viewer).
    { unfold listPosts. rewrite Hs, Ht, Hlimit, Hoffset.
      destruct Hq as [-> | ->]; reflexivity. }
    rewrite E.
    destruct (getPosts_feed s limit offset viewer)
      as (H1 & H2 & H3 & H4 & H5).
    split; [reflexivity | split; [exact H1 | split; [exact H2 |
      split; [exact H3 | split]]]]; assumption.
Qed.

(** ** Conversations *)

Lemma between_otherParty u o msg :
  between u o msg <-> involves u msg = true /\ otherParty u msg = o.
Proof.
  unfold between, involves, otherParty. rewrite orb_true_iff, !Z.eqb_eq.
  destruct (Z.eqb_spec (m_senderId msg) u) as [E|Hne]; split.
  - intros [[_ H]|[H1 H2]]; split; auto; congruence.
  - tauto.
  - intros [[H _]|[H1 H2]]; [contradiction | tauto].
  - intros [[H|H] H']; [contradiction | tauto].
Qed.

Section ConversationMap.
Variable s : MemStorage.
Variable u : Z.

Local Abbreviation unread o :=
  (List.length (filter (unreadFrom o u) (JsMap.values (messages s)))).

Lemma get_addConversation cm message o :
  JsMap.get o (addConversation s u cm message) =
  match JsMap.get o cm with
  | Some e => Some e
  | None => if otherParty u message =? o then Some (message, unread o) else None
  end.
Proof.
  unfold addConversation, JsMap.has.
  destruct (Z.eqb_spec (otherParty u message) o) as [<-|Hne].
  - destruct (JsMap.get (otherParty u message) cm) eqn:E; simpl.
    + exact E.
    + apply get_set_eq.
  - destruct (JsMap.get (otherParty u message) cm) eqn:E; simpl.
    + now destruct (JsMap.get o cm).
    + rewrite get_set_ne by congruence. now destruct (JsMap.get o cm).
Qed.

Lemma ok_addConversation cm message :
  JsMap.ok cm -> JsMap.ok (addConversation s u cm message).
Proof.
  intros H. unfold addConversation.
  destruct (negb _); [now apply ok_set | exact H].
Qed.

(** The first loop keeps, per correspondent, the first message met. *)
Lemma get_conversationMap l : forall cm o,
  JsMap.get o (fold_left (addConversation s u) l cm) =
  match JsMap.get o cm with
  | Some e => Some e
  | None =>
      match find (fun m => otherParty u m =? o) l with
      | Some m => Some (m, unread o)
      | None => None
      end
  end.
Proof.
  induction l as [|x r IH]; intros cm o; simpl.
  - now destruct (JsMap.get o cm).
  - rewrite IH, get_addConversation.
    destruct (JsMap.get o cm); [reflexivity|].
    now destruct (otherParty u x =? o).
Qed.

Lemma ok_conversationMap l : forall cm,
  JsMap.ok cm -> JsMap.ok (fold_left (addConversation s u) l cm).
Proof.
  induction l as [|x r IH]; intros cm H; simpl; [exact H|].
  apply IH. now apply ok_addConversation.
Qed.

Lemma pushConversation_conversationOf acc e :
  pushConversation s acc e = acc ++ conversationOf s e.
Proof.
  destruct e as [o [m n]]. unfold pushConversation, conversationOf. simpl.
  destruct (getUser s o); [reflexivity | now rewrite app_nil_r].
Qed.

(** The second loop, as the concatenation of what each entry pushes. *)
Lemma fold_pushConversation l : forall acc,
  fold_left (pushConversation s) l acc = acc ++ flat_map (conversationOf s) l.
Proof.
  induction l as [|e r IH]; intros acc; simpl.
  - now rewrite app_nil_r.
  - now rewrite IH, pushConversation_conversationOf, app_assoc.
Qed.

Lemma In_conversationOf c e :
  keyed u_id (users s) ->
  In c (conversationOf s e) ->
  party c = fst e
  /\ cv_participant c = summaryOf (getUser s (fst e))
  /\ getUser s (fst e) <> None
  /\ cv_lastMessage c = fst (snd e)
  /\ cv_unreadCount c = snd (snd e).
Proof.
  intros Hkey. unfold conversationOf.
  destruct (getUser s (fst e)) as [p|] eqn:E; [|intros []].
  intros [<-|[]]. unfold party. simpl.
  repeat split; try discriminate.
  apply (Hkey (fst e) p). apply get_In. exact E.
Qed.

Lemma party_flat_map l :
  keyed u_id (users s) ->
  JsMap.ok l ->
  NoDup (map party (flat_map (conversationOf s) l))
  /\ forall o, In o (map party (flat_map (conversationOf s) l)) ->
               In o (JsMap.keys l).
Proof.
  intros Hkey. unfold JsMap.ok.
  induction l as [|e r IH]; simpl; intros Hnd.
  - split; [constructor | tauto].
  - inversion Hnd as [|? ? Hni Hnd']; subst.
    destruct (IH Hnd') as [IH1 IH2].
    rewrite map_app.
    assert (He : forall o, In o (map party (conversationOf s e)) -> o = fst e).
    { intros o Ho. apply in_map_iff in Ho. destruct Ho as [c [<- Hc]].
      now apply In_conversationOf in Hc. }
    split.
    + apply NoDup_app; [| exact IH1 |].
      * unfold conversationOf. destruct (getUser s (fst e)); simpl;
          repeat constructor; simpl; tauto.
      * intros o Ho Ho'. apply He in Ho. subst o. apply Hni. now apply IH2.
    + intros o Ho. apply in_app_iff in Ho.
      destruct Ho as [Ho|Ho]; [left; symmetry; now apply He | right; now apply IH2].
Qed.

End ConversationMap.

(** In a list that is newest first, the first message found is a most
    recent one among those that pass the test. *)
Lemma find_newest (P : Message -> bool) l m :
  descending m_createdAt l -> find P l = Some m ->
  forall m', In m' l -> P m' = true -> m_createdAt m' <= m_createdAt m.
Proof.
  unfold descending. induction 1 as [|x r Hr IH Hx]; simpl; [discriminate|].
  destruct (P x) eqn:E.
  - intros [= <-] m' [<-|Hin] _; [lia|].
    rewrite Forall_forall in Hx. auto.
  - intros Hf m' [<-|Hin] HP; [congruence | auto].
Qed.

Lemma getConversations_unfold s u :
  getConversations s u =
  JsArray.sort (newestFirst (fun c => m_createdAt (cv_lastMessage c)))
    (flat_map (conversationOf s) (conversationMap s u)).
Proof.
  unfold getConversations, JsMap.entries. now rewrite fold_pushConversation.
Qed.

Lemma In_conversationMap s u o m n :
  In (o, (m, n)) (conversationMap s u) <->
  find (fun m => otherParty u m =? o) (userMessages s u) = Some m
  /\ n = List.length (filter (unreadFrom o u) (JsMap.values (messages s))).
Proof.
  assert (Hok : JsMap.ok (conversationMap s u))
    by apply ok_conversationMap, ok_empty.
  pose proof (get_conversationMap s u (userMessages s u) JsMap.empty o) as Hget.
  fold (conversationMap s u) in Hget. simpl in Hget.
  split.
  - intros Hin. apply (In_get _ _ _ Hok) in Hin. rewrite Hin in Hget.
    destruct (find _ (userMessages s u)); [|discriminate].
    injection Hget as -> ->. auto.
  - intros [Hf ->]. rewrite Hf in Hget. now apply get_In.
Qed.

Lemma In_userMessages s u o m :
  In m (userMessages s u) /\ otherParty u m = o <->
  (exists k, In (k, m) (messages s)) /\ between u o m.
Proof.
  unfold userMessages. rewrite In_sort_filter, In_values, between_otherParty.
  tauto.
Qed.

Lemma In_getConversations s u c :
  keyed u_id (users s) ->
  In c (getConversations s u) <->
  exists m,
    find (fun m => otherParty u m =? party c) (userMessages s u) = Some m
    /\ getUser s (party c) <> None
    /\ c = {| cv_participant := summaryOf (getUser s (party c));
              cv_lastMessage := m;
              cv_unreadCount :=
                List.length (filter (unreadFrom (party c) u)
                                    (JsMap.values (messages s))) |}.
Proof.
  intros Hkey. rewrite getConversations_unfold, In_sort, in_flat_map. split.
  - intros [[o [m n]] [He Hc]].
    apply (In_conversationOf s c _ Hkey) in Hc. simpl in Hc.
    destruct Hc as (Hp & Hsum & Hsome & Hlast & Hn).
    apply In_conversationMap in He. destruct He as [Hf ->].
    exists m. rewrite Hp. split; [exact Hf | split; [exact Hsome|]].
    destruct c; simpl in *; congruence.
  - intros (m & Hf & Hsome & Hc).
    exists (party c, (m, List.length (filter (unreadFrom (party c) u)
                                             (JsMap.values (messages s))))).
    split; [now apply In_conversationMap|].
    unfold conversationOf. simpl.
    destruct (getUser s (party c)) as [p|] eqn:E; [|contradiction].
    left. symmetry. exact Hc.
Qed.

(** C3, as the code has it: [getConversations(u)] holds exactly one entry
    per distinct other party of the messages involving u whose id resolves
    to a stored user; each entry carries a most recent message exchanged
    with that party and, as [unreadCount], the number of unread messages
    from that party to u; the list is in descending order of the last
    message's creation time. *)
Theorem getConversations_per_resolving_party s u :
  reachable s ->
  let cs := getConversations s u in
  NoDup (map party cs)
  /\ (forall o,
        In o (map party cs) <->
        (exists k msg, In (k, msg) (messages s) /\ between u o msg)
        /\ getUser s o <> None)
  /\ (forall c, In c cs ->
        cv_participant c = summaryOf (getUser s (party c))
        /\ (exists k, In (k, cv_lastMessage c) (messages s))
        /\ between u (party c) (cv_lastMessage c)
        /\ (forall k msg,
              In (k, msg) (messages s) -> between u (party c) msg ->
              m_createdAt msg <= m_createdAt (cv_lastMessage c))
        /\ cv_unreadCount c = numberOf (unreadFrom (party c) u) (messages s))
  /\ descending (fun c => m_createdAt (cv_lastMessage c)) cs.
Proof.
  intros Hr cs. apply reachable_ok in Hr.
  destruct (ok_users s Hr) as (_ & Hkey & _).
  assert (Hdesc : descending m_createdAt (userMessages s u))
    by apply sort_descending.
  split; [|split; [|split]].
  - unfold cs. rewrite getConversations_unfold.
    eapply Permutation_NoDup.
    + apply Permutation_map. symmetry. apply sort_perm.
    + apply (party_flat_map s (conversationMap s u) Hkey).
      apply ok_conversationMap, ok_empty.
  - intros o. rewrite in_map_iff. split.
    + intros [c [<- Hc]]. apply (In_getConversations s u c Hkey) in Hc.
      destruct Hc as (m & Hf & Hsome & _). split; [|exact Hsome].
      apply find_some in Hf. destruct Hf as [Hin Ho]. apply Z.eqb_eq in Ho.
      destruct (proj1 (In_userMessages s u (party c) m) (conj Hin Ho))
        as [[k Hk] Hb].
      eauto.
    + intros [(k & msg & Hin & Hb) Hsome].
      destruct (proj2 (In_userMessages s u o msg) (conj (ex_intro _ k Hin) Hb))
        as [Hl Ho].
      destruct (find (fun m => otherParty u m =? o) (userMessages s u))
        as [m|] eqn:Hf.
      * set (c := {| cv_participant := summaryOf (getUser s o);
                     cv_lastMessage := m;
                     cv_unreadCount :=
                       List.length (filter (unreadFrom o u)
                                           (JsMap.values (messages s))) |}).
        assert (Hp : party c = o).
        { unfold party, c. simpl. destruct (getUser s o) as [p|] eqn:E;
            [|contradiction].
          simpl. apply (Hkey o p). now apply get_In. }
        exists c. split; [exact Hp|].
        apply (In_getConversations s u c Hkey). rewrite Hp. eauto.
      * pose proof (find_none _ _ Hf msg Hl) as Hno. simpl in Hno.
        rewrite Ho, Z.eqb_refl in Hno. discriminate.
  - intros c Hc. apply (In_getConversations s u c Hkey) in Hc.
    destruct Hc as (m & Hf & Hsome & Hc).
    assert (Hlast : cv_lastMessage c = m) by (rewrite Hc; reflexivity).
    pose proof (find_some _ _ Hf) as [Hin Ho]. apply Z.eqb_eq in Ho.
    destruct (proj1 (In_userMessages s u (party c) m) (conj Hin Ho))
      as [Hstored Hb].
    rewrite Hlast.
    split; [rewrite Hc at 1; reflexivity | split; [exact Hstored | split;
      [exact Hb | split]]].
    + intros k msg Hk Hbm.
      destruct (proj2 (In_userMessages s u (party c) msg)
                  (conj (ex_intro _ k Hk) Hbm)) as [Hl Hom].
      apply (find_newest _ _ _ Hdesc Hf msg Hl). simpl.
      now rewrite Hom, Z.eqb_refl.
    + rewrite numberOf_filter. rewrite Hc at 1. reflexivity.
  - unfold cs, getConversations. apply sort_descending.
Qed.

(** C3 as stated fails when the other party does not resolve to a stored
    user: a message between 1 and 99 is stored, yet the conversations of 1
    have no entry for 99. *)
Lemma getConversations_skips_unresolved_party :
  reachable ghostStore
  /\ (exists k msg, In (k, msg) (messages ghostStore) /\ between 1 99 msg)
  /\ getConversations ghostStore 1 = [].
Proof.
  split; [|split].
  - now exists [CreateUser 1000 "h1" alice; SendMessage 1001 (note 1 99 "anyone?")].
  - do 2 eexists. split; [left; reflexivity | left; split; reflexivity].
  - reflexivity.
Qed.

Lemma getConversations_per_resolving_party_witness :
  map party (getConversations mailStore 2) = [1]
  /\ map cv_unreadCount (getConversations mailStore 2) = [3%nat]
  /\ NoDup (map party (getConversations mailStore 2))
  /\ descending (fun c => m_createdAt (cv_lastMessage c))
                (getConversations mailStore 2).
Proof.
  pose proof (getConversations_per_resolving_party mailStore 2
                mailStore_reachable) as (Hnd & _ & _ & Hdesc).
  split; [reflexivity | split; [reflexivity | split; assumption]].
Defined.

(** ** The scenarios of the specification, evaluated *)

Example scenario_bob_sees_his_like :
  map (fun e => (p_id (pw_post e), pw_likeCount e, pw_isLiked e))
      (getPosts demoStore 10 0 (Some 2))
  = [(1, 1%nat, true)].
Proof. reflexivity. Qed.

Example scenario_no_viewer_sees_no_like :
  map (fun e => (p_id (pw_post e), pw_likeCount e, pw_isLiked e))
      (getPosts demoStore 10 0 None)
  = [(1, 1%nat, false)].
Proof. reflexivity. Qed.

Example scenario_search_ignores_case :
  map (fun e => p_title (pw_post e))
      (searchPosts toLowerCaseAscii demoStore "WOR" None)
  = ["Hello"%string]
  /\ searchPosts toLowerCaseAscii demoStore "xyz" None = [].
Proof. split; reflexivity. Qed.

Example scenario_unread_messages :
  getUnreadMessageCount mailStore 2 = 3%nat
  /\ getUnreadMessageCount (fst (markMessagesAsRead mailStore 2 1)) 2 = O
  /\ map cv_unreadCount
         (getConversations (fst (markMessagesAsRead mailStore 2 1)) 2)
     = [O].
Proof. repeat split. Qed.

Example sort_is_stable :
  JsArray.sort (newestFirst snd) [("a", 1); ("b", 2); ("c", 1); ("d", 2)]%string
  = [("b", 2); ("d", 2); ("a", 1); ("c", 1)]%string.
Proof. reflexivity. Qed.

Example slice_counts_negative_indices_from_the_end :
  JsArray.slice (-1) 9 [1; 2; 3] = [3]
  /\ JsArray.slice 1 3 [1; 2; 3] = [2; 3]
  /\ JsArray.slice 5 15 [1; 2; 3] = [].
Proof. repeat split. Qed.

(** * Further properties *)

(** ** More facts about maps and arrays *)

Section MoreTableFacts.
Context {V : Type}.
Implicit Type m : JsMap.t V.

Lemma values_set_fresh k v m :
  ~ In k (JsMap.keys m) -> JsMap.values (JsMap.set k v m) = JsMap.values m ++ [v].
Proof.
  intros H. rewrite set_fresh by assumption. unfold JsMap.values.
  now rewrite map_app.
Qed.

Lemma numberOf_set_fresh (P : V -> bool) k v m :
  ~ In k (JsMap.keys m) ->
  numberOf P (JsMap.set k v m)
  = (numberOf P m + (if P v then 1 else 0))%nat.
Proof.
  intros H. rewrite set_fresh by assumption.
  induction m as [|[k0 v0] r IH]; simpl.
  - now destruct (P v).
  - simpl in H. rewrite IH by tauto. destruct (P v0); reflexivity.
Qed.

Lemma numberOf_remove (P : V -> bool) k v m :
  JsMap.ok m -> JsMap.get k m = Some v ->
  numberOf P m
  = ((if P v then 1 else 0) + numberOf P (JsMap.remove k m))%nat.
Proof.
  unfold JsMap.ok. induction m as [|[k0 v0] r IH]; simpl; [discriminate|].
  intros Hnd. inversion Hnd as [|? ? Hni Hnd']; subst.
  destruct (Z.eqb_spec k k0) as [->|Hne].
  - intros [= ->]. now destruct (P v).
  - intros Hget. simpl. rewrite (IH Hnd' Hget).
    destruct (P v0), (P v); lia.
Qed.

Lemma In_compact (x : V) l : In x (JsArrayMore.compact l) <-> In (Some x) l.
Proof.
  induction l as [|[y|] r IH]; simpl.
  - tauto.
  - rewrite IH. split; intros [H|H]; auto; left; congruence.
  - rewrite IH. split; [auto | intros [H|H]; [discriminate | auto]].
Qed.

Lemma length_compact (l : list (option V)) :
  (List.length (JsArrayMore.compact l) <= List.length l)%nat.
Proof.
  induction l as [|[y|] r IH]; simpl; lia.
Qed.

Lemma compact_all_some (l : list (option V)) :
  (forall o, In o l -> o <> None) ->
  List.length (JsArrayMore.compact l) = List.length l.
Proof.
  induction l as [|[y|] r IH]; simpl; intros H.
  - reflexivity.
  - f_equal. apply IH. auto.
  - exfalso. apply (H None); auto.
Qed.

Lemma insertSorted_ascending (key : V -> Z) x l :
  ascending key l ->
  ascending key (JsArray.insertSorted (oldestFirst key) x l).
Proof.
  unfold ascending, oldestFirst.
  induction l as [|y r IH]; simpl; intros Hs.
  - repeat constructor.
  - inversion Hs as [|? ? Hr Hy]; subst.
    destruct (Z.leb_spec (key x - key y) 0) as [Hle|Hgt].
    + constructor; [assumption|].
      constructor; [lia|].
      rewrite Forall_forall in *. intros z Hz. specialize (Hy z Hz). lia.
    + constructor; [auto|].
      rewrite Forall_forall in *. intros z Hz.
      apply (Permutation_in _ (insertSorted_perm _ x r)) in Hz.
      destruct Hz as [<-|Hz]; [lia | auto].
Qed.

Lemma sort_ascending (key : V -> Z) l :
  ascending key (JsArray.sort (oldestFirst key) l).
Proof.
  induction l as [|x r IH]; simpl.
  - constructor.
  - now apply insertSorted_ascending.
Qed.

End MoreTableFacts.

Lemma ascending_map {A B : Type} (key : B -> Z) (f : A -> B) l :
  ascending (fun x => key (f x)) l -> ascending key (map f l).
Proof.
  unfold ascending. induction 1 as [|x r Hr IH Hx]; simpl; constructor.
  - exact IH.
  - rewrite Forall_forall in *. intros e He.
    apply in_map_iff in He. destruct He as [y [<- Hy]]. auto.
Qed.

(** ** Comments *)

(** X1: [getComments(p)] lists exactly the stored comments of post p, each
    once per record and with the summary of its author, oldest first, and
    [getCommentCount(p)] is the length of that list. *)
Theorem getComments_lists_what_getCommentCount_counts s p :
  List.length (getComments s p) = getCommentCount s p
  /\ (forall c, In c (map cw_comment (getComments s p)) <->
                (exists k, In (k, c) (comments s)) /\ c_postId c = p)
  /\ (forall cw, In cw (getComments s p) ->
                 cw_author cw = summaryOf (getUser s (c_userId (cw_comment cw))))
  /\ ascending (fun cw => c_createdAt (cw_comment cw)) (getComments s p).
Proof.
  unfold getComments, getCommentCount. split; [|split; [|split]].
  - now rewrite length_map, length_sort.
  - intros c. rewrite map_map. simpl. rewrite map_id.
    rewrite In_sort_filter, In_values, Z.eqb_eq. tauto.
  - intros cw Hin. apply in_map_iff in Hin. destruct Hin as [c [<- _]].
    reflexivity.
  - apply (ascending_map (fun cw => c_createdAt (cw_comment cw))).
    simpl. apply sort_ascending.
Qed.

(** X2: [createComment] stores the comment under the next id, whether or
    not its post or its author exist; the comment count of its post grows
    by one and no other count changes. *)
Theorem createComment_counts_once s now d :
  reachable s ->
  let s' := fst (createComment s now d) in
  let c := snd (createComment s now d) in
  c_id c = cur_comments (currentId s)
  /\ JsMap.get (c_id c) (comments s) = None
  /\ JsMap.get (c_id c) (comments s') = Some c
  /\ In c (map cw_comment (getComments s' (ic_postId d)))
  /\ forall p, getCommentCount s' p
               = (getCommentCount s p
                  + (if (ic_postId d =? p)%Z then 1 else 0))%nat.
Proof.
  intros Hr s' c. apply reachable_ok in Hr.
  destruct (ok_comments s Hr) as (_ & _ & Hb & _).
  pose proof (below_fresh _ _ Hb) as Hfresh.
  split; [reflexivity | split; [|split; [|split]]].
  - now apply get_None.
  - apply get_set_eq.
  - unfold getComments. rewrite map_map. simpl. rewrite map_id.
    apply In_sort_filter. split.
    + apply In_values. exists (c_id c). apply get_In, get_set_eq.
    + apply Z.eqb_refl.
  - intros p. unfold getCommentCount. simpl.
    rewrite <- !numberOf_filter. now rewrite numberOf_set_fresh.
Qed.

Lemma createComment_counts_once_witness :
  getCommentCount (fst (createComment demoStore 1004 demoComment)) 1 = 1%nat
  /\ forall p,
       getCommentCount (fst (createComment demoStore 1004 demoComment)) p
       = (getCommentCount demoStore p + (if (1 =? p)%Z then 1 else 0))%nat.
Proof.
  split; [reflexivity|].
  apply (createComment_counts_once demoStore 1004 demoComment
           demoStore_reachable).
Defined.

(** X3: [deleteComment] returns [false] and leaves the store as it is when
    the id does not resolve or the acting user did not write the comment;
    called by its author it removes that comment and no other, and the
    comment count of its post drops by one. *)
Theorem deleteComment_author_only s id acting :
  reachable s ->
  match JsMap.get id (comments s) with
  | None => deleteComment s id acting = (s, false)
  | Some comment =>
      if c_userId comment =? acting then
        snd (deleteComment s id acting) = true
        /\ JsMap.get id (comments (fst (deleteComment s id acting))) = None
        /\ (forall k, k <> id ->
              JsMap.get k (comments (fst (deleteComment s id acting)))
              = JsMap.get k (comments s))
        /\ getCommentCount s (c_postId comment)
           = S (getCommentCount (fst (deleteComment s id acting))
                                (c_postId comment))
      else deleteComment s id acting = (s, false)
  end.
Proof.
  intros Hr. apply reachable_ok in Hr.
  destruct (ok_comments s Hr) as (Hmap & _).
  unfold deleteComment.
  destruct (JsMap.get id (comments s)) as [comment|] eqn:E; [|reflexivity].
  destruct (c_userId comment =? acting); simpl; [|reflexivity].
  split; [|split; [|split]].
  - unfold JsMap.has. now rewrite E.
  - now apply get_remove_eq.
  - intros k Hne. now apply get_remove_ne.
  - unfold getCommentCount. simpl. rewrite <- !numberOf_filter.
    rewrite (numberOf_remove _ id comment (comments s) Hmap E).
    now rewrite Z.eqb_refl.
Qed.

Lemma commentStore_reachable : reachable commentStore.
Proof. now exists [CreateUser 1000 "h1" alice; CreateUser 1001 "h2" bob;
                   CreatePost 1002 demoPost; CreateComment 1003 demoComment]. Qed.

Lemma deleteComment_author_only_witness :
  deleteComment commentStore 1 1 = (commentStore, false)
  /\ snd (deleteComment commentStore 1 2) = true
  /\ getCommentCount (fst (deleteComment commentStore 1 2)) 1 = O.
Proof.
  split; [|split; [|reflexivity]].
  - exact (deleteComment_author_only commentStore 1 1 commentStore_reachable).
  - exact (proj1 (deleteComment_author_only commentStore 1 2
                    commentStore_reachable)).
Defined.

(** ** Tables of pairs: likes, bookmarks and follows *)

Section PairTable.
Context {V : Type}.
Variable a : V -> Z.
Variable b : V -> JsNumber.
Implicit Type m : JsMap.t V.
Local Abbreviation hasPair := (hasPair a b).

Lemma existsb_hasPair x y m :
  existsb (hasPair x (Int y)) (JsMap.values m) = true <->
  exists k v, In (k, v) m /\ a v = x /\ b v = Int y.
Proof.
  rewrite existsb_exists. split.
  - intros (v & Hin & HP). apply In_values in Hin. destruct Hin as [k Hin].
    apply hasPair_true in HP. exists k, v. tauto.
  - intros (k & v & Hin & Ha & Hb). exists v. split.
    + apply In_values. eauto.
    + now apply hasPair_true.
Qed.

Lemma In_remove_iff k k' v' m :
  JsMap.ok m -> In (k', v') (JsMap.remove k m) <-> In (k', v') m /\ k' <> k.
Proof.
  intros Hok. split.
  - intros H. split; [eapply In_remove; eauto|].
    intros ->. apply (not_In_keys_remove k m Hok). eapply In_keys; eauto.
  - intros [H Hne]. now apply In_remove_ne.
Qed.

(** Once the record of a pair is removed, the pair is gone. *)
Lemma existsb_remove_same y k v m :
  JsMap.ok m -> pairUnique a b m -> In (k, v) m -> b v = Int y ->
  existsb (hasPair (a v) (Int y)) (JsMap.values (JsMap.remove k m)) = false.
Proof.
  intros Hok Hu Hin Hy.
  destruct (existsb _ (JsMap.values (JsMap.remove k m))) eqn:E; [|reflexivity].
  apply existsb_hasPair in E. destruct E as (k' & v' & Hin' & Ha & Hb).
  apply In_remove_iff in Hin'; [|assumption]. destruct Hin' as [Hin' Hne].
  exfalso. apply Hne. eapply Hu; eauto.
Qed.

(** Removing the record of one pair leaves the other pairs as they are. *)
Lemma existsb_remove_other x y k v m :
  JsMap.ok m -> In (k, v) m -> ~ (a v = x /\ b v = Int y) ->
  existsb (hasPair x (Int y)) (JsMap.values (JsMap.remove k m))
  = existsb (hasPair x (Int y)) (JsMap.values m).
Proof.
  intros Hok Hin Hne. apply eq_iff_eq_true. rewrite !existsb_hasPair.
  split.
  - intros (k' & v' & Hin' & Ha & Hb). apply In_remove in Hin'. eauto.
  - intros (k' & v' & Hin' & Ha & Hb). exists k', v'.
    split; [|tauto]. apply In_remove_ne; [|assumption].
    intros ->. apply (In_get _ _ _ Hok) in Hin, Hin'.
    assert (v' = v) by congruence. subst v'. tauto.
Qed.

Lemma existsb_set_fresh x y k v m :
  ~ In k (JsMap.keys m) ->
  existsb (hasPair x y) (JsMap.values (JsMap.set k v m))
  = existsb (hasPair x y) (JsMap.values m) || hasPair x y v.
Proof.
  intros H. rewrite values_set_fresh by assumption.
  rewrite existsb_app. simpl. now rewrite orb_false_r.
Qed.

(** A record for [NaN] is the record of no pair of integers. *)
Lemma existsb_set_NaN x y k v m :
  ~ In k (JsMap.keys m) -> b v = NaN ->
  existsb (hasPair x (Int y)) (JsMap.values (JsMap.set k v m))
  = existsb (hasPair x (Int y)) (JsMap.values m).
Proof.
  intros H Hb. rewrite existsb_set_fresh by assumption.
  assert (E : hasPair x (Int y) v = false).
  { unfold hasPair. rewrite Hb. apply andb_false_r. }
  rewrite E. apply orb_false_r.
Qed.

(** The scan over the entries finds a record when the scan over the values
    says there is one. *)
Lemma find_entry_existsb x y m :
  match find (fun e => hasPair x (Int y) (snd e)) (JsMap.entries m) with
  | Some e => In e m /\ a (snd e) = x /\ b (snd e) = Int y
              /\ existsb (hasPair x (Int y)) (JsMap.values m) = true
  | None => existsb (hasPair x (Int y)) (JsMap.values m) = false
  end.
Proof.
  unfold JsMap.entries.
  destruct (find _ m) as [[k v]|] eqn:E.
  - apply find_some in E. destruct E as [Hin HP]. simpl in *.
    apply hasPair_true in HP. destruct HP as [Ha Hb].
    repeat split; auto. apply existsb_hasPair. eauto.
  - destruct (existsb _ (JsMap.values m)) eqn:Ex; [|reflexivity].
    apply existsb_hasPair in Ex. destruct Ex as (k & v & Hin & Ha & Hb).
    pose proof (find_none _ _ E _ Hin) as HP. simpl in HP.
    assert (hasPair x (Int y) v = true) by now apply hasPair_true.
    congruence.
Qed.

Lemma find_value_existsb x y m :
  match find (hasPair x y) (JsMap.values m) with
  | Some v => existsb (hasPair x y) (JsMap.values m) = true
  | None => existsb (hasPair x y) (JsMap.values m) = false
  end.
Proof.
  destruct (find _ (JsMap.values m)) as [v|] eqn:E.
  - apply find_some in E. apply existsb_exists. eauto.
  - destruct (existsb _ (JsMap.values m)) eqn:Ex; [|reflexivity].
    apply existsb_exists in Ex. destruct Ex as (v & Hin & HP).
    rewrite (find_none _ _ E _ Hin) in HP. discriminate.
Qed.

End PairTable.

Lemma remove_set_fresh {V : Type} k (v : V) (m : JsMap.t V) :
  ~ In k (JsMap.keys m) -> JsMap.remove k (JsMap.set k v m) = m.
Proof.
  induction m as [|[k0 v0] r IH]; simpl; intros H.
  - now rewrite Z.eqb_refl.
  - destruct (Z.eqb_spec k k0) as [->|Hne]; [tauto|].
    simpl. destruct (Z.eqb_spec k k0); [contradiction|].
    f_equal. apply IH. tauto.
Qed.

Lemma length_set_fresh {V : Type} k (v : V) (m : JsMap.t V) :
  ~ In k (JsMap.keys m) -> List.length (JsMap.set k v m) = S (List.length m).
Proof.
  intros H. rewrite set_fresh by assumption. rewrite length_app. simpl. lia.
Qed.

(** ** Liking and unliking *)

Lemma isPostLiked_hasPair s u p :
  isPostLiked s u p
  = existsb (hasPair l_userId l_postId u (Int p)) (JsMap.values (likes s)).
Proof. reflexivity. Qed.

Lemma unlikePost_result s u p :
  snd (unlikePost s u (Int p)) = isPostLiked s u p.
Proof.
  rewrite isPostLiked_hasPair. unfold unlikePost.
  pose proof (find_entry_existsb l_userId l_postId u p (likes s)) as H.
  change (fun e : Z * Like =>
            (l_userId (snd e) =? u) && strictEq (l_postId (snd e)) (Int p))
    with (fun e : Z * Like => hasPair l_userId l_postId u (Int p) (snd e)).
  destruct (find _ (JsMap.entries (likes s))) as [[k v]|].
  - destruct H as (Hin & _ & _ & ->). simpl.
    apply has_true. eapply In_keys; eauto.
  - now rewrite H.
Qed.

Lemma unlikePost_liked s u p k like :
  store_ok s -> In (k, like) (likes s) ->
  l_userId like = u -> l_postId like = Int p ->
  unlikePost s u (Int p) = (withLikes s (JsMap.remove k (likes s)), true).
Proof.
  intros Hok Hin Hu Hp. unfold unlikePost.
  change (fun e : Z * Like =>
            (l_userId (snd e) =? u) && strictEq (l_postId (snd e)) (Int p))
    with (fun e : Z * Like => hasPair l_userId l_postId u (Int p) (snd e)).
  rewrite (find_pair_entry l_userId l_postId u p k like); auto;
    [| apply (ok_likes s Hok) | apply (ok_like_pairs s Hok)].
  simpl. f_equal. apply has_true. eapply In_keys; eauto.
Qed.

Lemma unlikePost_NaN s u : unlikePost s u NaN = (s, false).
Proof.
  unfold unlikePost.
  change (fun e : Z * Like =>
            (l_userId (snd e) =? u) && strictEq (l_postId (snd e)) NaN)
    with (fun e : Z * Like => hasPair l_userId l_postId u NaN (snd e)).
  now rewrite find_entry_NaN.
Qed.

(** X4: for a post id p that is an integer, after [likePost(u, p)] the
    post is liked by u, and its like count has grown by one unless u had
    liked it before; [unlikePost(u, p)] then returns [true], the post is no
    longer liked by u and the count is one lower; when u had not liked the
    post before, the likes are again what they were.  [unlikePost] returns
    whether u had liked the post.  For the id [NaN], [likePost] stores one
    more record, which no post counts and which makes no post liked by
    anyone, and [unlikePost(u, NaN)] returns [false] and leaves that
    record where it is. *)
Theorem likePost_then_unlikePost s now u p :
  reachable s ->
  let liked := isPostLiked s u p in
  let s1 := fst (likePost s now u (Int p)) in
  let s2 := fst (unlikePost s1 u (Int p)) in
  let s3 := fst (likePost s now u NaN) in
  isPostLiked s1 u p = true
  /\ getPostLikeCount s1 p
     = (getPostLikeCount s p + (if liked then 0 else 1))%nat
  /\ snd (unlikePost s1 u (Int p)) = true
  /\ isPostLiked s2 u p = false
  /\ getPostLikeCount s1 p = S (getPostLikeCount s2 p)
  /\ (liked = false -> likes s2 = likes s)
  /\ snd (unlikePost s u (Int p)) = liked
  /\ List.length (likes s3) = S (List.length (likes s))
  /\ (forall u' p', isPostLiked s3 u' p' = isPostLiked s u' p')
  /\ (forall p', getPostLikeCount s3 p' = getPostLikeCount s p')
  /\ unlikePost s3 u NaN = (s3, false).
Proof.
  intros Hr liked s1 s2 s3. apply reachable_ok in Hr.
  pose proof (likePost_ok s now u (Int p) Hr) as Hok1. fold s1 in Hok1.
  destruct (likePost_stored s now u p) as (k & Hin & Hu & Hp).
  fold s1 in Hin. set (like := snd (likePost s now u (Int p))) in *.
  pose proof (unlikePost_liked s1 u p k like Hok1 Hin Hu Hp) as Hun.
  assert (Hliked1 : isPostLiked s1 u p = true).
  { rewrite isPostLiked_hasPair. apply existsb_hasPair. eauto. }
  assert (Hs2 : likes s2 = JsMap.remove k (likes s1)).
  { unfold s2. now rewrite Hun. }
  destruct (ok_likes s Hr) as (Hmap & _ & Hb & _).
  pose proof (below_fresh _ _ Hb) as Hfresh.
  assert (Hcount1 : getPostLikeCount s1 p
                    = (getPostLikeCount s p + (if liked then 0 else 1))%nat
                    /\ (liked = false -> likes s2 = likes s)).
  { unfold liked. rewrite isPostLiked_hasPair. rewrite Hs2.
    revert Hin. unfold s1, like, likePost.
    pose proof (find_value_existsb l_userId l_postId u (Int p) (likes s)) as Hf.
    change (fun like0 : Like =>
              (l_userId like0 =? u) && strictEq (l_postId like0) (Int p))
      with (hasPair l_userId l_postId u (Int p)).
    destruct (find _ (JsMap.values (likes s))) as [existing|]; rewrite Hf; simpl.
    - intros _. split; [lia | discriminate].
    - intros Hin.
      assert (k = cur_likes (currentId s)).
      { apply In_set_fresh in Hin; [|assumption].
        destruct Hin as [Hin|E]; [|congruence].
        exfalso.
        assert (Hv : existsb (hasPair l_userId l_postId u (Int p))
                             (JsMap.values (likes s)) = true).
        { apply existsb_hasPair. exists k. eexists. split; [exact Hin|]. auto. }
        congruence. }
      subst k. split.
      + unfold getPostLikeCount. simpl. rewrite <- !numberOf_filter.
        rewrite numberOf_set_fresh by assumption. simpl.
        now rewrite Z.eqb_refl.
      + intros _. now apply remove_set_fresh. }
  destruct Hcount1 as [Hc1 Hrestore].
  split; [exact Hliked1 | split; [exact Hc1 |
    split; [|split; [|split; [|split; [|split; [|split; [|split; [|split]]]]]]]]].
  - now rewrite Hun.
  - rewrite isPostLiked_hasPair, Hs2, <- Hu.
    apply existsb_remove_same; auto;
      [apply (ok_likes _ Hok1) | apply (ok_like_pairs _ Hok1)].
  - unfold getPostLikeCount. rewrite Hs2, <- !numberOf_filter.
    rewrite (numberOf_remove _ k like (likes s1)).
    + now rewrite Hp, strictEq_refl.
    + apply (ok_likes _ Hok1).
    + apply In_get; [apply (ok_likes _ Hok1) | exact Hin].
  - exact Hrestore.
  - apply unlikePost_result.
  - unfold s3. rewrite likePost_NaN. simpl. now apply length_set_fresh.
  - intros u' p'. unfold s3. rewrite likePost_NaN, !isPostLiked_hasPair. simpl.
    now apply existsb_set_NaN.
  - intros p'. unfold s3. rewrite likePost_NaN. unfold getPostLikeCount. simpl.
    rewrite <- !numberOf_filter. rewrite numberOf_set_fresh by assumption.
    simpl. lia.
  - apply unlikePost_NaN.
Qed.

Lemma likePost_then_unlikePost_witness :
  isPostLiked demoStore 1 1 = false
  /\ isPostLiked (fst (likePost demoStore 1004 1 (Int 1))) 1 1 = true
  /\ getPostLikeCount (fst (likePost demoStore 1004 1 (Int 1))) 1 = 2%nat
  /\ likes (fst (unlikePost (fst (likePost demoStore 1004 1 (Int 1))) 1 (Int 1)))
     = likes demoStore
  /\ List.length (likes (fst (likePost demoStore 1004 1 NaN))) = 2%nat.
Proof.
  pose proof (likePost_then_unlikePost demoStore 1004 1 1 demoStore_reachable)
    as (H1 & _ & _ & _ & _ & H6 & _ & H8 & _).
  split; [reflexivity | split; [exact H1 | split; [reflexivity | split]]].
  - now apply H6.
  - exact H8.
Defined.

(** ** Bookmarking and unbookmarking *)

Lemma isPostBookmarked_hasPair s u p :
  isPostBookmarked s u p
  = existsb (hasPair b_userId b_postId u (Int p)) (JsMap.values (bookmarks s)).
Proof. reflexivity. Qed.

Lemma bookmarkPost_stored s now u p :
  exists k, In (k, snd (bookmarkPost s now u (Int p)))
               (bookmarks (fst (bookmarkPost s now u (Int p))))
            /\ b_userId (snd (bookmarkPost s now u (Int p))) = u
            /\ b_postId (snd (bookmarkPost s now u (Int p))) = Int p.
Proof.
  unfold bookmarkPost.
  destruct (find _ (JsMap.values (bookmarks s))) as [existing|] eqn:E; simpl.
  - apply find_some in E. destruct E as [Hin HP].
    apply In_values in Hin. destruct Hin as [k Hin].
    apply (hasPair_true b_userId b_postId) in HP.
    exists k. tauto.
  - exists (cur_bookmarks (currentId s)). split; [|auto].
    apply get_In, get_set_eq.
Qed.

Lemma bookmarkPost_existing s now u p k existing :
  store_ok s -> In (k, existing) (bookmarks s) ->
  b_userId existing = u -> b_postId existing = Int p ->
  bookmarkPost s now u (Int p) = (s, existing).
Proof.
  intros H Hin Hu Hp. unfold bookmarkPost.
  change (fun bookmark =>
            (b_userId bookmark =? u) && strictEq (b_postId bookmark) (Int p))
    with (hasPair b_userId b_postId u (Int p)).
  rewrite (find_pair b_userId b_postId u p k existing); auto.
  - apply (ok_bookmarks s H).
  - apply (ok_bookmark_pairs s H).
Qed.

(** A call for [NaN] finds no record and stores a new one. *)
Lemma bookmarkPost_NaN s now u :
  bookmarkPost s now u NaN
  = let id := cur_bookmarks (currentId s) in
    let bookmark := {| b_id := id; b_userId := u; b_postId := NaN;
                       b_createdAt := now |} in
    let c := currentId s in
    ({| users := users s; posts := posts s; likes := likes s;
        comments := comments s;
        bookmarks := JsMap.set id bookmark (bookmarks s);
        follows := follows s; messages := messages s;
        currentId := {| cur_users := cur_users c; cur_posts := cur_posts c;
                        cur_likes := cur_likes c;
                        cur_comments := cur_comments c;
                        cur_bookmarks := id + 1;
                        cur_follows := cur_follows c;
                        cur_messages := cur_messages c |} |},
     bookmark).
Proof.
  unfold bookmarkPost.
  change (fun bookmark =>
            (b_userId bookmark =? u) && strictEq (b_postId bookmark) NaN)
    with (hasPair b_userId b_postId u NaN).
  now rewrite find_NaN.
Qed.

Lemma unbookmarkPost_NaN s u : unbookmarkPost s u NaN = (s, false).
Proof.
  unfold unbookmarkPost.
  change (fun e : Z * Bookmark =>
            (b_userId (snd e) =? u) && strictEq (b_postId (snd e)) NaN)
    with (fun e : Z * Bookmark => hasPair b_userId b_postId u NaN (snd e)).
  now rewrite find_entry_NaN.
Qed.

(** X5: for a post id p that is an integer, [bookmarkPost(u, p)] is
    idempotent: a second call returns the record of the first and changes
    nothing, and the post is bookmarked by u, whether or not the post
    exists.  [unbookmarkPost(u, p)] returns whether u had bookmarked p;
    after it p is not bookmarked by u, and every other (user, post) pair is
    bookmarked exactly if it was.  For the id [NaN] every call of
    [bookmarkPost] stores one more record, which makes no post bookmarked
    by anyone, and [unbookmarkPost(u, NaN)] returns [false] and leaves the
    records where they are. *)
Theorem bookmarkPost_idempotent_unbookmarkPost_exact s now now' u p :
  reachable s ->
  let s1 := fst (bookmarkPost s now u (Int p)) in
  let s2 := fst (unbookmarkPost s u (Int p)) in
  let s3 := fst (bookmarkPost s now u NaN) in
  let s4 := fst (bookmarkPost s3 now' u NaN) in
  bookmarkPost s1 now' u (Int p) = (s1, snd (bookmarkPost s now u (Int p)))
  /\ isPostBookmarked s1 u p = true
  /\ snd (unbookmarkPost s u (Int p)) = isPostBookmarked s u p
  /\ isPostBookmarked s2 u p = false
  /\ (forall u' p', (u', p') <> (u, p) ->
                    isPostBookmarked s2 u' p' = isPostBookmarked s u' p')
  /\ List.length (bookmarks s3) = S (List.length (bookmarks s))
  /\ List.length (bookmarks s4) = S (S (List.length (bookmarks s)))
  /\ (forall u' p', isPostBookmarked s4 u' p' = isPostBookmarked s u' p')
  /\ unbookmarkPost s4 u NaN = (s4, false).
Proof.
  intros Hr s1 s2 s3 s4. apply reachable_ok in Hr.
  pose proof (bookmarkPost_ok s now u (Int p) Hr) as Hok1. fold s1 in Hok1.
  pose proof (bookmarkPost_ok s now u NaN Hr) as Hok3. fold s3 in Hok3.
  destruct (bookmarkPost_stored s now u p) as (k & Hin & Hu & Hp).
  fold s1 in Hin.
  pose proof (below_fresh _ _ (proj1 (proj2 (proj2 (ok_bookmarks s Hr)))))
    as Hfresh.
  pose proof (below_fresh _ _ (proj1 (proj2 (proj2 (ok_bookmarks s3 Hok3)))))
    as Hfresh3.
  assert (Hs3 : forall u' p', isPostBookmarked s3 u' p' = isPostBookmarked s u' p').
  { intros u' p'. unfold s3.
    rewrite bookmarkPost_NaN, !isPostBookmarked_hasPair. simpl.
    now apply existsb_set_NaN. }
  assert (Hl3 : List.length (bookmarks s3) = S (List.length (bookmarks s))).
  { unfold s3. rewrite bookmarkPost_NaN. simpl. now apply length_set_fresh. }
  split; [|split; [|split; [|split; [|split; [|split]]]]].
  - now apply (bookmarkPost_existing s1 now' u p k).
  - rewrite isPostBookmarked_hasPair. apply existsb_hasPair. eauto.
  - apply (proj1 (A := snd (unbookmarkPost s u (Int p)) = isPostBookmarked s u p)
             (B := isPostBookmarked s2 u p = false
                   /\ forall u' p', (u', p') <> (u, p) ->
                        isPostBookmarked s2 u' p' = isPostBookmarked s u' p')).
    pose proof (find_entry_existsb b_userId b_postId u p (bookmarks s)) as Hf.
    unfold s2, unbookmarkPost. rewrite !isPostBookmarked_hasPair.
    change (fun e : Z * Bookmark =>
              (b_userId (snd e) =? u) && strictEq (b_postId (snd e)) (Int p))
      with (fun e : Z * Bookmark => hasPair b_userId b_postId u (Int p) (snd e)).
    destruct (find _ (JsMap.entries (bookmarks s))) as [[k0 v0]|].
    + destruct Hf as (Hin0 & Hu0 & Hp0 & Hex). simpl in *.
      split; [|split].
      * rewrite Hex. apply has_true. eapply In_keys; eauto.
      * rewrite <- Hu0. apply existsb_remove_same; auto;
          [apply (ok_bookmarks s Hr) | apply (ok_bookmark_pairs s Hr)].
      * intros u' p' Hne. rewrite !isPostBookmarked_hasPair. simpl.
        apply existsb_remove_other with (v := v0); auto;
          [apply (ok_bookmarks s Hr) |].
        intros [E1 E2]. apply Hne. congruence.
    + simpl. split; [now rewrite Hf | split; [exact Hf | reflexivity]].
  - pose proof (find_entry_existsb b_userId b_postId u p (bookmarks s)) as Hf.
    unfold s2, unbookmarkPost. rewrite !isPostBookmarked_hasPair.
    change (fun e : Z * Bookmark =>
              (b_userId (snd e) =? u) && strictEq (b_postId (snd e)) (Int p))
      with (fun e : Z * Bookmark => hasPair b_userId b_postId u (Int p) (snd e)).
    destruct (find _ (JsMap.entries (bookmarks s))) as [[k0 v0]|].
    + destruct Hf as (Hin0 & Hu0 & Hp0 & Hex). simpl in *.
      rewrite <- Hu0. apply existsb_remove_same; auto;
        [apply (ok_bookmarks s Hr) | apply (ok_bookmark_pairs s Hr)].
    + exact Hf.
  - pose proof (find_entry_existsb b_userId b_postId u p (bookmarks s)) as Hf.
    intros u' p' Hne. unfold s2, unbookmarkPost.
    change (fun e : Z * Bookmark =>
              (b_userId (snd e) =? u) && strictEq (b_postId (snd e)) (Int p))
      with (fun e : Z * Bookmark => hasPair b_userId b_postId u (Int p) (snd e)).
    destruct (find _ (JsMap.entries (bookmarks s))) as [[k0 v0]|];
      [|reflexivity].
    destruct Hf as (Hin0 & Hu0 & Hp0 & Hex). simpl in *.
    rewrite !isPostBookmarked_hasPair. simpl.
    apply existsb_remove_other with (v := v0); auto;
      [apply (ok_bookmarks s Hr) |].
    intros [E1 E2]. apply Hne. congruence.
  - exact Hl3.
  - split; [|split].
    + unfold s4. rewrite bookmarkPost_NaN. simpl.
      rewrite length_set_fresh by assumption. now rewrite Hl3.
    + intros u' p'. rewrite <- Hs3. unfold s4.
      rewrite bookmarkPost_NaN, !isPostBookmarked_hasPair. simpl.
      now apply existsb_set_NaN.
    + apply unbookmarkPost_NaN.
Qed.

Lemma bookmarkPost_idempotent_unbookmarkPost_exact_witness :
  bookmarkPost (fst (bookmarkPost demoStore 1004 2 (Int 1))) 1005 2 (Int 1)
  = (fst (bookmarkPost demoStore 1004 2 (Int 1)),
     snd (bookmarkPost demoStore 1004 2 (Int 1)))
  /\ isPostBookmarked (fst (bookmarkPost demoStore 1004 2 (Int 1))) 2 1 = true
  /\ snd (unbookmarkPost demoStore 2 (Int 1)) = false
  /\ List.length
       (bookmarks (fst (bookmarkPost (fst (bookmarkPost demoStore 1004 2 NaN))
                                     1005 2 NaN)))
     = 2%nat.
Proof.
  pose proof (bookmarkPost_idempotent_unbookmarkPost_exact
                demoStore 1004 1005 2 1 demoStore_reachable)
    as (H1 & H2 & H3 & _ & _ & _ & H7 & _).
  split; [exact H1 | split; [exact H2 | split; [exact H3 | exact H7]]].
Defined.

(** ** Following and unfollowing *)

Lemma isUserFollowing_hasPair s a b :
  isUserFollowing s a b
  = existsb (hasPair f_followerId f_followingId a (Int b))
            (JsMap.values (follows s)).
Proof. reflexivity. Qed.

Lemma followUser_stored s now a b :
  a <> b ->
  exists k follow,
    snd (followUser s now a (Int b)) = Returned follow
    /\ In (k, follow) (follows (fst (followUser s now a (Int b))))
    /\ f_followerId follow = a /\ f_followingId follow = Int b.
Proof.
  intros Hne. unfold followUser. simpl.
  destruct (Z.eqb_spec a b); [contradiction|].
  destruct (find _ (JsMap.values (follows s))) as [existing|] eqn:E; simpl.
  - apply find_some in E. destruct E as [Hin HP].
    apply In_values in Hin. destruct Hin as [k Hin].
    apply (hasPair_true f_followerId f_followingId) in HP.
    exists k, existing. tauto.
  - exists (cur_follows (currentId s)). eexists.
    split; [reflexivity | split; [apply get_In, get_set_eq | auto]].
Qed.

Lemma unfollowUser_following s a b k follow :
  store_ok s -> In (k, follow) (follows s) ->
  f_followerId follow = a -> f_followingId follow = Int b ->
  unfollowUser s a (Int b) = (withFollows s (JsMap.remove k (follows s)), true).
Proof.
  intros Hok Hin Ha Hb. unfold unfollowUser.
  change (fun e : Z * Follow =>
            (f_followerId (snd e) =? a)
            && strictEq (f_followingId (snd e)) (Int b))
    with (fun e : Z * Follow =>
            hasPair f_followerId f_followingId a (Int b) (snd e)).
  rewrite (find_pair_entry f_followerId f_followingId a b k follow); auto;
    [| apply (ok_follows s Hok) | apply (ok_follow_pairs s Hok)].
  simpl. f_equal. apply has_true. eapply In_keys; eauto.
Qed.

Lemma unfollowUser_result s a b :
  snd (unfollowUser s a (Int b)) = isUserFollowing s a b.
Proof.
  rewrite isUserFollowing_hasPair. unfold unfollowUser.
  pose proof (find_entry_existsb f_followerId f_followingId a b (follows s)) as H.
  change (fun e : Z * Follow =>
            (f_followerId (snd e) =? a)
            && strictEq (f_followingId (snd e)) (Int b))
    with (fun e : Z * Follow =>
            hasPair f_followerId f_followingId a (Int b) (snd e)).
  destruct (find _ (JsMap.entries (follows s))) as [[k v]|].
  - destruct H as (Hin & _ & _ & ->). simpl.
    apply has_true. eapply In_keys; eauto.
  - now rewrite H.
Qed.

Lemma unfollowUser_NaN s a : unfollowUser s a NaN = (s, false).
Proof.
  unfold unfollowUser.
  change (fun e : Z * Follow =>
            (f_followerId (snd e) =? a) && strictEq (f_followingId (snd e)) NaN)
    with (fun e : Z * Follow =>
            hasPair f_followerId f_followingId a NaN (snd e)).
  now rewrite find_entry_NaN.
Qed.

(** X6: for integers A <> B, after [followUser(A, B)] A follows B, and B's
    follower count and A's following count have grown by one unless A
    followed B before; [unfollowUser(A, B)] then returns [true] and A no
    longer follows B; when A had not followed B before, the follows are
    again what they were.  [unfollowUser] returns whether A followed B.
    For the followed id [NaN], [followUser(A, NaN)] throws nothing and
    stores one more record: nobody is followed by anyone because of it and
    no follower count changes, yet A's following count is one higher, and
    [unfollowUser(A, NaN)] returns [false] and leaves the record where it
    is. *)
Theorem followUser_then_unfollowUser s now a b :
  reachable s -> a <> b ->
  let following := isUserFollowing s a b in
  let s1 := fst (followUser s now a (Int b)) in
  let s2 := fst (unfollowUser s1 a (Int b)) in
  let s3 := fst (followUser s now a NaN) in
  isUserFollowing s1 a b = true
  /\ getFollowerCount s1 b
     = (getFollowerCount s b + (if following then 0 else 1))%nat
  /\ getFollowingCount s1 a
     = (getFollowingCount s a + (if following then 0 else 1))%nat
  /\ snd (unfollowUser s1 a (Int b)) = true
  /\ isUserFollowing s2 a b = false
  /\ (following = false -> follows s2 = follows s)
  /\ snd (unfollowUser s a (Int b)) = following
  /\ (exists follow, snd (followUser s now a NaN) = Returned follow)
  /\ List.length (follows s3) = S (List.length (follows s))
  /\ (forall a' b', isUserFollowing s3 a' b' = isUserFollowing s a' b')
  /\ (forall b', getFollowerCount s3 b' = getFollowerCount s b')
  /\ getFollowingCount s3 a = S (getFollowingCount s a)
  /\ unfollowUser s3 a NaN = (s3, false).
Proof.
  intros Hr Hne following s1 s2 s3. apply reachable_ok in Hr.
  pose proof (followUser_ok s now a (Int b) Hr) as Hok1. fold s1 in Hok1.
  destruct (followUser_stored s now a b Hne) as (k & follow & _ & Hin & Ha & Hb).
  fold s1 in Hin.
  pose proof (unfollowUser_following s1 a b k follow Hok1 Hin Ha Hb) as Hun.
  assert (Hfollowing1 : isUserFollowing s1 a b = true).
  { rewrite isUserFollowing_hasPair. apply existsb_hasPair. eauto. }
  assert (Hs2 : follows s2 = JsMap.remove k (follows s1)).
  { unfold s2. now rewrite Hun. }
  destruct (ok_follows s Hr) as (Hmap & _ & Hbelow & _).
  pose proof (below_fresh _ _ Hbelow) as Hfresh.
  assert (Hcounts :
            getFollowerCount s1 b
            = (getFollowerCount s b + (if following then 0 else 1))%nat
            /\ getFollowingCount s1 a
               = (getFollowingCount s a + (if following then 0 else 1))%nat
            /\ (following = false -> follows s2 = follows s)).
  { unfold following. rewrite isUserFollowing_hasPair. rewrite Hs2.
    revert Hin. unfold s1, followUser. simpl.
    destruct (Z.eqb_spec a b); [contradiction|].
    pose proof (find_value_existsb f_followerId f_followingId a (Int b)
                  (follows s)) as Hf.
    change (fun follow0 : Follow =>
              (f_followerId follow0 =? a)
              && strictEq (f_followingId follow0) (Int b))
      with (hasPair f_followerId f_followingId a (Int b)).
    destruct (find _ (JsMap.values (follows s))) as [existing|]; rewrite Hf; simpl.
    - intros _. split; [lia | split; [lia | discriminate]].
    - intros Hin.
      assert (k = cur_follows (currentId s)).
      { apply In_set_fresh in Hin; [|assumption].
        destruct Hin as [Hin|E]; [|congruence].
        exfalso.
        assert (Hv : existsb (hasPair f_followerId f_followingId a (Int b))
                             (JsMap.values (follows s)) = true).
        { apply existsb_hasPair. exists k, follow. auto. }
        congruence. }
      subst k. split; [|split].
      + unfold getFollowerCount. simpl. rewrite <- !numberOf_filter.
        rewrite numberOf_set_fresh by assumption. simpl.
        now rewrite Z.eqb_refl.
      + unfold getFollowingCount. simpl. rewrite <- !numberOf_filter.
        rewrite numberOf_set_fresh by assumption. simpl.
        now rewrite Z.eqb_refl.
      + intros _. now apply remove_set_fresh. }
  destruct Hcounts as (Hc1 & Hc2 & Hrestore).
  split; [exact Hfollowing1 | split; [exact Hc1 | split; [exact Hc2 |
    split; [|split; [|split; [|split; [|split; [|split; [|split;
      [|split; [|split]]]]]]]]]]].
  - now rewrite Hun.
  - rewrite isUserFollowing_hasPair, Hs2, <- Ha.
    apply existsb_remove_same; auto;
      [apply (ok_follows _ Hok1) | apply (ok_follow_pairs _ Hok1)].
  - exact Hrestore.
  - apply unfollowUser_result.
  - rewrite followUser_NaN. eexists. reflexivity.
  - unfold s3. rewrite followUser_NaN. simpl. now apply length_set_fresh.
  - intros a' b'. unfold s3.
    rewrite followUser_NaN, !isUserFollowing_hasPair. simpl.
    now apply existsb_set_NaN.
  - intros b'. unfold s3. rewrite followUser_NaN. unfold getFollowerCount. simpl.
    rewrite <- !numberOf_filter. rewrite numberOf_set_fresh by assumption.
    simpl. lia.
  - unfold s3. rewrite followUser_NaN. unfold getFollowingCount. simpl.
    rewrite <- !numberOf_filter. rewrite numberOf_set_fresh by assumption.
    simpl. rewrite Z.eqb_refl. lia.
  - apply unfollowUser_NaN.
Qed.

Lemma followUser_then_unfollowUser_witness :
  isUserFollowing (fst (followUser demoStore 1004 2 (Int 1))) 2 1 = true
  /\ getFollowerCount (fst (followUser demoStore 1004 2 (Int 1))) 1 = 1%nat
  /\ follows (fst (unfollowUser (fst (followUser demoStore 1004 2 (Int 1)))
                                2 (Int 1)))
     = follows demoStore
  /\ getFollowingCount (fst (followUser demoStore 1004 2 NaN)) 2 = 1%nat.
Proof.
  assert (Hne : 2 <> 1) by discriminate.
  pose proof (followUser_then_unfollowUser demoStore 1004 2 1
                demoStore_reachable Hne)
    as (H1 & _ & _ & _ & _ & H6 & _).
  split; [exact H1 | split; [reflexivity | split; [|reflexivity]]].
  now apply H6.
Defined.

Lemma noSelfFollow_step s op :
  noSelfFollow s -> noSelfFollow (step s op).
Proof.
  intros H.
  destruct op; try rewrite step_followUser;
    unfold step, exec, returns; cbn [fst];
    try (unfold updatePost, deletePost, likePost, unlikePost, deleteComment,
         bookmarkPost, unbookmarkPost;
         open_op; simpl; auto; fail).
  - (* followUser *)
    unfold followUser.
    destruct (strictEq (Int followerId) followingId) eqn:Hne; [exact H|].
    destruct (find _ (JsMap.values (follows s))); [exact H|].
    intros k f Hin. simpl in Hin. apply In_set in Hin.
    destruct Hin as [E|Hin]; [|eauto].
    injection E as -> ->. simpl. intros E.
    rewrite <- E in Hne. simpl in Hne. rewrite Z.eqb_refl in Hne. discriminate.
  - (* unfollowUser *)
    unfold unfollowUser.
    destruct (find _ (JsMap.entries (follows s))); [|exact H].
    intros k f Hin. simpl in Hin. apply In_remove in Hin. eauto.
Qed.

Lemma noSelfFollow_run ops : forall s,
  noSelfFollow s -> noSelfFollow (run s ops).
Proof.
  unfold run. induction ops as [|op ops IH]; intros s H; simpl; [exact H|].
  apply IH. now apply noSelfFollow_step.
Qed.

(** X7: no reachable store holds a Follow of a user by that same user: for
    every A, A does not follow A, [unfollowUser(A, A)] returns [false], and
    the profile of A as seen by A has [isFollowing] unset. *)
Theorem nobody_follows_themselves s a :
  reachable s ->
  isUserFollowing s a a = false
  /\ unfollowUser s a (Int a) = (s, false)
  /\ forall profile, getUserProfile s a (Some a) = Some profile ->
                     up_isFollowing profile = false.
Proof.
  intros [ops ->].
  assert (Hno : noSelfFollow (run newMemStorage ops)).
  { apply noSelfFollow_run. intros k f []. }
  set (s := run newMemStorage ops) in *.
  assert (Hf : isUserFollowing s a a = false).
  { rewrite isUserFollowing_hasPair.
    destruct (existsb _ (JsMap.values (follows s))) eqn:E; [|reflexivity].
    apply existsb_hasPair in E. destruct E as (k & f & Hin & Ha & Hb).
    exfalso. apply (Hno k f Hin). congruence. }
  split; [exact Hf | split].
  - unfold unfollowUser.
    pose proof (find_entry_existsb f_followerId f_followingId a a (follows s))
      as H.
    rewrite <- isUserFollowing_hasPair, Hf in H.
    change (fun e : Z * Follow =>
              (f_followerId (snd e) =? a)
              && strictEq (f_followingId (snd e)) (Int a))
      with (fun e : Z * Follow =>
              hasPair f_followerId f_followingId a (Int a) (snd e)).
    destruct (find _ (JsMap.entries (follows s))) as [e|]; [|reflexivity].
    destruct H as (_ & _ & _ & H). discriminate.
  - intros profile Hp. unfold getUserProfile in Hp.
    destruct (JsMap.get a (users s)); [|discriminate].
    injection Hp as <-. simpl. unfold whenTruthy.
    destruct (a =? 0); [reflexivity | exact Hf].
Qed.

Lemma nobody_follows_themselves_witness :
  isUserFollowing followStore 1 1 = false
  /\ unfollowUser followStore 1 (Int 1) = (followStore, false).
Proof.
  pose proof (nobody_follows_themselves followStore 1 followStore_reachable)
    as (H1 & H2 & _).
  split; assumption.
Defined.

(** ** Followers, profiles and suggestions *)

Lemma In_compact_lookup {A V : Type} (found : A -> option V) l v :
  In v (JsArrayMore.compact (map found l)) <->
  exists x, In x l /\ found x = Some v.
Proof.
  rewrite In_compact, in_map_iff. split; intros (x & H1 & H2); eauto.
Qed.

Lemma length_compact_lookup {A V : Type} (found : A -> option V) l :
  (List.length (JsArrayMore.compact (map found l)) <= List.length l)%nat
  /\ ((forall x, In x l -> found x <> None) ->
      List.length (JsArrayMore.compact (map found l)) = List.length l).
Proof.
  split.
  - rewrite <- (length_map found l). apply length_compact.
  - intros H. rewrite compact_all_some; [apply length_map|].
    intros o Ho. apply in_map_iff in Ho. destruct Ho as (x & <- & Hx). auto.
Qed.

Lemma lookup_Some {V : Type} n (m : JsMap.t V) v :
  lookup n m = Some v <-> exists id, n = Int id /\ JsMap.get id m = Some v.
Proof.
  destruct n as [id|]; simpl; split.
  - eauto.
  - intros (id' & E & H). now injection E as ->.
  - discriminate.
  - intros (id & E & _). discriminate.
Qed.

(** X8: [getFollowers(u)] lists the users that the follower ids of u's
    Follow records resolve to, and [getFollowing(u)] those that the ids u
    follows resolve to; ids that do not resolve are dropped, so each list
    is at most as long as the matching count, and exactly as long when
    every id resolves. *)
Theorem getFollowers_getFollowing_list_resolving_users s u :
  (forall v, In v (getFollowers s u) <->
             exists k f, In (k, f) (follows s) /\ f_followingId f = Int u
                         /\ getUser s (f_followerId f) = Some v)
  /\ (List.length (getFollowers s u) <= getFollowerCount s u)%nat
  /\ ((forall k f, In (k, f) (follows s) -> f_followingId f = Int u ->
                   getUser s (f_followerId f) <> None) ->
      List.length (getFollowers s u) = getFollowerCount s u)
  /\ (forall v, In v (getFollowing s u) <->
                exists k f id, In (k, f) (follows s) /\ f_followerId f = u
                               /\ f_followingId f = Int id
                               /\ getUser s id = Some v)
  /\ (List.length (getFollowing s u) <= getFollowingCount s u)%nat
  /\ ((forall k f, In (k, f) (follows s) -> f_followerId f = u ->
                   exists id, f_followingId f = Int id
                              /\ getUser s id <> None) ->
      List.length (getFollowing s u) = getFollowingCount s u).
Proof.
  unfold getFollowers, getFollowing, getFollowerCount, getFollowingCount, getUser.
  rewrite !map_map.
  split; [|split; [|split; [|split; [|split]]]].
  - intros v. rewrite In_compact_lookup. split.
    + intros (f & Hf & Hget). apply filter_In in Hf. destruct Hf as [Hf Hu].
      apply In_values in Hf. destruct Hf as [k Hf].
      apply strictEq_Int in Hu. eauto.
    + intros (k & f & Hin & Hu & Hget). exists f. split; [|assumption].
      apply filter_In. split; [apply In_values; eauto | now apply strictEq_Int].
  - apply (length_compact_lookup (fun x => JsMap.get (f_followerId x) (users s))).
  - intros H.
    apply (length_compact_lookup (fun x => JsMap.get (f_followerId x) (users s))).
    intros f Hf.
    apply filter_In in Hf. destruct Hf as [Hf Hu].
    apply In_values in Hf. destruct Hf as [k Hf].
    apply strictEq_Int in Hu. eauto.
  - intros v. rewrite In_compact_lookup. split.
    + intros (f & Hf & Hget). apply filter_In in Hf. destruct Hf as [Hf Hu].
      apply In_values in Hf. destruct Hf as [k Hf]. apply Z.eqb_eq in Hu.
      apply lookup_Some in Hget. destruct Hget as (id & E & Hget).
      exists k, f, id. auto.
    + intros (k & f & id & Hin & Hu & E & Hget). exists f. split.
      * apply filter_In. split; [apply In_values; eauto | now apply Z.eqb_eq].
      * apply lookup_Some. eauto.
  - apply (length_compact_lookup (fun x => lookup (f_followingId x) (users s))).
  - intros H.
    apply (length_compact_lookup (fun x => lookup (f_followingId x) (users s))).
    intros f Hf.
    apply filter_In in Hf. destruct Hf as [Hf Hu].
    apply In_values in Hf. destruct Hf as [k Hf]. apply Z.eqb_eq in Hu.
    destruct (H k f Hf Hu) as (id & E & Hget). now rewrite E.
Qed.

Lemma length_filter_split {A : Type} (P Q : A -> bool) l :
  List.length (filter P l)
  = (List.length (filter (fun x => P x && Q x) l)
     + List.length (filter (fun x => P x && negb (Q x)) l))%nat.
Proof.
  induction l as [|x r IH]; simpl; [reflexivity|].
  destruct (P x), (Q x); simpl; lia.
Qed.

(** X9: [getUserProfile] is absent exactly when the id does not resolve.
    Its [postCount] counts the unpublished posts of the user too: it is the
    number of posts [getPostsByAuthor] lists plus the number of the user's
    unpublished posts.  [isFollowing] is set exactly when a viewer id is
    supplied, is not 0, and a Follow of the user by the viewer is stored. *)
Theorem getUserProfile_counts_unpublished_posts s id viewer :
  (getUserProfile s id viewer = None <-> getUser s id = None)
  /\ forall profile,
       getUserProfile s id viewer = Some profile ->
       getUser s id = Some (up_user profile)
       /\ (forall anyone,
             up_postCount profile
             = (List.length (getPostsByAuthor s id anyone)
                + numberOf (fun post => ((p_authorId post =? id)%Z
                                         && negb (p_published post))%bool)
                           (posts s))%nat)
       /\ (up_isFollowing profile = true <->
           exists v, viewer = Some v /\ v <> 0
                     /\ exists k f, In (k, f) (follows s)
                                    /\ f_followerId f = v
                                    /\ f_followingId f = Int id).
Proof.
  unfold getUserProfile, getUser.
  destruct (JsMap.get id (users s)) as [user|]; split.
  - split; discriminate.
  - intros profile [= <-]. simpl. split; [reflexivity | split].
    + intros anyone. unfold getPostsByAuthor.
      rewrite length_map, length_sort, numberOf_filter.
      apply length_filter_split.
    + rewrite whenTruthy_true.
      split; intros (v & Hv & Hne & H); exists v;
        (split; [exact Hv | split; [exact Hne|]]).
      * rewrite isUserFollowing_hasPair in H.
        now apply existsb_hasPair in H.
      * rewrite isUserFollowing_hasPair. now apply existsb_hasPair.
  - tauto.
  - discriminate.
Qed.

Lemma slice_prefix {A : Type} n (l : list A) :
  0 <= n -> JsArray.slice 0 n l = firstn (Z.to_nat n) l.
Proof.
  intros Hn. pose proof (slice_window 0 n l (Z.le_refl 0) Hn) as H.
  exact H.
Qed.

Lemma In_firstn {A : Type} n (x : A) l : In x (firstn n l) -> In x l.
Proof.
  intros H. rewrite <- (firstn_skipn n l). apply in_or_app. now left.
Qed.

(** X10: for a limit that is not negative, [getSuggestedAuthors] returns
    at most [limit] profiles, each the profile of a stored user other than
    the caller (none is [undefined]); when the limit is at least the
    number of users, every other user is suggested. *)
Theorem getSuggestedAuthors_other_users_only s userId limit :
  reachable s -> 0 <= limit ->
  let suggested := getSuggestedAuthors s userId limit in
  Z.of_nat (List.length suggested) <= limit
  /\ (forall o, In o suggested ->
        exists profile,
          o = Some profile
          /\ u_id (up_user profile) <> userId
          /\ getUser s (u_id (up_user profile)) = Some (up_user profile))
  /\ (Z.of_nat (List.length (users s)) <= limit ->
      forall k user, In (k, user) (users s) -> k <> userId ->
                     In (getUserProfile s k (Some userId)) suggested).
Proof.
  intros Hr Hlimit suggested. apply reachable_ok in Hr.
  destruct (ok_users s Hr) as (Hmap & Hkey & _).
  unfold suggested, getSuggestedAuthors. rewrite slice_prefix by assumption.
  split; [|split].
  - rewrite length_map, length_firstn. lia.
  - intros o Ho. apply in_map_iff in Ho. destruct Ho as (user & <- & Hu).
    apply In_firstn in Hu. apply filter_In in Hu. destruct Hu as [Hv Hne].
    apply In_values in Hv. destruct Hv as [k Hin].
    pose proof (Hkey k user Hin) as Hid.
    pose proof (In_get k user _ Hmap Hin) as Hget.
    unfold getUserProfile, getUser. rewrite Hid, Hget.
    eexists. split; [reflexivity|]. simpl. split; [|now rewrite Hid].
    apply negb_true_iff, Z.eqb_neq in Hne. exact Hne.
  - intros Hall k user Hin Hne.
    rewrite firstn_all2.
    + apply in_map_iff. exists user. split.
      * now rewrite (Hkey k user Hin).
      * apply filter_In. split; [apply In_values; eauto|].
        apply negb_true_iff, Z.eqb_neq. now rewrite (Hkey k user Hin).
    + pose proof (length_filter_le (fun user => negb (u_id user =? userId))
                    (JsMap.values (users s))) as Hle.
      unfold JsMap.values in Hle at 2. rewrite length_map in Hle. lia.
Qed.

Lemma getSuggestedAuthors_other_users_only_witness :
  map (option_map (fun profile => u_id (up_user profile)))
      (getSuggestedAuthors demoStore 1 5)
  = [Some 2]
  /\ Z.of_nat (List.length (getSuggestedAuthors demoStore 1 5)) <= 5.
Proof.
  split; [reflexivity|].
  assert (H5 : 0 <= 5) by discriminate.
  apply (getSuggestedAuthors_other_users_only demoStore 1 5
           demoStore_reachable H5).
Defined.

(** ** The bookmarks of a user *)

(** X11: [getUserBookmarks(u)] lists the stored posts that u's Bookmark
    records refer to, published or not; bookmarks of posts that no longer
    resolve are dropped, so the list is at most as long as the number of
    u's bookmarks.  Each post is enriched for the viewer u, and for
    u <> 0 its [isBookmarked] flag is set. *)
Theorem getUserBookmarks_lists_stored_posts s u :
  reachable s ->
  (forall post,
      In post (map pw_post (getUserBookmarks s u)) <->
      exists k b p, In (k, b) (bookmarks s) /\ b_userId b = u
                    /\ b_postId b = Int p
                    /\ JsMap.get p (posts s) = Some post)
  /\ (forall e, In e (getUserBookmarks s u) ->
                e = enrichPostWithAuthor s (pw_post e) (Some u)
                /\ (u <> 0 -> pw_isBookmarked e = true))
  /\ (List.length (getUserBookmarks s u)
      <= numberOf (fun b => (b_userId b =? u)%Z) (bookmarks s))%nat.
Proof.
  intros Hr. apply reachable_ok in Hr.
  destruct (ok_posts s Hr) as (_ & Hkey & _).
  assert (Hposts : forall post,
             In post (map pw_post (getUserBookmarks s u)) <->
             exists k b p, In (k, b) (bookmarks s) /\ b_userId b = u
                           /\ b_postId b = Int p
                           /\ JsMap.get p (posts s) = Some post).
  { intros post. unfold getUserBookmarks. rewrite pw_post_enriched.
    rewrite In_compact_lookup. split.
    - intros (b & Hb & Hget). apply In_sort_filter in Hb.
      destruct Hb as [Hb Hu]. apply In_values in Hb. destruct Hb as [k Hb].
      apply Z.eqb_eq in Hu. apply lookup_Some in Hget.
      destruct Hget as (p & E & Hget). exists k, b, p. auto.
    - intros (k & b & p & Hin & Hu & E & Hget). exists b. split.
      + apply In_sort_filter.
        split; [apply In_values; eauto | now apply Z.eqb_eq].
      + apply lookup_Some. eauto. }
  split; [exact Hposts | split].
  - intros e He.
    assert (Henr : e = enrichPostWithAuthor s (pw_post e) (Some u)).
    { unfold getUserBookmarks in He. apply in_map_iff in He.
      destruct He as (post & <- & _). reflexivity. }
    split; [exact Henr|]. intros Hne.
    destruct (proj1 (Hposts (pw_post e)) (in_map pw_post _ _ He))
      as (k & b & p & Hin & Hu & E & Hget).
    rewrite Henr. simpl.
    destruct (Z.eqb_spec u 0); [contradiction|].
    apply isPostBookmarked_true. exists k, b.
    split; [exact Hin | split; [exact Hu|]].
    rewrite E. f_equal.
    symmetry. apply (Hkey _ _ (get_In _ _ _ Hget)).
  - unfold getUserBookmarks. rewrite length_map, numberOf_filter.
    rewrite <- (length_sort (newestFirst b_createdAt)).
    apply (length_compact_lookup (fun b => lookup (b_postId b) (posts s))).
Qed.

Lemma getUserBookmarks_lists_stored_posts_witness :
  map (fun e => (p_id (pw_post e), pw_isBookmarked e))
      (getUserBookmarks (fst (bookmarkPost demoStore 1004 2 (Int 1))) 2)
  = [(1, true)]
  /\ forall e,
       In e (getUserBookmarks (fst (bookmarkPost demoStore 1004 2 (Int 1))) 2) ->
       e = enrichPostWithAuthor (fst (bookmarkPost demoStore 1004 2 (Int 1)))
                                (pw_post e) (Some 2)
       /\ (2 <> 0 -> pw_isBookmarked e = true).
Proof.
  split; [reflexivity|].
  apply (getUserBookmarks_lists_stored_posts
           (fst (bookmarkPost demoStore 1004 2 (Int 1))) 2).
  apply (reachable_run demoStore [BookmarkPost 1004 2 (Int 1)] demoStore_reachable).
Defined.

(** ** Message threads *)

Lemma exchanged_true u o msg : exchanged u o msg = true <-> between u o msg.
Proof.
  unfold exchanged, between.
  rewrite orb_true_iff, !andb_true_iff, !Z.eqb_eq. tauto.
Qed.

Lemma exchanged_sym u o msg : exchanged u o msg = exchanged o u msg.
Proof. unfold exchanged. apply orb_comm. Qed.

Lemma sliceFrom_skipn {A : Type} start (l : list A) :
  JsArrayMore.sliceFrom start l
  = skipn (Z.to_nat (JsArray.relIndex (Z.of_nat (List.length l)) start)) l.
Proof.
  unfold JsArrayMore.sliceFrom. apply firstn_all2.
  rewrite length_skipn. lia.
Qed.

Lemma sliceFrom_zero {A : Type} (l : list A) : JsArrayMore.sliceFrom (- 0) l = l.
Proof.
  rewrite sliceFrom_skipn. unfold JsArray.relIndex. simpl.
  rewrite Z.min_l by lia. reflexivity.
Qed.

(** X12: the thread [getMessages(u, o, 0)] between two users holds exactly
    the stored messages they exchanged, in either direction, oldest first;
    and [getMessages(o, u, limit)] is [getMessages(u, o, limit)]: both
    parties read the same thread. *)
Theorem getMessages_thread_is_shared s u o limit :
  (forall msg, In msg (map mw_message (getMessages s u o 0)) <->
               (exists k, In (k, msg) (messages s)) /\ between u o msg)
  /\ ascending (fun m => m_createdAt (mw_message m)) (getMessages s u o 0)
  /\ (forall m, In m (getMessages s u o limit) ->
                mw_sender m = summaryOf (getUser s (m_senderId (mw_message m))))
  /\ getMessages s o u limit = getMessages s u o limit.
Proof.
  unfold getMessages. split; [|split; [|split]].
  - intros msg. rewrite map_map. simpl map. rewrite map_id.
    rewrite sliceFrom_zero.
    rewrite In_sort_filter, In_values, exchanged_true. tauto.
  - apply (ascending_map (fun m => m_createdAt (mw_message m))). simpl.
    rewrite sliceFrom_zero. apply sort_ascending.
  - intros m Hm. apply in_map_iff in Hm. destruct Hm as (msg & <- & _).
    reflexivity.
  - do 3 f_equal. apply filter_ext. intros msg. apply exchanged_sym.
Qed.

(** X13: for a positive limit [getMessages] returns the last [limit]
    messages of the thread (all of it when it is shorter); the limit 0
    returns the whole thread, not an empty list; a negative limit drops
    that many of the oldest messages. *)
Theorem getMessages_limit s u o limit :
  let thread := getMessages s u o 0 in
  (0 < limit ->
   getMessages s u o limit
   = skipn (List.length thread - Z.to_nat limit) thread)
  /\ (limit < 0 ->
      getMessages s u o limit = skipn (Z.to_nat (- limit)) thread)
  /\ (0 < limit ->
      List.length (getMessages s u o limit)
      = Nat.min (Z.to_nat limit) (List.length thread)).
Proof.
  cbv zeta.
  assert (Hthread : getMessages s u o 0
                    = map (fun message =>
                             {| mw_message := message;
                                mw_sender :=
                                  summaryOf (getUser s (m_senderId message)) |})
                          (JsArray.sort (oldestFirst m_createdAt)
                             (filter (exchanged u o)
                                     (JsMap.values (messages s))))).
  { unfold getMessages. now rewrite sliceFrom_zero. }
  rewrite Hthread. unfold getMessages. rewrite sliceFrom_skipn.
  set (l := JsArray.sort (oldestFirst m_createdAt)
              (filter (exchanged u o) (JsMap.values (messages s)))).
  rewrite length_map. unfold JsArray.relIndex.
  split; [|split].
  - intros Hpos. destruct (Z.ltb_spec (- limit) 0); [|lia].
    rewrite <- skipn_map. f_equal. lia.
  - intros Hneg. destruct (Z.ltb_spec (- limit) 0); [lia|].
    rewrite <- skipn_map.
    destruct (Z.le_gt_cases (- limit) (Z.of_nat (List.length l))) as [Hle|Hgt].
    + now rewrite Z.min_l.
    + rewrite Z.min_r by lia.
      rewrite !skipn_all2; [reflexivity | rewrite length_map; lia | rewrite length_map; lia].
  - intros Hpos. destruct (Z.ltb_spec (- limit) 0); [|lia].
    rewrite length_map, length_skipn. lia.
Qed.

(** ** Sending and reading messages *)

(** X14: [sendMessage] stores the message under the next id, unread unless
    the caller flagged it read, whether or not sender and receiver exist;
    the receiver's unread count grows by one for an unread message and no
    other unread count changes; the message is in the thread of sender and
    receiver. *)
Theorem sendMessage_counts_unread s now d :
  reachable s ->
  let s' := fst (sendMessage s now d) in
  let message := snd (sendMessage s now d) in
  m_id message = cur_messages (currentId s)
  /\ JsMap.get (m_id message) (messages s) = None
  /\ JsMap.get (m_id message) (messages s') = Some message
  /\ (im_isRead d = None -> m_isRead message = false)
  /\ (forall r, getUnreadMessageCount s' r
                = (getUnreadMessageCount s r
                   + (if ((im_receiverId d =? r)%Z
                          && negb (m_isRead message))%bool
                      then 1 else 0))%nat)
  /\ In message
        (map mw_message
             (getMessages s' (im_senderId d) (im_receiverId d) 0)).
Proof.
  intros Hr s' message. apply reachable_ok in Hr.
  destruct (ok_messages s Hr) as (_ & _ & Hb & _).
  pose proof (below_fresh _ _ Hb) as Hfresh.
  split; [reflexivity | split; [|split; [|split; [|split]]]].
  - now apply get_None.
  - apply get_set_eq.
  - intros E. unfold message. simpl. now rewrite E.
  - intros r. unfold getUnreadMessageCount. simpl.
    rewrite <- !numberOf_filter. now rewrite numberOf_set_fresh.
  - unfold getMessages. rewrite map_map. simpl map. rewrite map_id.
    rewrite sliceFrom_zero. apply In_sort_filter. split.
    + apply In_values. exists (m_id message). apply get_In, get_set_eq.
    + apply exchanged_true. left. split; reflexivity.
Qed.

Lemma sendMessage_counts_unread_witness :
  getUnreadMessageCount (fst (sendMessage mailStore 1005 (note 1 2 "four"))) 2
  = 4%nat
  /\ forall r,
       getUnreadMessageCount
         (fst (sendMessage mailStore 1005 (note 1 2 "four"))) r
       = (getUnreadMessageCount mailStore r
          + (if ((2 =? r)%Z && true)%bool then 1 else 0))%nat.
Proof.
  split; [reflexivity|].
  apply (sendMessage_counts_unread mailStore 1005 (note 1 2 "four")
           mailStore_reachable).
Defined.

Lemma none_unread_after_marking u other (m : JsMap.t Message) :
  filter (fun e => unreadFrom other u (snd e))
         (map (rewriteSelected (fun e => unreadFrom other u (snd e)) markRead) m)
  = [].
Proof.
  induction m as [|[k msg] r IH]; simpl; [reflexivity|].
  unfold rewriteSelected at 1. simpl.
  destruct (unreadFrom other u msg) eqn:E; simpl.
  - replace (unreadFrom other u (markRead msg)) with false; [exact IH|].
    unfold unreadFrom. simpl. now rewrite andb_false_r.
  - rewrite E. exact IH.
Qed.

(** X15: [markMessagesAsRead] is idempotent: called again with the same
    arguments it returns [false] and leaves the store as the first call
    left it. *)
Theorem markMessagesAsRead_twice s u other :
  reachable s ->
  let s1 := fst (markMessagesAsRead s u other) in
  markMessagesAsRead s1 u other = (s1, false).
Proof.
  intros Hr s1. apply reachable_ok in Hr.
  pose proof (markMessagesAsRead_messages s u other Hr) as Hm. fold s1 in Hm.
  unfold markMessagesAsRead at 1. unfold JsMap.entries.
  rewrite Hm, none_unread_after_marking. simpl. now rewrite <- Hm.
Qed.

Lemma markMessagesAsRead_twice_witness :
  markMessagesAsRead (fst (markMessagesAsRead mailStore 2 1)) 2 1
  = (fst (markMessagesAsRead mailStore 2 1), false).
Proof.
  apply (markMessagesAsRead_twice mailStore 2 1 mailStore_reachable).
Defined.

(** ** Creating posts and paging through the feed *)

(** X16: [createPost] stores the post under the next id, which no post had
    before, and leaves the other posts alone; [getPost] then returns the
    new post, enriched, unless it was created with [published] unset, in
    which case it is absent. *)
Theorem createPost_then_getPost s now d viewer :
  reachable s ->
  let s' := fst (createPost s now d) in
  let post := snd (createPost s now d) in
  p_id post = cur_posts (currentId s)
  /\ JsMap.get (p_id post) (posts s) = None
  /\ JsMap.get (p_id post) (posts s') = Some post
  /\ (forall k, k <> p_id post ->
                JsMap.get k (posts s') = JsMap.get k (posts s))
  /\ getPost s' (p_id post) viewer
     = (if match ip_published d with Some b => b | None => true end
        then Some (enrichPostWithAuthor s' post viewer)
        else None)
  /\ (ip_published d <> Some false ->
      In post (map pw_post
                   (getPosts s' (Z.of_nat (List.length (posts s'))) 0 viewer))).
Proof.
  intros Hr s' post. apply reachable_ok in Hr.
  destruct (ok_posts s Hr) as (_ & _ & Hb & _).
  pose proof (below_fresh _ _ Hb) as Hfresh.
  assert (Hget : JsMap.get (p_id post) (posts s') = Some post)
    by apply get_set_eq.
  split; [reflexivity | split; [|split; [exact Hget | split; [|split]]]].
  - now apply get_None.
  - intros k Hne. simpl. now apply get_set_ne.
  - unfold getPost. rewrite Hget. unfold post at 1. simpl.
    now destruct (ip_published d) as [[|]|].
  - intros Hpub. unfold getPosts. rewrite pw_post_enriched.
    rewrite slice_all.
    + apply In_sort_filter. split.
      * apply In_values. exists (p_id post). now apply get_In.
      * unfold post. simpl. destruct (ip_published d) as [[|]|]; congruence.
    + rewrite length_sort.
      pose proof (length_filter_le (fun post => p_published post)
                    (JsMap.values (posts s'))) as Hle.
      unfold JsMap.values in Hle at 2. rewrite length_map in Hle. lia.
Qed.

Lemma createPost_then_getPost_witness :
  option_map (fun e => p_title (pw_post e))
             (getPost (fst (createPost demoStore 1004 demoPost)) 2 None)
  = Some "Hello"%string
  /\ JsMap.get 2 (posts demoStore) = None.
Proof.
  pose proof (createPost_then_getPost demoStore 1004 demoPost None
                demoStore_reachable) as (_ & H2 & _).
  split; [reflexivity | exact H2].
Defined.

Lemma firstn_app_skipn {A : Type} a b (l : list A) :
  firstn a l ++ firstn b (skipn a l) = firstn (a + b) l.
Proof.
  revert l. induction a as [|a IH]; intros l; simpl; [reflexivity|].
  destruct l as [|x r]; simpl.
  - now rewrite firstn_nil.
  - f_equal. apply IH.
Qed.

(** X17: consecutive pages of the default feed join up: for bounds that
    are not negative, the page of [limit] posts at [offset] followed by
    the page of [limit'] posts at [offset + limit] is the page of
    [limit + limit'] posts at [offset]; no post is skipped or repeated
    between two pages. *)
Theorem getPosts_pages_join s limit limit' offset viewer :
  0 <= offset -> 0 <= limit -> 0 <= limit' ->
  getPosts s limit offset viewer ++ getPosts s limit' (offset + limit) viewer
  = getPosts s (limit + limit') offset viewer.
Proof.
  intros Ho Hl Hl'. unfold getPosts.
  rewrite !slice_window by lia.
  rewrite <- map_app. f_equal.
  replace (Z.to_nat (offset + limit)) with (Z.to_nat limit + Z.to_nat offset)%nat
    by lia.
  rewrite <- skipn_skipn.
  replace (Z.to_nat (limit + limit')) with (Z.to_nat limit + Z.to_nat limit')%nat
    by lia.
  apply firstn_app_skipn.
Qed.

Lemma getPosts_pages_join_witness :
  getPosts demoStore 1 0 None ++ getPosts demoStore 1 (0 + 1) None
  = getPosts demoStore (1 + 1) 0 None.
Proof.
  apply (getPosts_pages_join demoStore 1 1 0 None); discriminate.
Defined.

(** ** The update, delete and register handlers *)

Lemma summary_id s x :
  store_ok s ->
  a_id (summaryOf (getUser s x))
  = match getUser s x with Some _ => x | None => 0 end.
Proof.
  intros Hok. unfold getUser.
  destruct (JsMap.get x (users s)) as [author|] eqn:E; [|reflexivity].
  simpl. destruct (ok_users s Hok) as (_ & Hkey & _).
  apply (Hkey x author). now apply get_In.
Qed.

(** X18: [PUT /api/posts/:id] answers 200 exactly when the session has a
    user id other than 0, the body passes the schema, the post is stored
    and published, and its author is the session user and resolves to a
    stored user; it then does what [updatePost] does.  In every other case
    it refuses and leaves the store as it is: with 401 when the session
    has no user id or the id 0, else with 400 when the body does not pass
    the schema, else with 404; it never answers 500.  In particular an
    unpublished post cannot be updated, and so not published again, even
    by its author. *)
Theorem putPost_only_published_posts_of_the_session_user s now session id body :
  reachable s ->
  ((exists answer, snd (putPost s now session id body) = Body 200 answer) <->
   exists u data post,
     session = Some u /\ u <> 0 /\ body = Some data
     /\ JsMap.get id (posts s) = Some post /\ p_published post = true
     /\ p_authorId post = u /\ getUser s u <> None)
  /\ (forall data answer,
        body = Some data ->
        snd (putPost s now session id body) = Body 200 answer ->
        putPost s now session id body
        = (fst (updatePost s now id data), Body 200 (snd (updatePost s now id data)))
        /\ answer <> None)
  /\ (forall status message,
        snd (putPost s now session id body) = Refusal status message ->
        fst (putPost s now session id body) = s
        /\ ((status = 401 /\ message = "Authentication required"%string
             /\ (session = None \/ session = Some 0))
            \/ (status = 400 /\ message = "Invalid input"%string
                /\ (exists u, session = Some u /\ u <> 0) /\ body = None)
            \/ (status = 404
                /\ message = "Post not found or not authorized"%string
                /\ (exists u, session = Some u /\ u <> 0) /\ body <> None)))
  /\ (forall post,
        JsMap.get id (posts s) = Some post -> p_published post = false ->
        fst (putPost s now session id body) = s).
Proof.
  intros Hr. apply reachable_ok in Hr.
  unfold putPost, requireAuth.
  destruct session as [u|].
  2:{ simpl. split; [|split; [|split]].
      - split; [intros [answer H]; discriminate
               | intros (u & data & post & H & _); discriminate].
      - intros data answer _ H. discriminate.
      - intros status message [= <- <-]. split; [reflexivity|].
        left. auto.
      - reflexivity. }
  destruct (Z.eqb_spec u 0) as [->|Hne].
  { simpl. split; [|split; [|split]].
    - split; [intros [answer H]; discriminate
             | intros (u & data & post & [= <-] & H & _); contradiction].
    - intros data answer _ H. discriminate.
    - intros status message [= <- <-]. split; [reflexivity|].
      left. auto.
    - reflexivity. }
  assert (Hu : exists u', Some u = Some u' /\ u' <> 0) by eauto.
  destruct body as [data|].
  2:{ simpl. split; [|split; [|split]].
      - split; [intros [answer H]; discriminate
               | intros (u' & data & post & _ & _ & H & _); discriminate].
      - intros data answer H. discriminate.
      - intros status message [= <- <-]. split; [reflexivity|].
        right. left. auto.
      - reflexivity. }
  assert (Hbody : Some data <> None) by discriminate.
  unfold getPost.
  destruct (JsMap.get id (posts s)) as [post|] eqn:E.
  2:{ simpl. split; [|split; [|split]].
      - split; [intros [answer H]; discriminate
               | intros (u' & data' & post & _ & _ & _ & H & _); discriminate].
      - intros data' answer _ H. discriminate.
      - intros status message [= <- <-]. split; [reflexivity|].
        right. right. auto.
      - reflexivity. }
  destruct (p_published post) eqn:Ep; simpl.
  2:{ split; [|split; [|split]].
      - split; [intros [answer H]; discriminate|].
        intros (u' & data' & post' & _ & _ & _ & [= <-] & H & _). congruence.
      - intros data' answer _ H. discriminate.
      - intros status message [= <- <-]. split; [reflexivity|].
        right. right. auto.
      - reflexivity. }
  fold (getUser s (p_authorId post)). rewrite (summary_id s _ Hr).
  destruct (getUser s (p_authorId post)) as [author|] eqn:Ea.
  - destruct (Z.eqb_spec (p_authorId post) u) as [Hau|Hau]; simpl.
    + unfold updatePost. rewrite E. simpl.
      split; [|split; [|split]].
      * split; [intros _ | eauto].
        exists u, data, post. repeat split; auto.
        rewrite <- Hau, Ea. discriminate.
      * intros data' answer [= <-] [= <-]. split; [reflexivity | discriminate].
      * intros status message H. discriminate.
      * intros post' [= <-] H. congruence.
    + split; [|split; [|split]].
      * split; [intros [answer H]; discriminate|].
        intros (u' & data' & post' & [= <-] & _ & _ & [= <-] & _ & H & _).
        contradiction.
      * intros data' answer _ H. discriminate.
      * intros status message [= <- <-]. split; [reflexivity|].
        right. right. auto.
      * reflexivity.
  - destruct (Z.eqb_spec 0 u) as [Hau|Hau]; [congruence|]. simpl.
    split; [|split; [|split]].
    + split; [intros [answer H]; discriminate|].
      intros (u' & data' & post' & [= <-] & _ & _ & [= <-] & _ & H & Hsome).
      rewrite <- H, Ea in Hsome. contradiction.
    + intros data' answer _ H. discriminate.
    + intros status message [= <- <-]. split; [reflexivity|].
      right. right. auto.
    + reflexivity.
Qed.

Lemma putPost_only_published_posts_of_the_session_user_witness :
  (exists answer,
      snd (putPost demoStore 1004 (Some 1) 1 (Some retitle)) = Body 200 answer)
  /\ snd (putPost demoStore 1004 (Some 2) 1 (Some retitle))
     = Refusal 404 "Post not found or not authorized"
  /\ snd (putPost demoStore 1004 (Some 1) 1 None) = Refusal 400 "Invalid input".
Proof.
  pose proof (putPost_only_published_posts_of_the_session_user
                demoStore 1004 (Some 1) 1 (Some retitle) demoStore_reachable)
    as (H1 & _).
  split; [|split; reflexivity].
  apply H1. do 3 eexists.
  split; [reflexivity | split; [discriminate | split; [reflexivity |
    split; [reflexivity | split; [reflexivity |
      split; [reflexivity | discriminate]]]]]].
Defined.

(** X19: [DELETE /api/posts/:id] answers 200 exactly when the session has
    a user id other than 0 and that user is the author of the stored post,
    published or not, and then the post is gone; in every other case it
    refuses with 401 or 404 and leaves the store as it is. *)
Theorem deletePostRoute_author_only s session id :
  reachable s ->
  ((exists body, snd (deletePostRoute s session id) = Body 200 body) <->
   exists u post,
     session = Some u /\ u <> 0
     /\ JsMap.get id (posts s) = Some post /\ p_authorId post = u)
  /\ (forall body,
        snd (deletePostRoute s session id) = Body 200 body ->
        JsMap.get id (posts (fst (deletePostRoute s session id))) = None)
  /\ (forall status message,
        snd (deletePostRoute s session id) = Refusal status message ->
        fst (deletePostRoute s session id) = s
        /\ (status = 401 \/ status = 404)).
Proof.
  intros Hr. apply reachable_ok in Hr.
  destruct (ok_posts s Hr) as (Hmap & _).
  unfold deletePostRoute, requireAuth.
  destruct session as [u|].
  2:{ simpl. split; [|split].
      - split; [intros [body H]; discriminate
               | intros (u & post & H & _); discriminate].
      - intros body H. discriminate.
      - intros status message [= <- _]. auto. }
  destruct (Z.eqb_spec u 0) as [->|Hne].
  { simpl. split; [|split].
    - split; [intros [body H]; discriminate
             | intros (u & post & [= <-] & H & _); contradiction].
    - intros body H. discriminate.
    - intros status message [= <- _]. auto. }
  unfold deletePost.
  destruct (JsMap.get id (posts s)) as [post|] eqn:E.
  2:{ simpl. split; [|split].
      - split; [intros [body H]; discriminate
               | intros (u' & post & _ & _ & H & _); discriminate].
      - intros body H. discriminate.
      - intros status message [= <- _]. auto. }
  destruct (Z.eqb_spec (p_authorId post) u) as [Hu|Hu]; simpl.
  - unfold JsMap.has. rewrite E. simpl. split; [|split].
    + split; [intros _ | eauto]. exists u, post. auto.
    + intros body _. now apply get_remove_eq.
    + intros status message H. discriminate.
  - split; [|split].
    + split; [intros [body H]; discriminate|].
      intros (u' & post' & [= <-] & _ & [= <-] & H). contradiction.
    + intros body H. discriminate.
    + intros status message [= <- _]. auto.
Qed.

Lemma deletePostRoute_author_only_witness :
  snd (deletePostRoute demoStore (Some 1) 1)
  = Body 200 "Post deleted successfully"%string
  /\ JsMap.get 1 (posts (fst (deletePostRoute demoStore (Some 1) 1))) = None.
Proof.
  pose proof (deletePostRoute_author_only demoStore (Some 1) 1
                demoStore_reachable) as (_ & H2 & _).
  split; [reflexivity | apply (H2 _ eq_refl)].
Defined.

Lemma find_app_none {A : Type} (P : A -> bool) l x :
  find P l = None -> find P (l ++ [x]) = if P x then Some x else None.
Proof.
  induction l as [|y r IH]; simpl; [reflexivity|].
  destruct (P y); [discriminate | exact IH].
Qed.

(** A user created with an email and a username that no stored user
    has. *)
Lemma createUser_distinct s now h data :
  store_ok s ->
  getUserByEmail s (iu_email data) = None ->
  getUserByUsername s (iu_username data) = None ->
  distinctCredentials s ->
  let s' := fst (createUser s now h data) in
  let user := snd (createUser s now h data) in
  distinctCredentials s'
  /\ getUserByEmail s' (iu_email data) = Some user
  /\ getUserByUsername s' (iu_username data) = Some user.
Proof.
  intros Hok Ee Eu Hdist. simpl.
  destruct (ok_users s Hok) as (_ & _ & Hb & _).
  pose proof (below_fresh _ _ Hb) as Hfresh.
  assert (Hold : forall k u, In (k, u) (users s) ->
                   u_email u <> iu_email data
                   /\ u_username u <> iu_username data).
  { intros k u Hin.
    assert (Hv : In u (JsMap.values (users s))) by (apply In_values; eauto).
    pose proof (find_none _ _ Ee u Hv) as H1.
    pose proof (find_none _ _ Eu u Hv) as H2.
    simpl in H1, H2. apply String.eqb_neq in H1, H2. auto. }
  split; [|split].
  - intros k1 u1 k2 u2 H1 H2 Hshare. simpl in H1, H2.
    apply In_set_fresh in H1; [|assumption].
    apply In_set_fresh in H2; [|assumption].
    destruct H1 as [H1|E1], H2 as [H2|E2].
    + eapply Hdist; eauto.
    + injection E2 as -> ->. simpl in Hshare.
      destruct (Hold _ _ H1). tauto.
    + injection E1 as -> ->. simpl in Hshare.
      destruct (Hold _ _ H2) as [Hx Hy].
      destruct Hshare as [Hs|Hs]; symmetry in Hs; tauto.
    + congruence.
  - unfold getUserByEmail in *. simpl.
    rewrite values_set_fresh by assumption.
    rewrite find_app_none by assumption. simpl.
    now rewrite String.eqb_refl.
  - unfold getUserByUsername in *. simpl.
    rewrite values_set_fresh by assumption.
    rewrite find_app_none by assumption. simpl.
    now rewrite String.eqb_refl.
Qed.

(** X20: [POST /api/auth/register] answers 400 and changes nothing when
    the body does not pass the schema or a stored user has the email or
    the username.  Otherwise [createUser] awaits the hash, while other
    requests are served; when the hash throws the answer is 500, and else
    [createUser] goes on in the store as it is by then: it stores the user
    under the next id with the hash for password, and the answer is 201
    with that user less the password.  The email and the username
    were looked for before the hash: no two users share an email or a
    username afterwards provided that none did when the hash came back
    and that no user with the email or the username was stored in the
    meantime, as is the case when no other request was served in
    between. *)
Theorem registerRoute_checks_before_the_hash s now body hashed meanwhile :
  let reply := registerRoute s now body hashed meanwhile in
  let resumed := meanwhile s in
  (body = None -> reply = (s, Refusal 400 "Invalid input"))
  /\ (forall data,
        body = Some data ->
        (getUserByEmail s (iu_email data) <> None ->
         reply = (s, Refusal 400 "User already exists with this email"))
        /\ (getUserByEmail s (iu_email data) = None ->
            getUserByUsername s (iu_username data) <> None ->
            reply = (s, Refusal 400 "Username already taken"))
        /\ (getUserByEmail s (iu_email data) = None ->
            getUserByUsername s (iu_username data) = None ->
            (forall message,
                hashed = Threw message ->
                reply = (resumed, Refusal 500 "Internal server error"))
            /\ (forall h,
                  hashed = Returned h ->
                  let user := snd (createUser resumed now h data) in
                  reply = (fst (createUser resumed now h data),
                           Body 201 (withoutPassword user))
                  /\ (exists answer,
                        snd reply = Body 201 answer
                        /\ wp_id answer = cur_users (currentId resumed)
                        /\ wp_email answer = iu_email data
                        /\ wp_username answer = iu_username data
                        /\ wp_displayName answer = iu_displayName data
                        /\ wp_createdAt answer = now)
                  /\ u_password user = h
                  /\ getUser (fst reply) (cur_users (currentId resumed))
                     = Some user
                  /\ (reachable resumed ->
                      getUserByEmail resumed (iu_email data) = None ->
                      getUserByUsername resumed (iu_username data) = None ->
                      distinctCredentials resumed ->
                      distinctCredentials (fst reply)
                      /\ getUserByEmail (fst reply) (iu_email data) = Some user
                      /\ getUserByUsername (fst reply) (iu_username data)
                         = Some user)
                  /\ (reachable s -> distinctCredentials s ->
                      distinctCredentials
                        (fst (registerRoute s now body hashed
                                (fun served => served))))))).
Proof.
  intros reply resumed.
  unfold reply, registerRoute, registerBegin.
  split; [now intros -> |].
  intros data ->. split; [|split].
  - intros He.
    destruct (getUserByEmail s (iu_email data)); [reflexivity | contradiction].
  - intros -> Hu.
    destruct (getUserByUsername s (iu_username data));
      [reflexivity | contradiction].
  - intros Ee Eu. rewrite Ee, Eu. fold resumed. split.
    + intros message ->. reflexivity.
    + intros h ->. unfold registerEnd.
      split; [reflexivity|].
      split; [eexists; repeat split|].
      split; [reflexivity | split; [apply get_set_eq | split]].
      * intros Hr Ee' Eu' Hdist. apply reachable_ok in Hr.
        apply (createUser_distinct resumed now h data); assumption.
      * intros Hr Hdist. apply reachable_ok in Hr.
        apply (createUser_distinct s now h data); assumption.
Qed.

Lemma demoStore_distinctCredentials : distinctCredentials demoStore.
Proof.
  intros k1 u1 k2 u2 H1 H2 Hshare. simpl in H1, H2.
  destruct H1 as [E1|[E1|[]]], H2 as [E2|[E2|[]]];
    injection E1 as <- <-; injection E2 as <- <-; simpl in Hshare;
    try reflexivity; destruct Hshare; discriminate.
Qed.

(** Two registrations with the email and the username of Alice, the
    second one received and answered while the hash of the first is
    computed: both are answered 201 and two users share the email and the
    username. *)
Example registerRoute_overlapping_registrations :
  let second served :=
    fst (registerRoute served 1000 (Some alice) (Returned "h2"%string)
           (fun served' => served')) in
  let reply := registerRoute newMemStorage 1001 (Some alice)
                 (Returned "h1"%string) second in
  (exists user, snd reply = Body 201 user)
  /\ map (fun user => (u_id user, u_email user, u_password user))
         (JsMap.values (users (fst reply)))
     = [(1, "alice@example.com", "h2"); (2, "alice@example.com", "h1")]%string
  /\ ~ distinctCredentials (fst reply).
Proof.
  cbv zeta. split; [eexists; reflexivity | split; [reflexivity|]].
  intros H.
  assert (E : 1 = 2); [|discriminate].
  eapply H; [left; reflexivity | right; left; reflexivity | left; reflexivity].
Qed.

(** ** Trending tags *)

Module JsStringMapFacts.
Import JsStringMap.
Section WithValue.
Context {V : Type}.
Implicit Type m : JsStringMap.t V.

Lemma sget_set_eq k v m : get k (set k v m) = Some v.
Proof.
  induction m as [|[k' v'] r IH]; simpl.
  - now rewrite String.eqb_refl.
  - destruct (String.eqb_spec k k') as [->|Hne]; simpl.
    + now rewrite String.eqb_refl.
    + destruct (String.eqb_spec k k'); [contradiction | exact IH].
Qed.

Lemma sget_set_ne k k' v m : k' <> k -> get k' (set k v m) = get k' m.
Proof.
  intros Hne. induction m as [|[k0 v0] r IH]; simpl.
  - destruct (String.eqb_spec k' k); [contradiction | reflexivity].
  - destruct (String.eqb_spec k k0) as [->|Hk]; simpl.
    + destruct (String.eqb_spec k' k0); [contradiction | reflexivity].
    + destruct (String.eqb_spec k' k0); [reflexivity | exact IH].
Qed.

Lemma sIn_keys_set k k' v m :
  In k' (keys (set k v m)) <-> k' = k \/ In k' (keys m).
Proof.
  induction m as [|[k0 v0] r IH]; simpl.
  - intuition.
  - destruct (String.eqb_spec k k0) as [->|Hk]; simpl.
    + intuition.
    + rewrite IH. intuition.
Qed.

Lemma sNoDup_set k v m : NoDup (keys m) -> NoDup (keys (set k v m)).
Proof.
  induction m as [|[k0 v0] r IH]; simpl; intros Hnd.
  - repeat constructor. simpl. tauto.
  - inversion Hnd as [|? ? Hni Hnd']; subst.
    destruct (String.eqb_spec k k0) as [->|Hk]; simpl.
    + now constructor.
    + constructor; [|auto]. rewrite sIn_keys_set. intuition.
Qed.

Lemma sget_In k v m : get k m = Some v -> In (k, v) m.
Proof.
  induction m as [|[k' v'] r IH]; simpl; [discriminate|].
  destruct (String.eqb_spec k k') as [->|Hne]; intros H.
  - left. congruence.
  - right. auto.
Qed.

Lemma sIn_get k v m : NoDup (keys m) -> In (k, v) m -> get k m = Some v.
Proof.
  induction m as [|[k' v'] r IH]; simpl; [tauto|].
  intros Hnd [E|Hin].
  - inversion E; subst. now rewrite String.eqb_refl.
  - inversion Hnd as [|? ? Hni Hnd']; subst.
    destruct (String.eqb_spec k k') as [->|Hne]; [|auto].
    exfalso. apply Hni. apply (in_map fst) in Hin. exact Hin.
Qed.

Lemma sget_None k m : get k m = None <-> ~ In k (keys m).
Proof.
  induction m as [|[k' v'] r IH]; simpl.
  - tauto.
  - destruct (String.eqb_spec k k') as [->|Hne].
    + split; [discriminate | tauto].
    + rewrite IH. split; intros H; [intros [E|E]; congruence | tauto].
Qed.

End WithValue.
End JsStringMapFacts.
Import JsStringMapFacts.

Lemma seen_countTag tagCounts tag t :
  seen (countTag tagCounts tag) t
  = seen tagCounts t + (if String.eqb t tag then 1 else 0).
Proof.
  unfold seen, countTag.
  destruct (String.eqb_spec t tag) as [->|Hne].
  - rewrite sget_set_eq. reflexivity.
  - rewrite sget_set_ne by assumption. lia.
Qed.

Lemma seen_countTags tags : forall tagCounts t,
  seen (fold_left countTag tags tagCounts) t
  = seen tagCounts t + occurrences t tags.
Proof.
  induction tags as [|tag r IH]; intros tagCounts t; simpl; [lia|].
  rewrite IH, seen_countTag. lia.
Qed.

Lemma keys_countTags tags : forall tagCounts t,
  In t (JsStringMap.keys (fold_left countTag tags tagCounts)) <->
  In t (JsStringMap.keys tagCounts) \/ In t tags.
Proof.
  induction tags as [|tag r IH]; intros tagCounts t; simpl; [tauto|].
  rewrite IH. unfold countTag. rewrite sIn_keys_set. intuition.
Qed.

Lemma NoDup_countTags tags : forall tagCounts,
  NoDup (JsStringMap.keys tagCounts) ->
  NoDup (JsStringMap.keys (fold_left countTag tags tagCounts)).
Proof.
  induction tags as [|tag r IH]; intros tagCounts H; simpl; [exact H|].
  apply IH. now apply sNoDup_set.
Qed.

(** The two nested loops visit the tags of the published posts in order. *)
Lemma countTagsOf_flat posts0 : forall tagCounts,
  fold_left countTagsOf posts0 tagCounts
  = fold_left countTag
      (flat_map (fun post =>
                   if p_published post then
                     match p_tags post with Some tags => tags | None => [] end
                   else [])
                posts0)
      tagCounts.
Proof.
  induction posts0 as [|post r IH]; intros tagCounts; simpl; [reflexivity|].
  rewrite fold_left_app, IH. unfold countTagsOf.
  destruct (p_published post); [|reflexivity].
  now destruct (p_tags post).
Qed.

Lemma occurrences_positive t tags : In t tags -> 1 <= occurrences t tags.
Proof.
  assert (Hnn : forall l, 0 <= occurrences t l).
  { induction l as [|x r IH]; simpl; [lia|].
    destruct (String.eqb t x); lia. }
  induction tags as [|x r IH]; simpl; [tauto|].
  intros [->|Hin].
  - rewrite String.eqb_refl. specialize (Hnn r). lia.
  - specialize (IH Hin). destruct (String.eqb t x); lia.
Qed.

Lemma descending_app_le {A : Type} (key : A -> Z) l1 l2 :
  descending key (l1 ++ l2) ->
  forall x y, In x l1 -> In y l2 -> key y <= key x.
Proof.
  unfold descending. induction l1 as [|a r IH]; simpl; intros Hs x y Hx Hy.
  - contradiction.
  - inversion Hs as [|? ? Hr Ha]; subst.
    destruct Hx as [<-|Hx]; [|eauto].
    rewrite Forall_forall in Ha. apply Ha. apply in_or_app. now right.
Qed.

Lemma NoDup_firstn {A : Type} n (l : list A) : NoDup l -> NoDup (firstn n l).
Proof.
  intros H. rewrite <- (firstn_skipn n l) in H.
  now apply NoDup_app_remove_r in H.
Qed.

(** X21: [getTrendingTags] returns at most ten (tag, count) entries with
    pairwise different tags, each count being the number of times the tag
    occurs in the tag lists of the published posts, at least 1, in
    descending order of count; a tag of a published post that is left out
    occurs no more often than any tag listed, and then ten are listed. *)
Theorem getTrendingTags_top_ten s :
  let trending := getTrendingTags s in
  (List.length trending <= 10)%nat
  /\ NoDup (map fst trending)
  /\ (forall tag n, In (tag, n) trending ->
                    n = occurrences tag (publishedTags s) /\ 1 <= n)
  /\ descending snd trending
  /\ (forall tag, In tag (publishedTags s) ->
        In (tag, occurrences tag (publishedTags s)) trending
        \/ (List.length trending = 10%nat
            /\ forall e, In e trending ->
                         occurrences tag (publishedTags s) <= snd e)).
Proof.
  cbv zeta. unfold getTrendingTags, JsStringMap.entries.
  rewrite countTagsOf_flat. fold (publishedTags s).
  set (tagCounts := fold_left countTag (publishedTags s) JsStringMap.empty).
  assert (Hnd : NoDup (JsStringMap.keys tagCounts)).
  { apply NoDup_countTags. constructor. }
  assert (Hseen : forall t, seen tagCounts t = occurrences t (publishedTags s)).
  { intros t. unfold tagCounts. rewrite seen_countTags. reflexivity. }
  assert (Hkeys : forall t, In t (JsStringMap.keys tagCounts) <->
                            In t (publishedTags s)).
  { intros t. unfold tagCounts. rewrite keys_countTags. simpl. tauto. }
  assert (Hentry : forall t n, In (t, n) tagCounts <->
                     In t (publishedTags s)
                     /\ n = occurrences t (publishedTags s)).
  { intros t n. split.
    - intros Hin. split.
      + apply Hkeys. apply (in_map fst) in Hin. exact Hin.
      + rewrite <- Hseen. unfold seen.
        now rewrite (sIn_get _ _ _ Hnd Hin).
    - intros [Ht ->]. apply sget_In. rewrite <- Hseen. unfold seen.
      destruct (JsStringMap.get t tagCounts) eqn:E; [reflexivity|].
      apply sget_None in E. exfalso. apply E. now apply Hkeys. }
  set (sorted := JsArray.sort (newestFirst snd) tagCounts).
  assert (Hdesc : descending snd sorted) by apply sort_descending.
  assert (Hperm : Permutation sorted tagCounts) by apply sort_perm.
  assert (H10 : 0 <= 10) by discriminate.
  rewrite (slice_prefix 10 sorted H10).
  split; [|split; [|split; [|split]]].
  - rewrite length_firstn. lia.
  - rewrite <- firstn_map. apply NoDup_firstn.
    apply (Permutation_NoDup (l := JsStringMap.keys tagCounts)); [|exact Hnd].
    symmetry. now apply Permutation_map.
  - intros tag n Hin. apply In_firstn in Hin.
    apply (Permutation_in _ Hperm) in Hin. apply Hentry in Hin.
    destruct Hin as [Ht ->]. split; [reflexivity|].
    now apply occurrences_positive.
  - now apply descending_firstn.
  - intros tag Ht.
    assert (Hin : In (tag, occurrences tag (publishedTags s)) sorted).
    { apply (Permutation_in _ (Permutation_sym Hperm)). now apply Hentry. }
    rewrite <- (firstn_skipn (Z.to_nat 10) sorted) in Hin.
    apply in_app_or in Hin. destruct Hin as [Hin|Hin]; [now left | right].
    split.
    + rewrite length_firstn. apply Nat.min_l.
      destruct (Nat.le_gt_cases (Z.to_nat 10) (List.length sorted)) as [H|H];
        [exact H|].
      rewrite skipn_all2 in Hin by lia. contradiction.
    + intros e He.
      rewrite <- (firstn_skipn (Z.to_nat 10) sorted) in Hdesc.
      apply (descending_app_le snd _ _ Hdesc e _ He Hin).
Qed.

(** ** What histories preserve *)

(** X22: in every store reachable from the constructor, every table has
    pairwise different keys, holds each record under its own id, and all
    its keys lie between 1 and the table's counter; and for ids that are
    integers there is at most one Like and one Bookmark per (user, post)
    and one Follow per (follower, following); records whose post id or
    followed id is [NaN] are not bound by this. *)
Theorem reachable_store_invariant s : reachable s -> store_ok s.
Proof.
  intros [ops ->]. apply run_ok. apply store_ok_new.
Qed.

Lemma reachable_store_invariant_witness : store_ok demoStore.
Proof.
  apply (reachable_store_invariant demoStore demoStore_reachable).
Defined.

(** X23: the user [createUser] returns has the counter's value as id, and
    [getUser] with that id returns that user after the call and after any
    further calls: users are never removed, rewritten or renumbered. *)
Theorem createUser_then_getUser s now h d ops :
  reachable s ->
  let U := snd (createUser s now h d) in
  let s' := run (fst (createUser s now h d)) ops in
  u_id U = cur_users (currentId s)
  /\ getUser s (u_id U) = None
  /\ getUser s' (u_id U) = Some U
  /\ u_password U = h
  /\ forall id V, getUser s id = Some V -> getUser s' id = Some V.
Proof.
  intros Hr U s'. pose proof (reachable_ok _ Hr) as Hok.
  pose proof (createUser_ok s now h d Hok) as Hok1.
  assert (Hok' : store_ok s') by now apply run_ok.
  destruct (ok_users s Hok) as (_ & _ & Hb & _).
  pose proof (below_fresh _ _ Hb) as Hfresh.
  destruct (ok_users s' Hok') as (Hmap' & _).
  split; [reflexivity | split; [|split; [|split; [reflexivity|]]]].
  - unfold getUser. now apply get_None.
  - unfold getUser. apply In_get; [exact Hmap'|].
    apply users_run; [exact Hok1|]. apply get_In, get_set_eq.
  - intros id V Hget. unfold getUser in *. apply In_get; [exact Hmap'|].
    apply users_run; [exact Hok1|].
    simpl. apply In_set_fresh; [exact Hfresh|]. left. now apply get_In.
Qed.

Lemma createUser_then_getUser_witness :
  getUser (run (fst (createUser demoStore 1004 "h3" bob))
               [CreatePost 1005 demoPost; FollowUser 1006 3 (Int 1)])
          3
  = Some (snd (createUser demoStore 1004 "h3" bob)).
Proof.
  pose proof (createUser_then_getUser demoStore 1004 "h3" bob
                [CreatePost 1005 demoPost; FollowUser 1006 3 (Int 1)]
                demoStore_reachable) as (_ & _ & H & _).
  exact H.
Defined.

Lemma readLater_refl m : readLater m m.
Proof. unfold readLater. tauto. Qed.

Lemma readLater_trans a b c : readLater a b -> readLater b c -> readLater a c.
Proof.
  unfold readLater. intros (H1 & H2 & H3 & H4 & H5 & H6) (G1 & G2 & G3 & G4 & G5 & G6).
  repeat split; try congruence. auto.
Qed.

Lemma messages_step s op k m :
  store_ok s -> In (k, m) (messages s) ->
  exists m', In (k, m') (messages (step s op)) /\ readLater m m'.
Proof.
  intros Hok Hin.
  destruct op; try rewrite step_followUser;
    unfold step, exec, returns; cbn [fst];
    try (exists m; split; [|apply readLater_refl];
         unfold updatePost, deletePost, likePost, unlikePost, deleteComment,
           bookmarkPost, unbookmarkPost, unfollowUser, followUser;
         open_op; simpl; auto; fail).
  - (* sendMessage *)
    exists m. split; [|apply readLater_refl]. simpl.
    apply In_set_fresh; [|now left].
    apply below_fresh. apply (ok_messages s Hok).
  - (* markMessagesAsRead *)
    rewrite (markMessagesAsRead_messages s userId otherUserId Hok).
    exists (snd (rewriteSelected (fun e => unreadFrom otherUserId userId (snd e))
                                 markRead (k, m))).
    split.
    + apply in_map_iff. exists (k, m). split; [|exact Hin].
      unfold rewriteSelected. simpl. now destruct (unreadFrom _ _ m).
    + unfold rewriteSelected. simpl.
      destruct (unreadFrom otherUserId userId m);
        [|apply readLater_refl].
      unfold readLater. simpl. tauto.
Qed.

(** X24: a message, once stored, stays stored under its id through any
    further calls, with the same sender, receiver, content and creation
    time; only its read flag can change, and only from unread to read. *)
Theorem messages_are_kept_and_only_get_read s ops k m :
  reachable s -> In (k, m) (messages s) ->
  exists m', JsMap.get k (messages (run s ops)) = Some m' /\ readLater m m'.
Proof.
  intros Hr Hin.
  assert (H : exists m', In (k, m') (messages (run s ops)) /\ readLater m m').
  { apply reachable_ok in Hr. revert s m Hr Hin. unfold run.
    induction ops as [|op ops IH]; intros s m Hok Hin; simpl.
    - exists m. split; [exact Hin | apply readLater_refl].
    - destruct (messages_step s op k m Hok Hin) as (m1 & Hin1 & Hl1).
      destruct (IH (step s op) m1 (step_ok s op Hok) Hin1) as (m2 & Hin2 & Hl2).
      exists m2. split; [exact Hin2 | eapply readLater_trans; eauto]. }
  destruct H as (m' & Hin' & Hl). exists m'. split; [|exact Hl].
  apply In_get; [|exact Hin'].
  apply (ok_messages (run s ops)). apply reachable_ok. now apply reachable_run.
Qed.

Lemma messages_are_kept_and_only_get_read_witness :
  exists m',
    JsMap.get 1 (messages (run mailStore [MarkMessagesAsRead 2 1;
                                          SendMessage 1005 (note 2 1 "ok")]))
    = Some m'
    /\ readLater (snd (sendMessage (run newMemStorage
                                      [CreateUser 1000 "h1" alice;
                                       CreateUser 1001 "h2" bob])
                                   1002 (note 1 2 "one"))) m'.
Proof.
  apply (messages_are_kept_and_only_get_read mailStore
           [MarkMessagesAsRead 2 1; SendMessage 1005 (note 2 1 "ok")] 1 _
           mailStore_reachable).
  simpl. auto.
Defined.

(** ** Author summaries *)

Lemma summaryOf_summarises s id :
  store_ok s -> summarises s (summaryOf (getUser s id)) id.
Proof.
  intros Hok. unfold summarises.
  pose proof (summary_id s id Hok) as Hid.
  destruct (getUser s id) as [user|]; simpl in *; auto.
Qed.

(** X25: the author of an enriched post, the author of a listed comment
    and the sender of a listed message are summaries of the stored user
    with that id: they carry that id and the display name, username and
    avatar of the user; when the id does not resolve they are the
    placeholder with id 0, display name "Unknown User", username
    "unknown" and no avatar. *)
Theorem author_summaries_copy_the_stored_user s :
  reachable s ->
  (forall id viewer e,
      getPost s id viewer = Some e ->
      summarises s (pw_author e) (p_authorId (pw_post e)))
  /\ (forall limit offset viewer e,
        In e (getPosts s limit offset viewer) ->
        summarises s (pw_author e) (p_authorId (pw_post e)))
  /\ (forall p cw,
        In cw (getComments s p) ->
        summarises s (cw_author cw) (c_userId (cw_comment cw)))
  /\ (forall u o limit m,
        In m (getMessages s u o limit) ->
        summarises s (mw_sender m) (m_senderId (mw_message m))).
Proof.
  intros Hr. apply reachable_ok in Hr.
  split; [|split; [|split]].
  - intros id viewer e He.
    destruct (returned_is_enriched s viewer e Hr (or_introl (ex_intro _ id He)))
      as (E & _). rewrite E. simpl. now apply summaryOf_summarises.
  - intros limit offset viewer e He.
    destruct (returned_is_enriched s viewer e Hr
                (or_intror (ex_intro _ limit (ex_intro _ offset He))))
      as (E & _). rewrite E. simpl. now apply summaryOf_summarises.
  - intros p cw Hin. unfold getComments in Hin. apply in_map_iff in Hin.
    destruct Hin as (c & <- & _). simpl. now apply summaryOf_summarises.
  - intros u o limit m Hin. unfold getMessages in Hin. apply in_map_iff in Hin.
    destruct Hin as (msg & <- & _). simpl. now apply summaryOf_summarises.
Qed.

Lemma author_summaries_copy_the_stored_user_witness :
  map (fun e => (a_id (pw_author e), a_displayName (pw_author e),
                 a_username (pw_author e)))
      (getPosts demoStore 10 0 None)
  = [(1, "Alice", "alice")]%string
  /\ forall e, In e (getPosts demoStore 10 0 None) ->
               summarises demoStore (pw_author e) (p_authorId (pw_post e)).
Proof.
  split; [reflexivity|].
  pose proof (author_summaries_copy_the_stored_user demoStore
                demoStore_reachable) as (_ & H & _).
  apply H.
Defined.
